(** * linalg-viz: animation, timeline, scene playback, vectors and camera

    A shallow embedding of the playback core of linalg-viz
    (animation/animator.py, animation/easing.py, animation/timeline.py,
    scene/scene.py, core/vector.py, core/matrix.py, scene/camera.py) and
    the properties stated about it.

    Conventions of the embedding.
    - A Python [float] is a real number: arithmetic is exact, rounding,
      infinities and NaN are not represented.  The statements are written
      to hold for the binary64 numbers of the program as well: they equate
      computed values only where no operation rounds (a value that is
      copied, a sum with zero, a product with zero or one, a difference of
      equal values, the negation of a value), they bound values by
      inequalities that rounding keeps, and they name the exceptions that
      are raised.  The hypothesis [moderate] keeps a number at zero or
      within [1e-150, 1e150] in magnitude, where no product or sum of the
      operations involved overflows or underflows.  A statement that holds
      in exact arithmetic only says so; module [Binary64] evaluates single
      expressions of the sources on binary64 numbers where the two
      differ.
    - A Python object that is mutated through several references (a Vector,
      an Animation) lives in a [Store] and is named by its address; methods
      on such objects are store transformers.
    - A raised exception is the [Raise] constructor of [Result]; Python
      division raises on a zero divisor, numpy division does not.
    - A one-dimensional numpy array is a list of reals; the operations of
      numpy that the sources call are in module [np], shape errors
      included. *)

From Stdlib Require Import PrimFloat.
From Stdlib Require Import String.
From Stdlib Require Import Reals Lra Lia List Bool Arith.
Import ListNotations.

Set Warnings "-inexact-float".

Local Open Scope R_scope.

(** ** Exceptions and results *)

Inductive Exception : Type :=
| ValueError (msg : string)
| AttributeError (name : string)
| ZeroDivisionError.

Inductive Result (A : Type) : Type :=
| Ok (a : A)
| Raise (e : Exception).

Arguments Ok {A} a.
Arguments Raise {A} e.

Definition bind {A B : Type} (m : Result A) (k : A -> Result B) : Result B :=
  match m with
  | Ok a => k a
  | Raise e => Raise e
  end.

Declare Scope result_scope.
Delimit Scope result_scope with result.
Notation "x <- m ;; k" := (bind m (fun x => k))
  (at level 61, m at next level, right associativity) : result_scope.
Notation "' p <- m ;; k" := (bind m (fun x => match x with p => k end))
  (at level 61, p pattern, m at next level, right associativity) : result_scope.
Local Open Scope result_scope.

Definition is_ok {A : Type} (m : Result A) : bool :=
  match m with Ok _ => true | Raise _ => false end.

(** ** Float comparisons, truthiness, division, [min] and [max] *)

Definition Rgeb (x y : R) : bool := if Rge_dec x y then true else false.
Definition Rltb (x y : R) : bool := if Rlt_dec x y then true else false.
Definition Rleb (x y : R) : bool := if Rle_dec x y then true else false.
Definition Rgtb (x y : R) : bool := if Rgt_dec x y then true else false.
Definition Reqb (x y : R) : bool := if Req_dec_T x y then true else false.

(** [if x:] on a float: every value but zero is true. *)
Definition truthy (x : R) : bool := negb (Reqb x 0).

(** [x / y] on Python floats raises when the divisor is zero. *)
Definition py_div (x y : R) : Result R :=
  if Reqb y 0 then Raise ZeroDivisionError else Ok (x / y).

(** The builtin [min(a, b)]: the second argument wins only when it is
    strictly smaller; [max(a, b)] likewise. *)
Definition py_min (a b : R) : R := if Rltb b a then b else a.
Definition py_max (a b : R) : R := if Rgtb b a then b else a.

(** [max(iterable)]: raises on an empty iterable. *)
Definition py_max_list (l : list R) : Result R :=
  match l with
  | [] => Raise (ValueError "max() arg is an empty sequence")
  | x :: xs => Ok (fold_left py_max xs x)
  end.

(** ** Easing (animation/easing.py) *)

Definition EasingFunc : Type := R -> R.

Module Easing.

Definition linear (t : R) : R := t.

Definition ease_in_quad (t : R) : R := t * t.

Definition ease_out_quad (t : R) : R := 1 - (1 - t) ^ 2.

Definition ease_in_out_quad (t : R) : R :=
  if Rltb t (1 / 2) then 2 * t * t else 1 - 2 * (1 - t) ^ 2.

Definition ease_in_cubic (t : R) : R := t ^ 3.

Definition ease_out_cubic (t : R) : R := 1 - (1 - t) ^ 3.

Definition ease_in_out_cubic (t : R) : R :=
  if Rltb t (1 / 2) then 4 * t ^ 3 else 1 - (-2 * t + 2) ^ 3 / 2.

Definition ease_in_sine (t : R) : R := 1 - cos (t * PI / 2).

Definition ease_out_sine (t : R) : R := sin (t * PI / 2).

Definition ease_out_elastic (t : R) : R :=
  if Reqb t 0 || Reqb t 1 then t
  else Rpower 2 (-10 * t) * sin ((t * 10 - 0.75) * (2 * PI) / 3) + 1.

Definition ease_out_bounce (t : R) : R :=
  if Rltb t (1 / 2.75) then 7.5625 * t * t
  else if Rltb t (2 / 2.75) then
    let t := t - 1.5 / 2.75 in 7.5625 * t * t + 0.75
  else if Rltb t (2.5 / 2.75) then
    let t := t - 2.25 / 2.75 in 7.5625 * t * t + 0.9375
  else
    let t := t - 2.625 / 2.75 in 7.5625 * t * t + 0.984375.

End Easing.

(** ** Addresses *)

Definition ref : Type := nat.

(** ** Animation (animation/animator.py) *)

(** The class of an animation object and the fields its subclass adds:
    a [VectorAnimation] keeps references to its start and end Vector, a
    [GridTransformAnimation] the matrix it moves the identity toward. *)
Inductive AnimationKind : Type :=
| BaseAnimation
| VectorAnimation (_start _end : ref)
| GridTransformAnimation (_matrix : list (list R)).

Module Animation.

Record t : Type := mk {
  _duration : R;
  _easing : EasingFunc;
  _elapsed : R;
  _finished : bool;
  kind : AnimationKind
}.

Definition set_elapsed (a : t) (e : R) : t :=
  mk (_duration a) (_easing a) e (_finished a) (kind a).

Definition set_finished (a : t) (b : bool) : t :=
  mk (_duration a) (_easing a) (_elapsed a) b (kind a).

(** [Animation.__init__]: [easing or Easing.ease_in_out_cubic]. *)
Definition __init__ (k : AnimationKind) (duration : R)
    (easing : option EasingFunc) : t :=
  mk duration
     (match easing with Some f => f | None => Easing.ease_in_out_cubic end)
     0 false k.

Definition duration (a : t) : R := _duration a.

(** [min(1.0, elapsed / duration) if duration else 1.0] *)
Definition progress (a : t) : Result R :=
  if truthy (_duration a)
  then q <- py_div (_elapsed a) (_duration a) ;; Ok (py_min 1 q)
  else Ok 1.

Definition eased_progress (a : t) : Result R :=
  p <- progress a ;; Ok (_easing a p).

Definition is_finished (a : t) : bool := _finished a.

Definition update (a : t) (dt : R) : t :=
  if _finished a then a
  else
    let a1 := set_elapsed a (_elapsed a + dt) in
    if Rgeb (_elapsed a1) (_duration a1)
    then set_finished (set_elapsed a1 (_duration a1)) true
    else a1.

Definition reset (a : t) : t :=
  set_finished (set_elapsed a 0) false.

End Animation.

(** ** Object stores

    One store per class: a total map from addresses to object states and
    the next free address.  Two references alias exactly when they are the
    same address. *)

Record Store (A : Type) : Type := mkStore {
  cell : ref -> A;
  next : ref
}.

Arguments mkStore {A} cell next.
Arguments cell {A} s r.
Arguments next {A} s.

Module Store.

Definition empty {A : Type} (d : A) : Store A := mkStore (fun _ => d) 0%nat.

Definition get {A : Type} (s : Store A) (r : ref) : A := cell s r.

Definition set {A : Type} (s : Store A) (r : ref) (a : A) : Store A :=
  mkStore (fun r' => if Nat.eqb r' r then a else cell s r') (next s).

Definition modify {A : Type} (s : Store A) (r : ref) (f : A -> A) : Store A :=
  set s r (f (get s r)).

Definition alloc {A : Type} (s : Store A) (a : A) : ref * Store A :=
  (next s,
   mkStore (fun r' => if Nat.eqb r' (next s) then a else cell s r')
           (S (next s))).

End Store.

(** ** The part of numpy the sources use, on one-dimensional arrays *)

Definition ndarray : Type := list R.

Module np.

Definition zeros (n : nat) : ndarray := repeat 0 n.

Fixpoint zip_with {B : Type} (f : R -> R -> B) (a b : ndarray) : list B :=
  match a, b with
  | x :: a', y :: b' => f x y :: zip_with f a' b'
  | _, _ => []
  end.

(** Elementwise binary operation with numpy's broadcasting: equal
    shapes, or one operand of length one stretched over the other;
    any other pair of shapes raises. *)
Definition broadcast {B : Type} (f : R -> R -> B) (a b : ndarray)
    : Result (list B) :=
  if Nat.eqb (length a) (length b) then Ok (zip_with f a b)
  else
    match a, b with
    | [x], _ => Ok (map (f x) b)
    | _, [y] => Ok (map (fun x => f x y) a)
    | _, _ => Raise (ValueError "operands could not be broadcast together")
    end.

Definition add : ndarray -> ndarray -> Result ndarray := broadcast Rplus.
Definition subtract : ndarray -> ndarray -> Result ndarray := broadcast Rminus.

(** scalar * array *)
Definition scale (t : R) (a : ndarray) : ndarray := map (Rmult t) a.

(** array / scalar (numpy division never raises) *)
Definition divide (a : ndarray) (t : R) : ndarray := map (fun x => x / t) a.

Definition sum (a : ndarray) : R := fold_left Rplus a 0.

Definition dot (a b : ndarray) : Result R :=
  if Nat.eqb (length a) (length b) then Ok (sum (zip_with Rmult a b))
  else Raise (ValueError "shapes not aligned").

Definition norm (a : ndarray) : R := sqrt (sum (zip_with Rmult a a)).

Definition clip (x lo hi : R) : R := Rmin hi (Rmax x lo).

Definition arccos (x : R) : R := acos x.

Definition rtol : R := 1e-5.
Definition atol : R := 1e-8.

(** [allclose(a, b)]: [|a - b| <= atol + rtol * |b|] elementwise, then
    [all]. *)
Definition allclose (a b : ndarray) : Result bool :=
  close <- broadcast (fun x y => Rleb (Rabs (x - y)) (atol + rtol * Rabs y))
             a b ;;
  Ok (forallb (fun c => c) close).

(** [any(a)]: some element is true, that is non-zero. *)
Definition any (a : ndarray) : bool := existsb truthy a.

(** *** Two-dimensional arrays, as lists of rows *)

(** The array [eye(n)]. *)
Definition eye (n : nat) : list ndarray :=
  map (fun i => map (fun j => if Nat.eqb i j then 1 else 0) (seq 0 n))
      (seq 0 n).

(** [diag(v)] for a one-dimensional [v]. *)
Definition diag (v : ndarray) : list ndarray :=
  map (fun i =>
         map (fun j => if Nat.eqb i j then nth i v 0 else 0)
             (seq 0 (length v)))
      (seq 0 (length v)).

(** Every row has [cols] entries. *)
Definition rectangular (cols : nat) (a : list ndarray) : bool :=
  forallb (fun row => Nat.eqb (length row) cols) a.

(** [a.T] *)
Definition transpose (a : list ndarray) : list ndarray :=
  match a with
  | [] => []
  | row :: _ => map (fun j => map (fun r => nth j r 0) a) (seq 0 (length row))
  end.

(** [a @ v] for a two-dimensional [a] and a one-dimensional [v]: the
    rows of [a] must be as long as [v]. *)
Definition matvec (a : list ndarray) (v : ndarray) : Result ndarray :=
  if rectangular (length v) a
  then Ok (map (fun row => sum (zip_with Rmult row v)) a)
  else Raise (ValueError "matmul: mismatch in core dimension").

(** [a @ b] for two-dimensional [a] and [b]: the rows of [a] must be as
    long as [b] has rows. *)
Definition matmul (a b : list ndarray) : Result (list ndarray) :=
  if rectangular (length b) a
  then Ok (map (fun row =>
                  map (fun col => sum (zip_with Rmult row col)) (transpose b))
               a)
  else Raise (ValueError "matmul: mismatch in core dimension").

Fixpoint same_shape (a b : list ndarray) : bool :=
  match a, b with
  | [], [] => true
  | x :: a', y :: b' => Nat.eqb (length x) (length y) && same_shape a' b'
  | _, _ => false
  end.

Fixpoint zip_rows (f : R -> R -> R) (a b : list ndarray) : list ndarray :=
  match a, b with
  | x :: a', y :: b' => zip_with f x y :: zip_rows f a' b'
  | _, _ => []
  end.

(** Elementwise operation on two two-dimensional arrays.  The sources
    only combine an identity array with the data of a Matrix of the same
    dimension; operands of different shapes are reported as numpy reports
    shapes it cannot broadcast. *)
Definition elementwise2 (f : R -> R -> R) (a b : list ndarray)
    : Result (list ndarray) :=
  if same_shape a b then Ok (zip_rows f a b)
  else Raise (ValueError "operands could not be broadcast together").

Definition add2 : list ndarray -> list ndarray -> Result (list ndarray) :=
  elementwise2 Rplus.
Definition subtract2 : list ndarray -> list ndarray -> Result (list ndarray) :=
  elementwise2 Rminus.

(** scalar * two-dimensional array *)
Definition scale2 (t : R) (a : list ndarray) : list ndarray :=
  map (scale t) a.

(** [trace(a)]: the sum along the diagonal. *)
Definition trace (a : list ndarray) : R :=
  sum (map (fun i => nth i (nth i a []) 0) (seq 0 (length a))).

End np.


(** ** More Python builtins *)

(** [range(n)] *)
Definition py_range (n : Z) : list Z := map Z.of_nat (seq 0 (Z.to_nat n)).

(** A list comprehension or append loop whose body can raise: the first
    exception ends it. *)
Fixpoint map_result {A B : Type} (f : A -> Result B) (l : list A)
    : Result (list B) :=
  match l with
  | [] => Ok []
  | x :: rest => y <- f x ;; ys <- map_result f rest ;; Ok (y :: ys)
  end.

(** ** Matrix (core/matrix.py)

    A Matrix is immutable after construction and is passed by value. *)

Module Matrix.

Record t : Type := mk {
  _data : list ndarray;
  _dim : nat
}.

(** [Matrix(data)] for nested lists of floats.  [np.array] rejects rows of
    unequal lengths; an empty list gives a one-dimensional array. *)
Definition __init__ (data : list ndarray) : Result t :=
  match data with
  | [] => Raise (ValueError "Matrix must be square")
  | row :: _ =>
      if negb (np.rectangular (length row) data)
      then Raise (ValueError "setting an array element with a sequence")
      else if negb (Nat.eqb (length data) (length row))
      then Raise (ValueError "Matrix must be square")
      else if negb (Nat.eqb (length data) 2 || Nat.eqb (length data) 3)
      then Raise (ValueError "Matrix must be 2x2 or 3x3")
      else Ok (mk data (length data))
  end.

Definition dim (m : t) : nat := _dim m.
Definition data (m : t) : list ndarray := _data m.

(** [np.eye(0)] is an array of shape (0, 0): two-dimensional and square,
    so it is its size that the constructor refuses. *)
Definition identity (dim : nat) : Result t :=
  match dim with
  | O => Raise (ValueError "Matrix must be 2x2 or 3x3")
  | S _ => __init__ (np.eye dim)
  end.

Definition rotation (angle : R) : Result t :=
  let c := cos angle in
  let s := sin angle in
  __init__ [[c; - s]; [s; c]].

Definition rotation_x (angle : R) : Result t :=
  let c := cos angle in
  let s := sin angle in
  __init__ [[1; 0; 0]; [0; c; - s]; [0; s; c]].

Definition rotation_y (angle : R) : Result t :=
  let c := cos angle in
  let s := sin angle in
  __init__ [[c; 0; s]; [0; 1; 0]; [- s; 0; c]].

Definition rotation_z (angle : R) : Result t :=
  let c := cos angle in
  let s := sin angle in
  __init__ [[c; - s; 0]; [s; c; 0]; [0; 0; 1]].

(** [np.diag(())] is an array of shape (0, 0) as well. *)
Definition scaling (factors : list R) : Result t :=
  match factors with
  | [] => Raise (ValueError "Matrix must be 2x2 or 3x3")
  | _ :: _ => __init__ (np.diag factors)
  end.

Definition shear (shear_x shear_y : R) : Result t :=
  __init__ [[1; shear_x]; [shear_y; 1]].

Definition reflection (axis : string) : Result t :=
  if String.eqb axis "x" then __init__ [[1; 0]; [0; -1]]
  else if String.eqb axis "y" then __init__ [[-1; 0]; [0; 1]]
  else __init__ [[-1; 0]; [0; -1]].

(** [projection(onto)]: the four quotients are taken on Python floats,
    left to right. *)
Definition projection (onto : R * R) : Result t :=
  let '(x, y) := onto in
  let n := x * x + y * y in
  a <- py_div (x * x) n ;;
  b <- py_div (x * y) n ;;
  c <- py_div (x * y) n ;;
  d <- py_div (y * y) n ;;
  __init__ [[a; b]; [c; d]].

Definition trace (m : t) : R := np.trace (_data m).

Definition transpose (m : t) : Result t := __init__ (np.transpose (_data m)).

Definition __matmul__ (self other : t) : Result t :=
  d <- np.matmul (_data self) (_data other) ;;
  __init__ d.

End Matrix.

(** ** Vector (core/vector.py) *)

Module Vector.

(** A color tuple, normally of four channels. *)
Definition Color : Type := list R.

Record t : Type := mk {
  _components : ndarray;
  _dim : nat;
  _origin : ndarray;
  _color : Color;
  _pending_animation : option ref;   (* an Animation *)
  _previous_state : option ref;      (* a Vector *)
  _scene : option ref                (* a Scene *)
}.

Definition set_origin (o : ndarray) (v : t) : t :=
  mk (_components v) (_dim v) o (_color v)
     (_pending_animation v) (_previous_state v) (_scene v).

Definition set_color (c : Color) (v : t) : t :=
  mk (_components v) (_dim v) (_origin v) c
     (_pending_animation v) (_previous_state v) (_scene v).

Definition set_pending_animation (a : option ref) (v : t) : t :=
  mk (_components v) (_dim v) (_origin v) (_color v)
     a (_previous_state v) (_scene v).

Definition set_previous_state (p : option ref) (v : t) : t :=
  mk (_components v) (_dim v) (_origin v) (_color v)
     (_pending_animation v) p (_scene v).

Definition set_scene (s : option ref) (v : t) : t :=
  mk (_components v) (_dim v) (_origin v) (_color v)
     (_pending_animation v) (_previous_state v) s.

Definition default_color : Color := [1; 0.3; 0.3; 1].

(** [len(components) in (2, 3)] *)
Definition valid_arity (n : nat) : bool := Nat.eqb n 2 || Nat.eqb n 3.

(** [Vector(c1, ..., cn, origin=origin)].  The components are floats, so
    the branch that unpacks a single iterable argument is never taken.
    [if origin] is the truth value of a tuple: false for [None] and for
    the empty tuple. *)
Definition __init__ (components : list R) (origin : option (list R))
    (vs : Store t) : Result (ref * Store t) :=
  if negb (valid_arity (length components))
  then Raise (ValueError "Vector must have 2 or 3 components")
  else
    let dim := length components in
    let o := match origin with
             | Some (x :: xs) => x :: xs
             | _ => np.zeros dim
             end in
    Ok (Store.alloc vs (mk components dim o default_color None None None)).

Definition dim (v : t) : nat := _dim v.
Definition components (v : t) : ndarray := _components v.
Definition origin (v : t) : ndarray := _origin v.
Definition magnitude (v : t) : R := np.norm (_components v).

Definition copy (self : ref) (vs : Store t) : Result (ref * Store t) :=
  let s := Store.get vs self in
  '(v, vs1) <- __init__ (_components s) (Some (_origin s)) vs ;;
  Ok (v, Store.modify vs1 v (set_color (_color (Store.get vs1 self)))).

Definition normalized (self : ref) (vs : Store t) : Result (ref * Store t) :=
  let s := Store.get vs self in
  let mag := magnitude s in
  if Reqb mag 0 then __init__ (_components s) None vs
  else __init__ (np.divide (_components s) mag) None vs.

(** The tail shared by [scale], [add], [subtract] and [project_onto]:
    build the result at [self]'s origin, copy the color, record a copy of
    [self] as previous state and inherit the scene. *)
Definition derive (self : ref) (new_components : ndarray)
    (vs : Store t) : Result (ref * Store t) :=
  '(result, vs1) <-
     __init__ new_components (Some (_origin (Store.get vs self))) vs ;;
  let vs2 := Store.modify vs1 result
               (set_color (_color (Store.get vs1 self))) in
  '(c, vs3) <- copy self vs2 ;;
  let vs4 := Store.modify vs3 result (set_previous_state (Some c)) in
  let vs5 := Store.modify vs4 result
               (set_scene (_scene (Store.get vs4 self))) in
  Ok (result, vs5).

Definition scale (self : ref) (factor : R) (vs : Store t)
    : Result (ref * Store t) :=
  derive self (map (fun x => x * factor) (_components (Store.get vs self))) vs.

Definition add (self other : ref) (vs : Store t) : Result (ref * Store t) :=
  let s := Store.get vs self in
  let o := Store.get vs other in
  if negb (Nat.eqb (_dim s) (_dim o))
  then Raise (ValueError "Cannot add vectors of different dimensions")
  else
    c <- np.add (_components s) (_components o) ;;
    derive self c vs.

Definition subtract (self other : ref) (vs : Store t)
    : Result (ref * Store t) :=
  let s := Store.get vs self in
  let o := Store.get vs other in
  if negb (Nat.eqb (_dim s) (_dim o))
  then Raise (ValueError "Cannot subtract vectors of different dimensions")
  else
    c <- np.subtract (_components s) (_components o) ;;
    derive self c vs.

Definition dot (self other : ref) (vs : Store t) : Result R :=
  let s := Store.get vs self in
  let o := Store.get vs other in
  if negb (Nat.eqb (_dim s) (_dim o))
  then Raise (ValueError "Cannot dot vectors of different dimensions")
  else np.dot (_components s) (_components o).

Definition cross (self other : ref) (vs : Store t) : Result (ref * Store t) :=
  let s := Store.get vs self in
  let o := Store.get vs other in
  if negb (Nat.eqb (_dim s) 3) || negb (Nat.eqb (_dim o) 3)
  then Raise (ValueError "Cross product requires 3D vectors")
  else
    match _components s, _components o with
    | [a1; a2; a3], [b1; b2; b3] =>
        __init__ [a2 * b3 - a3 * b2; a3 * b1 - a1 * b3; a1 * b2 - a2 * b1] None vs
    | _, _ => Raise (ValueError "incompatible dimensions for cross product")
    end.

Definition project_onto (self other : ref) (vs : Store t)
    : Result (ref * Store t) :=
  let s := Store.get vs self in
  let o := Store.get vs other in
  if negb (Nat.eqb (_dim s) (_dim o))
  then Raise (ValueError "Cannot project vectors of different dimensions")
  else
    other_mag_sq <- np.dot (_components o) (_components o) ;;
    if Rltb other_mag_sq 1e-10 then __init__ (np.zeros (_dim s)) None vs
    else
      d <- np.dot (_components s) (_components o) ;;
      let scalar := d / other_mag_sq in
      derive self (np.scale scalar (_components o)) vs.

Definition angle_with (self other : ref) (vs : Store t) : Result R :=
  let s := Store.get vs self in
  let o := Store.get vs other in
  if negb (Nat.eqb (_dim s) (_dim o))
  then Raise (ValueError
                "Cannot compute angle between vectors of different dimensions")
  else
    d <- np.dot (_components s) (_components o) ;;
    let cos_angle := d / (magnitude s * magnitude o + 1e-10) in
    let cos_angle := np.clip cos_angle (-1) 1 in
    Ok (np.arccos cos_angle).

(** [at(origin)] rebinds the origin of [self] in place. *)
Definition at_ (self : ref) (origin : list R) (vs : Store t)
    : ref * Store t :=
  (self, Store.modify vs self (set_origin origin)).

(** [color(c)] for a tuple argument: three channels get an alpha of 1,
    any other tuple is stored as it is. *)
Definition color (self : ref) (c : list R) (vs : Store t) : ref * Store t :=
  match c with
  | [r; g; b] => (self, Store.modify vs self (set_color [r; g; b; 1]))
  | _ => (self, Store.modify vs self (set_color c))
  end.

(** [animate(duration)]: only a vector with a recorded previous state
    gets a pending [VectorAnimation(previous_state, self, duration)], built
    here as [VectorAnimation.__init__] below builds it. *)
Definition animate (self : ref) (duration : R)
    (vs : Store t) (anims : Store Animation.t)
    : ref * Store t * Store Animation.t :=
  match _previous_state (Store.get vs self) with
  | Some p =>
      let '(a, anims1) :=
        Store.alloc anims
          (Animation.__init__ (VectorAnimation p self) duration None) in
      (self, Store.modify vs self (set_pending_animation (Some a)), anims1)
  | None => (self, vs, anims)
  end.

(** [__eq__] between two Vectors: the components only. *)
Definition __eq__ (self other : ref) (vs : Store t) : Result bool :=
  np.allclose (_components (Store.get vs self))
              (_components (Store.get vs other)).

(** [transform(matrix)] for a Matrix argument.  The origin is only mapped
    when it is not the zero point. *)
Definition transform (self : ref) (matrix : Matrix.t) (vs : Store t)
    : Result (ref * Store t) :=
  let s := Store.get vs self in
  new_components <- np.matvec (Matrix._data matrix) (_components s) ;;
  new_origin <-
    (if np.any (_origin s) then np.matvec (Matrix._data matrix) (_origin s)
     else Ok (_origin s)) ;;
  '(result, vs1) <- __init__ new_components (Some new_origin) vs ;;
  let vs2 := Store.modify vs1 result
               (set_color (_color (Store.get vs1 self))) in
  '(c, vs3) <- copy self vs2 ;;
  let vs4 := Store.modify vs3 result (set_previous_state (Some c)) in
  let vs5 := Store.modify vs4 result
               (set_scene (_scene (Store.get vs4 self))) in
  Ok (result, vs5).

(** [-v] *)
Definition __neg__ (self : ref) (vs : Store t) : Result (ref * Store t) :=
  scale self (-1) vs.

End Vector.

(** ** VectorAnimation (animation/animator.py) *)

Module VectorAnimation.

Definition __init__ (start end_ : ref) (duration : R)
    (easing : option EasingFunc) : Animation.t :=
  Animation.__init__ (VectorAnimation start end_) duration easing.

(** [start + t * (end - start)] on components and on origins, read
    from the two Vector objects at the time of the call.  The method
    belongs to VectorAnimation objects only. *)
Definition get_value (a : Animation.t) (vs : Store Vector.t)
    : Result (ndarray * ndarray) :=
  match Animation.kind a with
  | VectorAnimation start end_ =>
      let s := Store.get vs start in
      let e := Store.get vs end_ in
      t <- Animation.eased_progress a ;;
      dc <- np.subtract (Vector._components e) (Vector._components s) ;;
      components <- np.add (Vector._components s) (np.scale t dc) ;;
      do_ <- np.subtract (Vector._origin e) (Vector._origin s) ;;
      origin <- np.add (Vector._origin s) (np.scale t do_) ;;
      Ok (components, origin)
  | _ => Raise (AttributeError "get_value")
  end.

End VectorAnimation.


(** ** GridTransformAnimation (animation/animator.py) *)

Module GridTransformAnimation.

(** The object keeps the Matrix and [np.eye(matrix.dim)]; the dimension of
    a Matrix is the number of rows of its data. *)
Definition __init__ (matrix : Matrix.t) (duration : R)
    (easing : option EasingFunc) : Animation.t :=
  Animation.__init__ (GridTransformAnimation (Matrix._data matrix))
    duration easing.

(** [identity + t * (matrix - identity)].  The method belongs to
    GridTransformAnimation objects only. *)
Definition get_value (a : Animation.t) : Result (list ndarray) :=
  match Animation.kind a with
  | GridTransformAnimation data =>
      let identity := np.eye (length data) in
      t <- Animation.eased_progress a ;;
      d <- np.subtract2 data identity ;;
      np.add2 identity (np.scale2 t d)
  | _ => Raise (AttributeError "get_value")
  end.

(** [get_grid_points(bounds, density)]: [density + 1] lines along each
    axis, each given by the images of its two end points. *)
Definition get_grid_points (a : Animation.t) (bounds : R * R * R * R)
    (density : Z) : Result (list (ndarray * ndarray)) :=
  let '(min_x, min_y, max_x, max_y) := bounds in
  matrix <- get_value a ;;
  vertical <-
    map_result
      (fun i =>
         q <- py_div (IZR i) (IZR density) ;;
         let x := min_x + q * (max_x - min_x) in
         p1 <- np.matvec matrix [x; min_y] ;;
         p2 <- np.matvec matrix [x; max_y] ;;
         Ok (p1, p2))
      (py_range (density + 1)) ;;
  horizontal <-
    map_result
      (fun i =>
         q <- py_div (IZR i) (IZR density) ;;
         let y := min_y + q * (max_y - min_y) in
         p1 <- np.matvec matrix [min_x; y] ;;
         p2 <- np.matvec matrix [max_x; y] ;;
         Ok (p1, p2))
      (py_range (density + 1)) ;;
  Ok (vertical ++ horizontal).

(** [get_grid_points_3d(bounds, density)]: the same lattice in the plane
    [y = 0]. *)
Definition get_grid_points_3d (a : Animation.t)
    (bounds : R * R * R * R * R * R) (density : Z)
    : Result (list (ndarray * ndarray)) :=
  let '(min_x, min_y, min_z, max_x, max_y, max_z) := bounds in
  matrix <- get_value a ;;
  along_z <-
    map_result
      (fun i =>
         q <- py_div (IZR i) (IZR density) ;;
         let x := min_x + q * (max_x - min_x) in
         p1 <- np.matvec matrix [x; 0; min_z] ;;
         p2 <- np.matvec matrix [x; 0; max_z] ;;
         Ok (p1, p2))
      (py_range (density + 1)) ;;
  along_x <-
    map_result
      (fun i =>
         q <- py_div (IZR i) (IZR density) ;;
         let z := min_z + q * (max_z - min_z) in
         p1 <- np.matvec matrix [min_x; 0; z] ;;
         p2 <- np.matvec matrix [max_x; 0; z] ;;
         Ok (p1, p2))
      (py_range (density + 1)) ;;
  Ok (along_z ++ along_x).

End GridTransformAnimation.

(** ** Timeline (animation/timeline.py) *)

Module Timeline.

(** [_animations] is a dict from start time to the list of animations
    starting then; it is kept as an association list in insertion order,
    which is the order Python iterates it in.  Keys are compared as
    floats are, by numeric equality. *)
Definition Buckets : Type := list (R * list ref).

Record t : Type := mk {
  _animations : Buckets;
  _current_time : R;
  _is_playing : bool;
  _is_finished : bool
}.

Definition __init__ : t := mk [] 0 false false.

Definition set_animations (d : Buckets) (tl : t) : t :=
  mk d (_current_time tl) (_is_playing tl) (_is_finished tl).
Definition set_current_time (c : R) (tl : t) : t :=
  mk (_animations tl) c (_is_playing tl) (_is_finished tl).
Definition set_is_playing (b : bool) (tl : t) : t :=
  mk (_animations tl) (_current_time tl) b (_is_finished tl).
Definition set_is_finished (b : bool) (tl : t) : t :=
  mk (_animations tl) (_current_time tl) (_is_playing tl) b.

(** [time in d] *)
Definition dict_contains (d : Buckets) (time : R) : bool :=
  existsb (fun b => Reqb (fst b) time) d.

(** [d[time].append(animation)] for a key that is present *)
Fixpoint dict_append (d : Buckets) (time : R) (animation : ref) : Buckets :=
  match d with
  | [] => []
  | (k, anims) :: rest =>
      if Reqb k time then (k, anims ++ [animation]) :: rest
      else (k, anims) :: dict_append rest time animation
  end.

Definition _add_at (time : R) (animation : ref) (tl : t) : t :=
  let d := _animations tl in
  let d1 := if negb (dict_contains d time) then d ++ [(time, [])] else d in
  set_animations (dict_append d1 time animation) tl.

(** [max(a.duration for a in anims)] then [max(t + ... for t, anims in
    items())]; the builtin raises on an empty sequence. *)
Fixpoint bucket_ends (d : Buckets) (anims : Store Animation.t)
    : Result (list R) :=
  match d with
  | [] => Ok []
  | (k, rs) :: rest =>
      m <- py_max_list
             (map (fun r => Animation.duration (Store.get anims r)) rs) ;;
      ends <- bucket_ends rest anims ;;
      Ok ((k + m) :: ends)
  end.

Definition duration (tl : t) (anims : Store Animation.t) : Result R :=
  match _animations tl with
  | [] => Ok 0
  | _ :: _ => ends <- bucket_ends (_animations tl) anims ;; py_max_list ends
  end.

Definition is_playing (tl : t) : bool := _is_playing tl.
Definition is_finished (tl : t) : bool := _is_finished tl.

Definition play (tl : t) : t :=
  set_is_finished false (set_is_playing true tl).

Definition pause (tl : t) : t := set_is_playing false tl.

Definition get_all_animations (tl : t) : list ref :=
  flat_map snd (_animations tl).

Definition stop (tl : t) (anims : Store Animation.t)
    : t * Store Animation.t :=
  let tl1 := set_is_finished false
               (set_current_time 0 (set_is_playing false tl)) in
  (tl1,
   fold_left
     (fun st bucket =>
        fold_left (fun st' anim => Store.modify st' anim Animation.reset)
                  (snd bucket) st)
     (_animations tl1) anims).

(** The body of the inner loop of [update] for one animation. *)
Definition update_one (current_time start_time dt : R)
    (st : Store Animation.t * bool) (anim : ref)
    : Store Animation.t * bool :=
  let '(anims, all_finished) := st in
  let anims1 :=
    if Rgeb current_time start_time
       && negb (Animation.is_finished (Store.get anims anim))
    then Store.modify anims anim (fun a => Animation.update a dt)
    else anims in
  let all_finished1 :=
    if negb (Animation.is_finished (Store.get anims1 anim)) then false
    else all_finished in
  (anims1, all_finished1).

Definition update_all (current_time dt : R) (d : Buckets)
    (st : Store Animation.t * bool) : Store Animation.t * bool :=
  fold_left
    (fun st' bucket =>
       fold_left (update_one current_time (fst bucket) dt) (snd bucket) st')
    d st.

Definition update (tl : t) (dt : R) (anims : Store Animation.t)
    : Result (t * Store Animation.t) :=
  if negb (_is_playing tl) || _is_finished tl then Ok (tl, anims)
  else
    let tl1 := set_current_time (_current_time tl + dt) tl in
    let '(anims1, all_finished) :=
      update_all (_current_time tl1) dt (_animations tl1) (anims, true) in
    if all_finished
    then
      total <- duration tl1 anims1 ;;
      if Rgeb (_current_time tl1) total
      then Ok (set_is_playing false (set_is_finished true tl1), anims1)
      else Ok (tl1, anims1)
    else Ok (tl1, anims1).

Definition get_active_animations (tl : t) (anims : Store Animation.t)
    : list ref :=
  flat_map
    (fun bucket =>
       filter
         (fun a => Rgeb (_current_time tl) (fst bucket)
                   && negb (Animation.is_finished (Store.get anims a)))
         (snd bucket))
    (_animations tl).

End Timeline.

(** [TimelinePoint.add(obj)]: the object handed over is a Vector or an
    Animation. *)
Inductive Schedulable : Type :=
| VectorObject (v : ref)
| AnimationObject (a : ref).

Module TimelinePoint.

Record t : Type := mk {
  _timeline : Timeline.t;
  _time : R
}.

(** [timeline.at(time)] *)
Definition at_ (tl : Timeline.t) (time : R) : t := mk tl time.

Definition add (p : t) (obj : Schedulable) (vs : Store Vector.t)
    : Timeline.t :=
  match obj with
  | VectorObject v =>
      match Vector._pending_animation (Store.get vs v) with
      | Some a => Timeline._add_at (_time p) a (_timeline p)
      | None => _timeline p
      end
  | AnimationObject a => Timeline._add_at (_time p) a (_timeline p)
  end.

End TimelinePoint.

(** ** Scene (scene/scene.py)

    The playback controller.  The camera, grid, renderer and window handles
    of a Scene are rendering collaborators that none of the methods below
    reads; they are left out of the record. *)

Module Scene.

Record t : Type := mk {
  _dim : nat;
  _objects : list ref;               (* Vectors *)
  _animations : list ref;            (* live Animations *)
  _original_animations : list ref;
  _timeline : Timeline.t;
  _paused : bool;
  _step_size : R
}.

Definition set_objects (l : list ref) (s : t) : t :=
  mk (_dim s) l (_animations s) (_original_animations s)
     (_timeline s) (_paused s) (_step_size s).
Definition set_animations (l : list ref) (s : t) : t :=
  mk (_dim s) (_objects s) l (_original_animations s)
     (_timeline s) (_paused s) (_step_size s).
Definition set_original_animations (l : list ref) (s : t) : t :=
  mk (_dim s) (_objects s) (_animations s) l
     (_timeline s) (_paused s) (_step_size s).
Definition set_timeline (tl : Timeline.t) (s : t) : t :=
  mk (_dim s) (_objects s) (_animations s) (_original_animations s)
     tl (_paused s) (_step_size s).
Definition set_paused (b : bool) (s : t) : t :=
  mk (_dim s) (_objects s) (_animations s) (_original_animations s)
     (_timeline s) b (_step_size s).

Definition __init__ (dim : nat) : Result t :=
  if negb (Nat.eqb dim 2 || Nat.eqb dim 3)
  then Raise (ValueError "Dimension must be 2 or 3")
  else Ok (mk dim [] [] [] Timeline.__init__ false (5 / 100)).

(** [obj in objects] on a list of Vectors: each item in turn, identity
    first and then [item == obj] with the stored item on the left,
    stopping at the first hit; an exception raised by the comparison
    propagates. *)
Fixpoint contains (objects : list ref) (obj : ref) (vs : Store Vector.t)
    : Result bool :=
  match objects with
  | [] => Ok false
  | item :: rest =>
      if Nat.eqb item obj then Ok true
      else
        same <- Vector.__eq__ item obj vs ;;
        if same then Ok true else contains rest obj vs
  end.

(** The body of the loop of [add] for one object; [self] is the address
    of the scene, stored in the back-pointer of the Vector. *)
Definition add_one (self : ref) (st : t * Store Vector.t) (obj : ref)
    : Result (t * Store Vector.t) :=
  let '(s, vs) := st in
  found <- contains (_objects s) obj vs ;;
  if negb found
  then Ok (set_objects (_objects s ++ [obj]) s,
           Store.modify vs obj (Vector.set_scene (Some self)))
  else Ok (s, vs).

Fixpoint add (self : ref) (s : t) (objects : list ref) (vs : Store Vector.t)
    : Result (t * Store Vector.t) :=
  match objects with
  | [] => Ok (s, vs)
  | obj :: rest =>
      '(s1, vs1) <- add_one self (s, vs) obj ;;
      add self s1 rest vs1
  end.

(** [anim in animations] on a list of Animations, which compare by
    identity. *)
Definition contains_animation (l : list ref) (anim : ref) : bool :=
  existsb (Nat.eqb anim) l.

(** [animations.remove(anim)]: drops the first occurrence, raises when
    there is none. *)
Fixpoint list_remove (l : list ref) (anim : ref) : Result (list ref) :=
  match l with
  | [] => Raise (ValueError "list.remove(x): x not in list")
  | x :: rest =>
      if Nat.eqb x anim then Ok rest
      else rest' <- list_remove rest anim ;; Ok (x :: rest')
  end.

Fixpoint remove_each (l finished : list ref) : Result (list ref) :=
  match finished with
  | [] => Ok l
  | anim :: rest => l1 <- list_remove l anim ;; remove_each l1 rest
  end.

(** [objects.remove(obj)] on a list of Vectors: drops the first item that
    is [obj] or equal to it. *)
Fixpoint remove_object (objects : list ref) (obj : ref) (vs : Store Vector.t)
    : Result (list ref) :=
  match objects with
  | [] => Raise (ValueError "list.remove(x): x not in list")
  | item :: rest =>
      if Nat.eqb item obj then Ok rest
      else
        same <- Vector.__eq__ item obj vs ;;
        if same then Ok rest
        else rest' <- remove_object rest obj vs ;; Ok (item :: rest')
  end.

Definition remove (s : t) (obj : ref) (vs : Store Vector.t)
    : Result (t * Store Vector.t) :=
  found <- contains (_objects s) obj vs ;;
  if found
  then
    objects <- remove_object (_objects s) obj vs ;;
    Ok (set_objects objects s, Store.modify vs obj (Vector.set_scene None))
  else Ok (s, vs).

Definition clear (s : t) (vs : Store Vector.t) : t * Store Vector.t :=
  (set_animations [] (set_objects [] s),
   fold_left (fun st obj => Store.modify st obj (Vector.set_scene None))
             (_objects s) vs).

Definition _add_animation (s : t) (animation : ref) : t :=
  set_original_animations (_original_animations s ++ [animation])
    (set_animations (_animations s ++ [animation]) s).

(** The two loops shared by [_replay] and [_step_backward]: reset the
    live animations, then reset and re-admit every original animation
    that is no longer live. *)
Definition readmit (s : t) (anims : Store Animation.t)
    : t * Store Animation.t :=
  let anims1 :=
    fold_left (fun st anim => Store.modify st anim Animation.reset)
              (_animations s) anims in
  fold_left
    (fun '(s', st) anim =>
       if negb (contains_animation (_animations s') anim)
       then (set_animations (_animations s' ++ [anim]) s',
             Store.modify st anim Animation.reset)
       else (s', st))
    (_original_animations s) (s, anims1).

Definition _replay (s : t) (anims : Store Animation.t)
    : t * Store Animation.t :=
  let '(s1, anims1) := readmit s anims in
  let '(tl, anims2) := Timeline.stop (_timeline s1) anims1 in
  (set_paused false (set_timeline (Timeline.play tl) s1), anims2).

Definition _step (s : t) (dt : R) (anims : Store Animation.t)
    : Result (t * Store Animation.t) :=
  '(tl, anims1) <- Timeline.update (_timeline s) dt anims ;;
  Ok (set_timeline tl s,
      fold_left
        (fun st anim => Store.modify st anim (fun a => Animation.update a dt))
        (_animations s) anims1).

Definition _get_total_progress (s : t) (anims : Store Animation.t) : R :=
  match _animations s with
  | a :: _ => Animation._elapsed (Store.get anims a)
  | [] => Timeline._current_time (_timeline s)
  end.

Definition _step_backward (s : t) (anims : Store Animation.t)
    : Result (t * Store Animation.t) :=
  let current_progress := _get_total_progress s anims in
  let target_progress := py_max 0 (current_progress - _step_size s) in
  let '(s1, anims1) := readmit s anims in
  let '(tl, anims2) := Timeline.stop (_timeline s1) anims1 in
  let s2 := set_timeline tl s1 in
  '(s3, anims3) <-
     (if Rgtb target_progress 0 then _step s2 target_progress anims2
      else Ok (s2, anims2)) ;;
  Ok (set_paused true s3, anims3).

(** The body of the loop of [_update] for one live animation. *)
Definition tick_one (dt : R) (st : Store Animation.t * list ref)
    (anim : ref) : Store Animation.t * list ref :=
  let '(anims, finished) := st in
  let anims1 := Store.modify anims anim (fun a => Animation.update a dt) in
  if Animation.is_finished (Store.get anims1 anim)
  then (anims1, finished ++ [anim])
  else (anims1, finished).

Definition _update (s : t) (dt : R) (anims : Store Animation.t)
    : Result (t * Store Animation.t) :=
  if _paused s then Ok (s, anims)
  else
    '(tl, anims1) <- Timeline.update (_timeline s) dt anims ;;
    let '(anims2, finished) :=
      fold_left (tick_one dt) (_animations s) (anims1, []) in
    live <- remove_each (_animations s) finished ;;
    Ok (set_animations live (set_timeline tl s), anims2).

(** [play()] starts the timeline and enters the frame loop, whose ticks
    are calls of [_update]. *)
Definition play (s : t) : t := set_timeline (Timeline.play (_timeline s)) s.

(** The keys of [_handle_events] that act on the playback state. *)
Inductive Key : Type := K_r | K_SPACE | K_RIGHT | K_LEFT.

(** The [KEYDOWN] branch of [_handle_events] for these keys.  The other
    branches (quit, camera reset, resize, mouse) only touch the window and
    the camera. *)
Definition key_down (s : t) (key : Key) (anims : Store Animation.t)
    : Result (t * Store Animation.t) :=
  match key with
  | K_r => Ok (_replay s anims)
  | K_SPACE => Ok (set_paused (negb (_paused s)) s, anims)
  | K_RIGHT => let s1 := set_paused true s in _step s1 (_step_size s1) anims
  | K_LEFT => _step_backward s anims
  end.

End Scene.

(** ** Camera2D (scene/camera.py) *)

Module Camera2D.

Record t : Type := mk {
  _width : Z;
  _height : Z;
  _position : R * R;
  _zoom : R;
  _rotation : R
}.

Definition __init__ (width height : Z) : t := mk width height (0, 0) 50 0.

Definition position (c : t) : R * R := _position c.
Definition zoom (c : t) : R := _zoom c.
Definition rotation (c : t) : R := _rotation c.

Definition resize (c : t) (width height : Z) : t :=
  mk width height (_position c) (_zoom c) (_rotation c).

Definition pan (c : t) (dx dy : R) : Result t :=
  px <- py_div dx (_zoom c) ;;
  py <- py_div dy (_zoom c) ;;
  Ok (mk (_width c) (_height c)
         (fst (_position c) - px, snd (_position c) + py)
         (_zoom c) (_rotation c)).

Definition rotate (c : t) (angle : R) : t :=
  mk (_width c) (_height c) (_position c) (_zoom c) (_rotation c + angle).

Definition reset (c : t) : t := mk (_width c) (_height c) (0, 0) 50 0.

Definition world_to_screen (c : t) (x y : R) : R * R :=
  let '(x, y) :=
    if negb (Reqb (_rotation c) 0)
    then
      let co := cos (- _rotation c) in
      let s := sin (- _rotation c) in
      (x * co - y * s, x * s + y * co)
    else (x, y) in
  let screen_x := (x - fst (_position c)) * _zoom c + IZR (_width c) / 2 in
  let screen_y :=
    - (y - snd (_position c)) * _zoom c + IZR (_height c) / 2 in
  (screen_x, screen_y).

Definition screen_to_world (c : t) (screen_x screen_y : R) : Result (R * R) :=
  qx <- py_div (screen_x - IZR (_width c) / 2) (_zoom c) ;;
  let x := qx + fst (_position c) in
  qy <- py_div (- (screen_y - IZR (_height c) / 2)) (_zoom c) ;;
  let y := qy + snd (_position c) in
  if negb (Reqb (_rotation c) 0)
  then
    let co := cos (_rotation c) in
    let s := sin (_rotation c) in
    Ok (x * co - y * s, x * s + y * co)
  else Ok (x, y).

(** [zoom_by(factor, center)]: the zoom is clamped to [5, 500]; with a
    center, the position is moved so that the world point under it stays
    there.  The last two quotients are taken on numpy floats, whose
    division does not raise. *)
Definition zoom_by (c : t) (factor : R) (center : option (R * R)) : Result t :=
  let old_zoom := _zoom c in
  let zoom := py_max 5 (py_min 500 (_zoom c * factor)) in
  match center with
  | None => Ok (mk (_width c) (_height c) (_position c) zoom (_rotation c))
  | Some (cx, cy) =>
      let '(px, py) := _position c in
      qx <- py_div (cx - IZR (_width c) / 2) old_zoom ;;
      let world_x := qx + px in
      qy <- py_div (- (cy - IZR (_height c) / 2)) old_zoom ;;
      let world_y := qy + py in
      let new_screen_x := (world_x - px) * zoom + IZR (_width c) / 2 in
      let new_screen_y := - (world_y - py) * zoom + IZR (_height c) / 2 in
      Ok (mk (_width c) (_height c)
             (px + (new_screen_x - cx) / zoom, py - (new_screen_y - cy) / zoom)
             zoom (_rotation c))
  end.

Definition get_view_bounds (c : t) : Result (R * R * R * R) :=
  half_w <- py_div (IZR (_width c) / 2) (_zoom c) ;;
  half_h <- py_div (IZR (_height c) / 2) (_zoom c) ;;
  Ok (fst (_position c) - half_w, snd (_position c) - half_h,
      fst (_position c) + half_w, snd (_position c) + half_h).

End Camera2D.


(** ** Camera3D (scene/camera.py) *)

Module Camera3D.

Record t : Type := mk {
  _width : Z;
  _height : Z;
  _target : R * R * R;
  _distance : R;
  _theta : R;
  _phi : R;
  _fov : R;
  _near : R;
  _far : R
}.

Definition __init__ (width height : Z) : t :=
  mk width height (0, 0, 0) 10 (PI / 4) (PI / 6) 45 0.1 1000.

Definition position (c : t) : R * R * R :=
  let '(tx, ty, tz) := _target c in
  (tx + _distance c * cos (_phi c) * cos (_theta c),
   ty + _distance c * sin (_phi c),
   tz + _distance c * cos (_phi c) * sin (_theta c)).

Definition target (c : t) : R * R * R := _target c.

Definition resize (c : t) (width height : Z) : t :=
  mk width height (_target c) (_distance c) (_theta c) (_phi c)
     (_fov c) (_near c) (_far c).

Definition orbit (c : t) (d_theta d_phi : R) : t :=
  mk (_width c) (_height c) (_target c) (_distance c)
     (_theta c + d_theta)
     (py_max (- PI / 2 + 0.01) (py_min (PI / 2 - 0.01) (_phi c + d_phi)))
     (_fov c) (_near c) (_far c).

Definition pan (c : t) (dx dy : R) : t :=
  let right := (cos (_theta c + PI / 2), 0, sin (_theta c + PI / 2)) in
  let up := (0, 1, 0) in
  let scale := _distance c * 0.005 in
  let '(rx, ry, rz) := right in
  let '(ux, uy, uz) := up in
  let '(tx, ty, tz) := _target c in
  mk (_width c) (_height c)
     (tx + (- rx * dx * scale + ux * dy * scale),
      ty + (- ry * dx * scale + uy * dy * scale),
      tz + (- rz * dx * scale + uz * dy * scale))
     (_distance c) (_theta c) (_phi c) (_fov c) (_near c) (_far c).

Definition zoom_by (c : t) (factor : R) : t :=
  mk (_width c) (_height c) (_target c)
     (py_max 1 (py_min 100 (_distance c * factor)))
     (_theta c) (_phi c) (_fov c) (_near c) (_far c).

Definition reset (c : t) : t :=
  mk (_width c) (_height c) (0, 0, 0) 10 (PI / 4) (PI / 6)
     (_fov c) (_near c) (_far c).

End Camera3D.

(** ** Binary64 arithmetic

    Single expressions of the sources on binary64 numbers, with the
    operations of the processor.  They are evaluated where a rounded
    result differs from the exact one. *)

Module Binary64.

Local Open Scope float_scope.

(** One coordinate of [start + t * (end - start)]
    (VectorAnimation.get_value, GridTransformAnimation.get_value). *)
Definition lerp (t s e : float) : float := s + t * (e - s).

(** [self._elapsed += dt], twice (Animation.update). *)
Definition elapsed_after (elapsed dt1 dt2 : float) : float :=
  elapsed + dt1 + dt2.

(** [x * x / n] with [n = x * x + y * y] (Matrix.projection). *)
Definition projection_entry (x y : float) : float := x * x / (x * x + y * y).

End Binary64.

(** * Vocabulary of the statements *)

(** A number at zero, or of a magnitude within [1e-150, 1e150]: the
    products, sums and square roots that the methods form of such
    numbers neither overflow nor underflow in binary64. *)
Definition moderate (x : R) : Prop :=
  x = 0 \/ 1e-150 <= Rabs x <= 1e150.

(** A Vector whose components and origin are all moderate. *)
Definition moderate_vector (v : Vector.t) : Prop :=
  Forall moderate (Vector._components v) /\
  Forall moderate (Vector._origin v).

(** [start + t * (end - start)] on two arrays of one shape, as
    [get_value] forms it. *)
Definition lerp (t : R) (a b : ndarray) : ndarray :=
  np.zip_with Rplus a (np.scale t (np.zip_with Rminus b a)).


(** A Vector of dimension [n]: [n] components and an origin of [n]
    coordinates. *)
Definition has_dimension (n : nat) (v : Vector.t) : Prop :=
  Vector._dim v = n /\
  length (Vector._components v) = n /\
  length (Vector._origin v) = n.

(** What the constructor establishes and no method changes: the recorded
    dimension is the number of components, and it is 2 or 3. *)
Definition is_valid (v : Vector.t) : Prop :=
  length (Vector._components v) = Vector._dim v /\
  Vector.valid_arity (Vector._dim v) = true.

(** The (start time, animation) pairs of a schedule, in the order the
    loops of [Timeline] visit them. *)
Definition entries (d : Timeline.Buckets) : list (R * ref) :=
  flat_map (fun bucket => map (pair (fst bucket)) (snd bucket)) d.

(** Every bucket holds an animation, as after any run of [_add_at]. *)
Definition nonempty_buckets (d : Timeline.Buckets) : Prop :=
  Forall (fun bucket => snd bucket <> []) d.

(** [at(time).add(animation)] for each entry in turn. *)
Definition schedule (es : list (R * ref)) (tl : Timeline.t) : Timeline.t :=
  fold_left (fun tl' e => Timeline._add_at (fst e) (snd e) tl') es tl.

(** A run of [update(dt)] calls. *)
Fixpoint updates (tl : Timeline.t) (dts : list R) (anims : Store Animation.t)
    : Result (Timeline.t * Store Animation.t) :=
  match dts with
  | [] => Ok (tl, anims)
  | dt :: rest =>
      '(tl1, anims1) <- Timeline.update tl dt anims ;;
      updates tl1 rest anims1
  end.

(** What a caller sees of [get_active_animations()]: the animations
    returned, each with its state at that moment. *)
Definition active_snapshot (tl : Timeline.t) (anims : Store Animation.t)
    : list (ref * Animation.t) :=
  map (fun a => (a, Store.get anims a))
      (Timeline.get_active_animations tl anims).

(** The results of [get_active_animations()] after each call of a run of
    [update(dt)] calls. *)
Fixpoint active_trace (tl : Timeline.t) (dts : list R)
    (anims : Store Animation.t) : Result (list (list (ref * Animation.t))) :=
  match dts with
  | [] => Ok []
  | dt :: rest =>
      '(tl1, anims1) <- Timeline.update tl dt anims ;;
      tr <- active_trace tl1 rest anims1 ;;
      Ok (active_snapshot tl1 anims1 :: tr)
  end.

(** Two stores that hold the same state at every address of a list. *)
Definition agree_on {A : Type} (rs : list ref) (s1 s2 : Store A) : Prop :=
  forall r : ref, In r rs -> Store.get s1 r = Store.get s2 r.

(** One list inside another, order kept. *)
Inductive Subsequence : list ref -> list ref -> Prop :=
| Subsequence_nil : forall l, Subsequence [] l
| Subsequence_skip : forall sub x l,
    Subsequence sub l -> Subsequence sub (x :: l)
| Subsequence_take : forall sub x l,
    Subsequence sub l -> Subsequence (x :: sub) (x :: l).

(** One pass of the two nested loops, over the flattened schedule. *)
Definition update_entries (current_time dt : R) (es : list (R * ref))
    (st : Store Animation.t * bool) : Store Animation.t * bool :=
  fold_left (fun st' e => Timeline.update_one current_time (fst e) dt st' (snd e))
            es st.

(** The store [update] leaves behind, and the playhead it moves to. *)
Definition update_store (tl : Timeline.t) (dt : R) (anims : Store Animation.t)
    : Store Animation.t :=
  if negb (Timeline._is_playing tl) || Timeline._is_finished tl then anims
  else fst (update_entries (Timeline._current_time tl + dt) dt
              (entries (Timeline._animations tl)) (anims, true)).

Definition update_time (tl : Timeline.t) (dt : R) : R :=
  if negb (Timeline._is_playing tl) || Timeline._is_finished tl
  then Timeline._current_time tl
  else Timeline._current_time tl + dt.

(** ** Vocabulary of the further properties *)

(** A call of one of the two mutating methods of an Animation. *)
Inductive AnimationCall : Type :=
| CallUpdate (dt : R)
| CallReset.

Definition call (a : Animation.t) (c : AnimationCall) : Animation.t :=
  match c with
  | CallUpdate dt => Animation.update a dt
  | CallReset => Animation.reset a
  end.

(** The time deltas of a run are not negative. *)
Definition forward (c : AnimationCall) : Prop :=
  match c with
  | CallUpdate dt => 0 <= dt
  | CallReset => True
  end.

(** The easing functions of the family, all of them. *)
Definition easing_family : list EasingFunc :=
  [Easing.linear; Easing.ease_in_quad; Easing.ease_out_quad;
   Easing.ease_in_out_quad; Easing.ease_in_cubic; Easing.ease_out_cubic;
   Easing.ease_in_out_cubic; Easing.ease_in_sine; Easing.ease_out_sine;
   Easing.ease_out_elastic; Easing.ease_out_bounce].

(** The family without [ease_out_elastic]. *)
Definition easing_family_without_overshoot : list EasingFunc :=
  [Easing.linear; Easing.ease_in_quad; Easing.ease_out_quad;
   Easing.ease_in_out_quad; Easing.ease_in_cubic; Easing.ease_out_cubic;
   Easing.ease_in_out_cubic; Easing.ease_in_sine; Easing.ease_out_sine;
   Easing.ease_out_bounce].

(** The family without [ease_in_sine], whose value at 1 is
    [1 - cos(pi / 2)] on the binary64 number nearest to [pi / 2]. *)
Definition easing_family_ending_exactly : list EasingFunc :=
  [Easing.linear; Easing.ease_in_quad; Easing.ease_out_quad;
   Easing.ease_in_out_quad; Easing.ease_in_cubic; Easing.ease_out_cubic;
   Easing.ease_in_out_cubic; Easing.ease_out_sine;
   Easing.ease_out_elastic; Easing.ease_out_bounce].

(** The data of a 2x2 or 3x3 matrix. *)
Inductive SquareData : list ndarray -> Prop :=
| Square2 : forall a b c d : R, SquareData [[a; b]; [c; d]]
| Square3 : forall a b c d e f g h i : R,
    SquareData [[a; b; c]; [d; e; f]; [g; h; i]].

(** An address that [alloc] has handed out. *)
Definition allocated {A : Type} (s : Store A) (r : ref) : Prop :=
  (r < next s)%nat.

(** The origin that the constructor stores for an [origin] argument. *)
Definition stored_origin (origin : option (list R)) (dim : nat) : ndarray :=
  match origin with
  | Some (x :: xs) => x :: xs
  | _ => np.zeros dim
  end.

(** The state of a vector that a derived vector keeps as its previous
    state: a copy made by [copy], which carries components, origin and
    color and nothing else. *)
Definition copy_of (v : Vector.t) : Vector.t :=
  Vector.mk (Vector._components v) (length (Vector._components v))
    (stored_origin (Some (Vector._origin v)) (length (Vector._components v)))
    (Vector._color v) None None None.

(** The state of the vector that [scale], [add], [subtract] and
    [project_onto] build from [self] with the new components [c] and the
    copy at address [p]. *)
Definition derived_from (v : Vector.t) (c : ndarray) (p : ref) : Vector.t :=
  Vector.mk c (length c) (stored_origin (Some (Vector._origin v)) (length c))
    (Vector._color v) None (Some p) (Vector._scene v).

(** [op] builds, from the vector at [self], a new vector with components
    [c] at the next free address, keeps a fresh copy of [self] as its
    previous state, and changes no vector that existed before. *)
Definition derives (op : Store Vector.t -> Result (ref * Store Vector.t))
    (vs : Store Vector.t) (self : ref) (c : ndarray) : Prop :=
  exists vs' : Store Vector.t,
    op vs = Ok (next vs, vs') /\
    Store.get vs' (next vs)
    = derived_from (Store.get vs self) c (S (next vs)) /\
    Store.get vs' (S (next vs)) = copy_of (Store.get vs self) /\
    forall r : ref, allocated vs r -> Store.get vs' r = Store.get vs r.

(** The product [a @ v] of a matrix and a vector of matching shapes. *)
Definition apply_matrix (a : list ndarray) (v : ndarray) : ndarray :=
  map (fun row => np.sum (np.zip_with Rmult row v)) a.

(** The parts of a scene that playback never changes. *)
Definition same_setup (s s' : Scene.t) : Prop :=
  Scene._dim s' = Scene._dim s /\
  Scene._objects s' = Scene._objects s /\
  Scene._original_animations s' = Scene._original_animations s /\
  Scene._step_size s' = Scene._step_size s.

(** [added] lists, once each, the original animations of [s] that are
    not live in it. *)
Definition missing_originals (s : Scene.t) (added : list ref) : Prop :=
  NoDup added /\
  forall r : ref,
    In r added <->
    In r (Scene._original_animations s) /\ ~ In r (Scene._animations s).

(** A call of one of the mutating methods of a Camera2D. *)
Inductive Camera2DCall : Type :=
| Resize2D (width height : Z)
| Pan2D (dx dy : R)
| ZoomBy2D (factor : R) (center : option (R * R))
| Rotate2D (angle : R)
| Reset2D.

Definition call2d (c : Camera2D.t) (k : Camera2DCall) : Result Camera2D.t :=
  match k with
  | Resize2D width height => Ok (Camera2D.resize c width height)
  | Pan2D dx dy => Camera2D.pan c dx dy
  | ZoomBy2D factor center => Camera2D.zoom_by c factor center
  | Rotate2D angle => Ok (Camera2D.rotate c angle)
  | Reset2D => Ok (Camera2D.reset c)
  end.

Fixpoint calls2d (c : Camera2D.t) (ks : list Camera2DCall)
    : Result Camera2D.t :=
  match ks with
  | [] => Ok c
  | k :: rest => c1 <- call2d c k ;; calls2d c1 rest
  end.

(** An integer that the division [width / 2] turns into a float: beyond
    the range of binary64 it raises OverflowError. *)
Definition int_fits (z : Z) : Prop := (Z.abs z < 2 ^ 1000)%Z.

(** The window sizes that a call sets fit. *)
Definition fits2d (k : Camera2DCall) : Prop :=
  match k with
  | Resize2D width height => int_fits width /\ int_fits height
  | _ => True
  end.

(** A call of one of the mutating methods of a Camera3D. *)
Inductive Camera3DCall : Type :=
| Resize3D (width height : Z)
| Orbit3D (d_theta d_phi : R)
| Pan3D (dx dy : R)
| ZoomBy3D (factor : R)
| Reset3D.

Definition call3d (c : Camera3D.t) (k : Camera3DCall) : Camera3D.t :=
  match k with
  | Resize3D width height => Camera3D.resize c width height
  | Orbit3D d_theta d_phi => Camera3D.orbit c d_theta d_phi
  | Pan3D dx dy => Camera3D.pan c dx dy
  | ZoomBy3D factor => Camera3D.zoom_by c factor
  | Reset3D => Camera3D.reset c
  end.

(** The square of the distance between two points. *)
Definition distance_squared (p q : R * R * R) : R :=
  let '(px, py, pz) := p in
  let '(qx, qy, qz) := q in
  (px - qx) * (px - qx) + (py - qy) * (py - qy) + (pz - qz) * (pz - qz).

(** * Scenarios

    Concrete stores, timelines and scenes on which the statements are
    exercised. *)

Module Scenario.

Definition blank : Animation.t := Animation.__init__ BaseAnimation 0 None.

(** A store holding one base animation of the given duration, at
    address 0. *)
Definition one_animation (duration : R) : Store Animation.t :=
  snd (Store.alloc (Store.empty blank)
         (Animation.__init__ BaseAnimation duration None)).

(** [tl = Timeline(); tl.at(2.0).add(anim); tl.play()] *)
Definition late_start : Timeline.t :=
  Timeline.play (Timeline._add_at 2 0%nat Timeline.__init__).

(** The same timeline at the end of a run, and the store it leaves: the
    animation has run its full second. *)
Definition late_start_done : Timeline.t :=
  Timeline.mk [(2, [0%nat])] 3 false true.

Definition one_animation_done : Store Animation.t :=
  Store.set (one_animation 1) 0%nat
    (Animation.mk 1 Easing.ease_in_out_cubic 1 true BaseAnimation).

(** [tl = Timeline(); tl.at(1.0).add(anim)] for an animation of duration
    2, at the end of a run: the playhead is at 3, the animation has run
    its two seconds. *)
Definition early_start_done : Timeline.t :=
  Timeline.mk [(1, [0%nat])] 3 false true.

Definition long_animation_done : Store Animation.t :=
  Store.set (one_animation 2) 0%nat
    (Animation.mk 2 Easing.ease_in_out_cubic 2 true BaseAnimation).

Definition empty_scene : Scene.t :=
  Scene.mk 2 [] [] [] Timeline.__init__ false (5 / 100).

(** A scene whose only live animation is address 0; nothing is
    scheduled on its timeline. *)
Definition live_only : Scene.t := Scene._add_animation empty_scene 0%nat.

(** A scene whose only live animation (address 0) is also scheduled at
    time 0 on the scene's own timeline, which is playing:
    [scene.timeline.at(0.0).add(anim); scene._add_animation(anim);
    scene.play()]. *)
Definition doubly_driven : Scene.t :=
  Scene.play
    (Scene._add_animation
       (Scene.set_timeline (Timeline._add_at 0 0%nat Timeline.__init__)
          empty_scene)
       0%nat).

(** A Vector as the constructor leaves it, origin at zero. *)
Definition vector (components : list R) : Vector.t :=
  Vector.mk components (length components) (np.zeros (length components))
    Vector.default_color None None None.

(** [w = Vector(0, 0)], [u = Vector(6e-9, 0)], [v = Vector(1.2e-8, 0)] at
    addresses 0, 1 and 2. *)
Definition near_duplicates : Store Vector.t :=
  mkStore
    (fun r =>
       match r with
       | 0%nat => vector [0; 0]
       | 1%nat => vector [6e-9; 0]
       | _ => vector [1.2e-8; 0]
       end)
    3%nat.

(** [Vector(1, 2)], [Vector(3, 4, origin=(1, 1))] and [Vector(1, 2, 3)]
    at addresses 0, 1 and 2. *)
Definition mixed_vectors : Store Vector.t :=
  mkStore
    (fun r =>
       match r with
       | 0%nat => vector [1; 2]
       | 1%nat => Vector.set_origin [1; 1] (vector [3; 4])
       | _ => vector [1; 2; 3]
       end)
    3%nat.


(** [Vector(1, 0, 0)], [Vector(0, 1, 0)] and [Vector(1, 2)] at addresses
    0, 1 and 2. *)
Definition spatial_vectors : Store Vector.t :=
  mkStore
    (fun r =>
       match r with
       | 0%nat => vector [1; 0; 0]
       | 1%nat => vector [0; 1; 0]
       | _ => vector [1; 2]
       end)
    3%nat.

End Scenario.

(** * Properties *)

(** ** Comparisons *)

Lemma Rgeb_true (x y : R) : x >= y -> Rgeb x y = true.
Proof. intros H. unfold Rgeb. destruct (Rge_dec x y); [reflexivity | lra]. Qed.

Lemma Rgeb_false (x y : R) : x < y -> Rgeb x y = false.
Proof. intros H. unfold Rgeb. destruct (Rge_dec x y); [lra | reflexivity]. Qed.

Lemma Rltb_true (x y : R) : x < y -> Rltb x y = true.
Proof. intros H. unfold Rltb. destruct (Rlt_dec x y); [reflexivity | lra]. Qed.

Lemma Rltb_false (x y : R) : x >= y -> Rltb x y = false.
Proof. intros H. unfold Rltb. destruct (Rlt_dec x y); [lra | reflexivity]. Qed.

Lemma Rleb_true (x y : R) : x <= y -> Rleb x y = true.
Proof. intros H. unfold Rleb. destruct (Rle_dec x y); [reflexivity | lra]. Qed.

Lemma Rleb_false (x y : R) : x > y -> Rleb x y = false.
Proof. intros H. unfold Rleb. destruct (Rle_dec x y); [lra | reflexivity]. Qed.

Lemma Rgtb_true (x y : R) : x > y -> Rgtb x y = true.
Proof. intros H. unfold Rgtb. destruct (Rgt_dec x y); [reflexivity | lra]. Qed.

Lemma Rgtb_false (x y : R) : x <= y -> Rgtb x y = false.
Proof. intros H. unfold Rgtb. destruct (Rgt_dec x y); [lra | reflexivity]. Qed.

Lemma Reqb_true (x y : R) : x = y -> Reqb x y = true.
Proof. intros H. unfold Reqb. destruct (Req_dec_T x y); [reflexivity | lra]. Qed.

Lemma Reqb_false (x y : R) : x <> y -> Reqb x y = false.
Proof.
  intros H. unfold Reqb. destruct (Req_dec_T x y); [contradiction | reflexivity].
Qed.

Lemma truthy_true (x : R) : x <> 0 -> truthy x = true.
Proof. intros H. unfold truthy. now rewrite Reqb_false. Qed.

Lemma truthy_false (x : R) : x = 0 -> truthy x = false.
Proof. intros H. unfold truthy. now rewrite Reqb_true. Qed.

Lemma py_div_nonzero (x y : R) : y <> 0 -> py_div x y = Ok (x / y).
Proof. intros H. unfold py_div. now rewrite Reqb_false. Qed.

Lemma py_min_Rmin (a b : R) : py_min a b = Rmin a b.
Proof.
  unfold py_min, Rltb, Rmin.
  destruct (Rlt_dec b a), (Rle_dec a b); lra.
Qed.

(** Decides every float comparison of the goal whose outcome linear
    arithmetic settles. *)
Ltac float_cmp :=
  repeat
    (first
       [ rewrite Rgeb_true by lra | rewrite Rgeb_false by lra
       | rewrite Rltb_true by lra | rewrite Rltb_false by lra
       | rewrite Rleb_true by lra | rewrite Rleb_false by lra
       | rewrite Rgtb_true by lra | rewrite Rgtb_false by lra
       | rewrite Reqb_true by lra | rewrite Reqb_false by lra ]);
  cbn [negb andb orb].

Ltac float_eval := repeat (progress (cbn; float_cmp)).

(** Settles an inequality between float literals, absolute values
    included. *)
Ltac float_arith :=
  first
    [ lra
    | unfold Rabs;
      repeat match goal with
             | |- context [Rcase_abs ?x] => destruct (Rcase_abs x)
             end;
      lra ].

Ltac float_cmp_abs :=
  repeat
    (first
       [ rewrite Rleb_true by float_arith
       | rewrite Rleb_false by float_arith ]);
  cbn [negb andb orb].

(** Settles that a float literal is moderate. *)
Ltac moderate_literal :=
  unfold moderate;
  first [ left; lra
        | right; unfold Rabs;
          match goal with
          | |- context [Rcase_abs ?x] => destruct (Rcase_abs x)
          end; lra ].

Ltac moderate_literals :=
  repeat first [ apply Forall_nil
               | apply Forall_cons; [moderate_literal |] ].

(** ** Stores *)

Lemma get_modify_same {A : Type} (s : Store A) (r : ref) (f : A -> A) :
  Store.get (Store.modify s r f) r = f (Store.get s r).
Proof. unfold Store.get, Store.modify, Store.set. cbn. now rewrite Nat.eqb_refl. Qed.

Lemma get_modify_other {A : Type} (s : Store A) (r r' : ref) (f : A -> A) :
  r' <> r -> Store.get (Store.modify s r f) r' = Store.get s r'.
Proof.
  intros H. unfold Store.get, Store.modify, Store.set. cbn.
  apply Nat.eqb_neq in H. now rewrite H.
Qed.

(** ** Easing *)

(** The default easing of an animation is anchored at both ends. *)
Lemma ease_in_out_cubic_anchored :
  Easing.ease_in_out_cubic 0 = 0 /\ Easing.ease_in_out_cubic 1 = 1.
Proof.
  unfold Easing.ease_in_out_cubic. split.
  - rewrite Rltb_true by lra. ring.
  - rewrite Rltb_false by lra. field.
Qed.

(** ** Animation *)

Lemma update_duration (a : Animation.t) (dt : R) :
  Animation._duration (Animation.update a dt) = Animation._duration a.
Proof.
  unfold Animation.update.
  destruct (Animation._finished a); [reflexivity |].
  cbn. destruct (Rgeb _ _); reflexivity.
Qed.

Lemma update_easing (a : Animation.t) (dt : R) :
  Animation._easing (Animation.update a dt) = Animation._easing a.
Proof.
  unfold Animation.update.
  destruct (Animation._finished a); [reflexivity |].
  cbn. destruct (Rgeb _ _); reflexivity.
Qed.

Lemma update_kind (a : Animation.t) (dt : R) :
  Animation.kind (Animation.update a dt) = Animation.kind a.
Proof.
  unfold Animation.update.
  destruct (Animation._finished a); [reflexivity |].
  cbn. destruct (Rgeb _ _); reflexivity.
Qed.

Lemma updates_duration (dts : list R) (a : Animation.t) :
  Animation._duration (fold_left Animation.update dts a)
  = Animation._duration a.
Proof.
  revert a. induction dts as [| dt dts IH]; intros a; cbn; [reflexivity |].
  now rewrite IH, update_duration.
Qed.

Lemma updates_easing (dts : list R) (a : Animation.t) :
  Animation._easing (fold_left Animation.update dts a) = Animation._easing a.
Proof.
  revert a. induction dts as [| dt dts IH]; intros a; cbn; [reflexivity |].
  now rewrite IH, update_easing.
Qed.

Lemma updates_kind (dts : list R) (a : Animation.t) :
  Animation.kind (fold_left Animation.update dts a) = Animation.kind a.
Proof.
  revert a. induction dts as [| dt dts IH]; intros a; cbn; [reflexivity |].
  now rewrite IH, update_kind.
Qed.

Lemma update_finished_noop (a : Animation.t) (dt : R) :
  Animation._finished a = true -> Animation.update a dt = a.
Proof. intros H. unfold Animation.update. now rewrite H. Qed.

(** What one [update] does to the elapsed time of an unfinished
    animation: the sum, cut off at the duration. *)
Lemma update_elapsed (a : Animation.t) (dt : R) :
  Animation._finished a = false ->
  Animation._elapsed (Animation.update a dt)
  = Rmin (Animation._elapsed a + dt) (Animation._duration a).
Proof.
  intros H. unfold Animation.update. rewrite H. cbn.
  unfold Rgeb, Rmin.
  destruct (Rge_dec _ _), (Rle_dec _ _); cbn; lra.
Qed.

Lemma progress_at_duration (a : Animation.t) :
  Animation._elapsed a = Animation._duration a ->
  Animation.progress a = Ok 1.
Proof.
  intros H. unfold Animation.progress.
  destruct (Req_dec_T (Animation._duration a) 0) as [Hz | Hnz].
  - now rewrite truthy_false.
  - rewrite truthy_true, py_div_nonzero by assumption. cbn.
    rewrite H, py_min_Rmin. unfold Rdiv. rewrite Rinv_r by assumption.
    now rewrite Rmin_left by lra.
Qed.

Lemma progress_at_zero (a : Animation.t) :
  Animation._elapsed a = 0 -> Animation._duration a > 0 ->
  Animation.progress a = Ok 0.
Proof.
  intros H Hd. unfold Animation.progress.
  rewrite truthy_true, py_div_nonzero by lra. cbn.
  rewrite H, py_min_Rmin. unfold Rdiv. rewrite Rmult_0_l.
  now rewrite Rmin_right by lra.
Qed.

(** C3: a fresh Animation of duration [d > 0] that receives a single
    [update(d)] has progress exactly 1 (and eased progress 1 for an easing
    anchored at both ends) and is finished; every further [update(dt)],
    whatever [dt], returns the animation unchanged, so elapsed time,
    progress and the finished flag stay as they are. *)
Theorem update_full_duration_then_noop
    (k : AnimationKind) (d : R) (f : EasingFunc) :
  d > 0 -> f 0 = 0 -> f 1 = 1 ->
  let a := Animation.update (Animation.__init__ k d (Some f)) d in
  Animation.progress a = Ok 1 /\
  Animation.eased_progress a = Ok 1 /\
  Animation.is_finished a = true /\
  forall dt : R,
    Animation.update a dt = a /\
    Animation._elapsed (Animation.update a dt) = Animation._elapsed a /\
    Animation.progress (Animation.update a dt) = Animation.progress a /\
    Animation.is_finished (Animation.update a dt) = Animation.is_finished a.
Proof.
  intros Hd _ H1 a.
  assert (Ha : a = Animation.mk d f d true k).
  { unfold a, Animation.update, Animation.__init__. cbn.
    rewrite Rgeb_true by lra. reflexivity. }
  clearbody a. subst a.
  assert (Hp : Animation.progress (Animation.mk d f d true k) = Ok 1).
  { now apply progress_at_duration. }
  assert (Hn : forall dt,
             Animation.update (Animation.mk d f d true k) dt
             = Animation.mk d f d true k).
  { intros dt. now apply update_finished_noop. }
  repeat split; try (now rewrite Hn).
  - exact Hp.
  - unfold Animation.eased_progress. rewrite Hp. cbn. now rewrite H1.
Qed.

Lemma update_full_duration_then_noop_witness :
  let a := Animation.update (Animation.__init__ BaseAnimation 2 None) 2 in
  Animation.progress a = Ok 1 /\
  Animation.eased_progress a = Ok 1 /\
  Animation.is_finished a = true /\
  forall dt : R,
    Animation.update a dt = a /\
    Animation._elapsed (Animation.update a dt) = Animation._elapsed a /\
    Animation.progress (Animation.update a dt) = Animation.progress a /\
    Animation.is_finished (Animation.update a dt) = Animation.is_finished a.
Proof.
  apply (update_full_duration_then_noop
           BaseAnimation 2 Easing.ease_in_out_cubic).
  - lra.
  - apply ease_in_out_cubic_anchored.
  - apply ease_in_out_cubic_anchored.
Defined.

(** C6: for an Animation with [0 <= elapsed <= duration], progress is
    [elapsed / duration] saturated at 1 when the duration is positive and
    exactly 1 when the duration is zero; in both cases the property returns
    a value, so the division by a zero duration is never carried out. *)
Theorem progress_saturates_and_never_divides_by_zero (a : Animation.t) :
  0 <= Animation._elapsed a <= Animation._duration a ->
  (Animation._duration a > 0 ->
     Animation.progress a
     = Ok (Rmin 1 (Animation._elapsed a / Animation._duration a))) /\
  (Animation._duration a = 0 -> Animation.progress a = Ok 1) /\
  Animation.progress a <> Raise ZeroDivisionError /\
  exists p : R, Animation.progress a = Ok p /\ 0 <= p <= 1.
Proof.
  intros [He Hd].
  assert (Hpos : Animation._duration a > 0 ->
                 Animation.progress a
                 = Ok (Rmin 1 (Animation._elapsed a / Animation._duration a))).
  { intros Hp. unfold Animation.progress.
    rewrite truthy_true, py_div_nonzero by lra. cbn.
    now rewrite py_min_Rmin. }
  assert (Hzero : Animation._duration a = 0 -> Animation.progress a = Ok 1).
  { intros Hz. unfold Animation.progress. now rewrite truthy_false. }
  assert (Hex : exists p : R, Animation.progress a = Ok p /\ 0 <= p <= 1).
  { destruct (Rle_lt_or_eq_dec 0 (Animation._duration a)) as [Hp | Hz];
      [lra | |].
    - exists (Rmin 1 (Animation._elapsed a / Animation._duration a)).
      split; [now apply Hpos |].
      assert (0 <= Animation._elapsed a / Animation._duration a).
      { apply Rmult_le_pos; [lra |].
        left. now apply Rinv_0_lt_compat. }
      split; [now apply Rmin_glb; lra | apply Rmin_l].
    - exists 1. split; [now apply Hzero | lra]. }
  repeat split; try assumption.
  destruct Hex as [p [Hp _]]. rewrite Hp. discriminate.
Qed.

Lemma progress_saturates_and_never_divides_by_zero_witness :
  let a := Animation.mk 4 Easing.linear 1 false BaseAnimation in
  (Animation._duration a > 0 ->
     Animation.progress a
     = Ok (Rmin 1 (Animation._elapsed a / Animation._duration a))) /\
  (Animation._duration a = 0 -> Animation.progress a = Ok 1) /\
  Animation.progress a <> Raise ZeroDivisionError /\
  exists p : R, Animation.progress a = Ok p /\ 0 <= p <= 1.
Proof.
  apply (progress_saturates_and_never_divides_by_zero
           (Animation.mk 4 Easing.linear 1 false BaseAnimation)).
  cbn. lra.
Defined.

(** ** numpy arrays *)

Lemma broadcast_same_shape (f : R -> R -> R) (a b : ndarray) :
  length a = length b -> np.broadcast f a b = Ok (np.zip_with f a b).
Proof.
  intros H. unfold np.broadcast. now rewrite H, Nat.eqb_refl.
Qed.

Lemma zip_with_length (f : R -> R -> R) (a b : ndarray) :
  length a = length b -> length (np.zip_with f a b) = length a.
Proof.
  revert b. induction a as [| x a IH]; intros [| y b] H; cbn in *;
    try discriminate; [reflexivity |].
  f_equal. apply IH. now injection H.
Qed.

Lemma lerp_at_0 (a b : ndarray) :
  length a = length b ->
  np.zip_with Rplus a (np.scale 0 (np.zip_with Rminus b a)) = a.
Proof.
  revert b. induction a as [| x a IH]; intros [| y b] H; cbn in *;
    try discriminate; [reflexivity |].
  f_equal; [lra |]. apply IH. now injection H.
Qed.


(** [start + t * (end - start)] on two arrays of one shape. *)
Lemma lerp_same_shape (t : R) (a b : ndarray) :
  length a = length b ->
  (d <- np.subtract b a ;; np.add a (np.scale t d))
  = Ok (np.zip_with Rplus a (np.scale t (np.zip_with Rminus b a))).
Proof.
  intros H. unfold np.subtract, np.add.
  rewrite broadcast_same_shape by auto. cbn.
  rewrite broadcast_same_shape; [reflexivity |].
  unfold np.scale. rewrite length_map, zip_with_length; auto.
Qed.

Lemma dot_same_shape (a b : ndarray) :
  length a = length b -> np.dot a b = Ok (np.sum (np.zip_with Rmult a b)).
Proof. intros H. unfold np.dot. now rewrite H, Nat.eqb_refl. Qed.

(** Whether [allclose] raises depends on the two shapes only. *)
Lemma allclose_ok_by_shape (a b b' : ndarray) :
  length b = length b' ->
  is_ok (np.allclose a b) = is_ok (np.allclose a b').
Proof.
  intros H. unfold np.allclose, np.broadcast. rewrite <- H.
  destruct (Nat.eqb (length a) (length b)); [reflexivity |].
  destruct a as [| x [| x' a]]; cbn.
  - destruct b as [| y [| y' b]], b' as [| z [| z' b']]; cbn in *;
      try discriminate; reflexivity.
  - reflexivity.
  - destruct b as [| y [| y' b]], b' as [| z [| z' b']]; cbn in *;
      try discriminate; reflexivity.
Qed.

(** ** VectorAnimation *)

Lemma get_value_at (a : Animation.t) (vs : Store Vector.t)
    (start end_ : ref) (t : R) :
  Animation.kind a = VectorAnimation start end_ ->
  Animation.eased_progress a = Ok t ->
  length (Vector._components (Store.get vs start))
  = length (Vector._components (Store.get vs end_)) ->
  length (Vector._origin (Store.get vs start))
  = length (Vector._origin (Store.get vs end_)) ->
  VectorAnimation.get_value a vs
  = Ok (np.zip_with Rplus (Vector._components (Store.get vs start))
          (np.scale t
             (np.zip_with Rminus (Vector._components (Store.get vs end_))
                (Vector._components (Store.get vs start)))),
        np.zip_with Rplus (Vector._origin (Store.get vs start))
          (np.scale t
             (np.zip_with Rminus (Vector._origin (Store.get vs end_))
                (Vector._origin (Store.get vs start))))).
Proof.
  intros Hk Ht Hc Ho. unfold VectorAnimation.get_value.
  rewrite Hk, Ht. cbn [bind].
  pose proof (lerp_same_shape t _ _ Hc) as Lc.
  pose proof (lerp_same_shape t _ _ Ho) as Lo.
  unfold np.subtract, np.add in *.
  destruct (np.broadcast Rminus (Vector._components (Store.get vs end_)) _)
    as [dc |]; cbn [bind] in *; [| discriminate].
  rewrite Lc. cbn [bind].
  destruct (np.broadcast Rminus (Vector._origin (Store.get vs end_)) _)
    as [dorig |]; cbn [bind] in *; [| discriminate].
  rewrite Lo. reflexivity.
Qed.


Lemma lerp_equal_ends (t : R) (a : ndarray) : lerp t a a = a.
Proof.
  unfold lerp. induction a as [| x a IH]; cbn; [reflexivity |].
  f_equal; [ring | exact IH].
Qed.




(** ** Vector *)

Lemma init_valid (components : list R) (origin : option (list R))
    (vs : Store Vector.t) :
  Vector.valid_arity (length components) = true ->
  exists o : ndarray,
    Vector.__init__ components origin vs
    = Ok (Store.alloc vs
            (Vector.mk components (length components) o
               Vector.default_color None None None)).
Proof.
  intros H. unfold Vector.__init__. rewrite H. cbn [negb].
  eexists. reflexivity.
Qed.

(** The scenario vectors are what the constructor allocates. *)
Lemma init_plain_vector (components : list R) (vs : Store Vector.t) :
  Vector.valid_arity (length components) = true ->
  Vector.__init__ components None vs
  = Ok (Store.alloc vs (Scenario.vector components)).
Proof. intros H. unfold Vector.__init__. now rewrite H. Qed.

Lemma init_inv (components : list R) (origin : option (list R))
    (vs vs1 : Store Vector.t) (v : ref) :
  Vector.__init__ components origin vs = Ok (v, vs1) ->
  v = next vs /\
  Vector._components (Store.get vs1 v) = components /\
  Vector._pending_animation (Store.get vs1 v) = None /\
  Vector._previous_state (Store.get vs1 v) = None /\
  Vector._scene (Store.get vs1 v) = None.
Proof.
  unfold Vector.__init__.
  destruct (negb (Vector.valid_arity (length components))); [discriminate |].
  unfold Store.alloc. intros H. injection H as Hv Hs. subst v vs1.
  cbn. rewrite Nat.eqb_refl. cbn. repeat split; reflexivity.
Qed.

Lemma animate_no_previous_state (v : ref) (d : R)
    (vs : Store Vector.t) (anims : Store Animation.t) :
  Vector._previous_state (Store.get vs v) = None ->
  Vector.animate v d vs anims = (v, vs, anims).
Proof. intros H. unfold Vector.animate. now rewrite H. Qed.

(** C10: on a Vector that comes straight out of the constructor,
    [animate(duration)] changes nothing for any duration: it returns the
    vector itself, both stores are as before, and the vector still has no
    pending animation. *)
Theorem animate_on_constructed_vector_is_noop
    (components : list R) (origin : option (list R))
    (vs vs1 : Store Vector.t) (v : ref)
    (anims : Store Animation.t) (duration : R) :
  Vector.__init__ components origin vs = Ok (v, vs1) ->
  Vector.animate v duration vs1 anims = (v, vs1, anims) /\
  Vector._pending_animation (Store.get vs1 v) = None.
Proof.
  intros H. apply init_inv in H as (_ & _ & Hp & Hprev & _).
  split; [now apply animate_no_previous_state | exact Hp].
Qed.

Lemma animate_on_constructed_vector_is_noop_witness :
  let vs1 := snd (Store.alloc (Store.empty (Scenario.vector []))
                    (Scenario.vector [1; 2])) in
  Vector.animate 0%nat 1 vs1 (Scenario.one_animation 1)
  = (0%nat, vs1, Scenario.one_animation 1) /\
  Vector._pending_animation (Store.get vs1 0%nat) = None.
Proof.
  apply (animate_on_constructed_vector_is_noop
           [1; 2] None (Store.empty (Scenario.vector []))).
  reflexivity.
Defined.

Lemma copy_is_ok (self : ref) (vs : Store Vector.t) :
  Vector.valid_arity (length (Vector._components (Store.get vs self))) = true ->
  is_ok (Vector.copy self vs) = true.
Proof.
  intros H. unfold Vector.copy.
  destruct (init_valid _ (Some (Vector._origin (Store.get vs self))) vs H)
    as [o ->].
  reflexivity.
Qed.

Lemma derive_is_ok (self : ref) (c : ndarray) (vs : Store Vector.t) :
  Vector.valid_arity (length c) = true ->
  Vector.valid_arity (length (Vector._components (Store.get vs self))) = true ->
  is_ok (Vector.derive self c vs) = true.
Proof.
  intros Hc Hs. unfold Vector.derive.
  destruct (init_valid c (Some (Vector._origin (Store.get vs self))) vs Hc)
    as [o ->].
  unfold Store.alloc. cbn [bind].
  match goal with
  | |- is_ok (bind (Vector.copy self ?s) _) = true =>
      pose proof (copy_is_ok self s) as Hcopy;
      destruct (Vector.copy self s) as [[c' vs3] | e]
  end.
  - reflexivity.
  - cbn in Hcopy. apply Hcopy.
    unfold Store.modify, Store.set, Store.get. cbn.
    destruct (Nat.eqb self (next vs)) eqn:E; cbn.
    + rewrite Nat.eqb_refl. cbn. exact Hc.
    + exact Hs.
Qed.

(** C7: [add], [subtract], [dot], [project_onto] and [angle_with] raise
    their ValueError when the dimensions of the two operands differ, and
    return a result when two valid Vectors have the same dimension. *)
Theorem binary_operations_check_dimensions
    (vs : Store Vector.t) (self other : ref) :
  (Vector._dim (Store.get vs self) <> Vector._dim (Store.get vs other) ->
   Vector.add self other vs
   = Raise (ValueError "Cannot add vectors of different dimensions") /\
   Vector.subtract self other vs
   = Raise (ValueError "Cannot subtract vectors of different dimensions") /\
   Vector.dot self other vs
   = Raise (ValueError "Cannot dot vectors of different dimensions") /\
   Vector.project_onto self other vs
   = Raise (ValueError "Cannot project vectors of different dimensions") /\
   Vector.angle_with self other vs
   = Raise (ValueError
              "Cannot compute angle between vectors of different dimensions"))
  /\
  (is_valid (Store.get vs self) -> is_valid (Store.get vs other) ->
   Vector._dim (Store.get vs self) = Vector._dim (Store.get vs other) ->
   is_ok (Vector.add self other vs) = true /\
   is_ok (Vector.subtract self other vs) = true /\
   is_ok (Vector.dot self other vs) = true /\
   is_ok (Vector.project_onto self other vs) = true /\
   is_ok (Vector.angle_with self other vs) = true).
Proof.
  split.
  - intros H. apply Nat.eqb_neq in H.
    unfold Vector.add, Vector.subtract, Vector.dot, Vector.project_onto,
      Vector.angle_with.
    rewrite H. cbn. repeat split; reflexivity.
  - intros [Hls Hvs] [Hlo Hvo] H.
    assert (Hlen : length (Vector._components (Store.get vs self))
                   = length (Vector._components (Store.get vs other)))
      by congruence.
    assert (Has : Vector.valid_arity
                    (length (Vector._components (Store.get vs self))) = true)
      by now rewrite Hls.
    unfold Vector.add, Vector.subtract, Vector.dot, Vector.project_onto,
      Vector.angle_with, np.add, np.subtract.
    rewrite H, Nat.eqb_refl. cbn [negb].
    rewrite !broadcast_same_shape, !dot_same_shape by congruence.
    cbn [bind].
    repeat split.
    + apply derive_is_ok; [| exact Has]. now rewrite zip_with_length.
    + apply derive_is_ok; [| exact Has]. now rewrite zip_with_length.
    + destruct (Rltb _ _).
      * destruct (init_valid (np.zeros (Vector._dim (Store.get vs other)))
                    None vs) as [o ->]; [| reflexivity].
        unfold np.zeros. now rewrite repeat_length.
      * apply derive_is_ok; [| exact Has].
        unfold np.scale. rewrite length_map. congruence.
Qed.

Lemma binary_operations_check_dimensions_witness :
  Vector.add 0%nat 2%nat Scenario.mixed_vectors
  = Raise (ValueError "Cannot add vectors of different dimensions") /\
  is_ok (Vector.add 0%nat 1%nat Scenario.mixed_vectors) = true.
Proof.
  split.
  - destruct (binary_operations_check_dimensions
                Scenario.mixed_vectors 0%nat 2%nat) as [H _].
    apply H. cbn. discriminate.
  - destruct (binary_operations_check_dimensions
                Scenario.mixed_vectors 0%nat 1%nat) as [_ H].
    apply H.
    + split; reflexivity.
    + split; reflexivity.
    + reflexivity.
Defined.

(** ** Camera2D *)

Lemma rotate_back_x (r x y : R) :
  (x * cos r - y * - sin r) * cos r - (x * - sin r + y * cos r) * sin r = x.
Proof.
  pose proof (sin2_cos2 r) as H. unfold Rsqr in H.
  replace ((x * cos r - y * - sin r) * cos r
           - (x * - sin r + y * cos r) * sin r)
    with (x * (sin r * sin r + cos r * cos r)) by ring.
  rewrite H. ring.
Qed.

Lemma rotate_back_y (r x y : R) :
  (x * cos r - y * - sin r) * sin r + (x * - sin r + y * cos r) * cos r = y.
Proof.
  pose proof (sin2_cos2 r) as H. unfold Rsqr in H.
  replace ((x * cos r - y * - sin r) * sin r
           + (x * - sin r + y * cos r) * cos r)
    with (y * (sin r * sin r + cos r * cos r)) by ring.
  rewrite H. ring.
Qed.

(** Zooming keeps the zoom inside [5, 500], the range the round trip
    below relies on. *)
Lemma zoom_by_in_range (c c' : Camera2D.t) (factor : R)
    (center : option (R * R)) :
  Camera2D.zoom_by c factor center = Ok c' -> 5 <= Camera2D._zoom c' <= 500.
Proof.
  assert (Hr : 5 <= py_max 5 (py_min 500 (Camera2D._zoom c * factor)) <= 500).
  { unfold py_max, py_min, Rgtb, Rltb.
    destruct (Rlt_dec _ _), (Rgt_dec _ _); lra. }
  unfold Camera2D.zoom_by.
  destruct center as [[cx cy] |].
  - destruct (Camera2D._position c) as [px py].
    destruct (py_div _ _); cbn [bind]; [| discriminate].
    destruct (py_div _ _); cbn [bind]; [| discriminate].
    intros H. injection H as <-. exact Hr.
  - intros H. injection H as <-. exact Hr.
Qed.

(** C8: for a Camera2D in any pan position and rotation, with its zoom
    inside [5, 500], mapping a world point to the screen and back returns
    the point, exactly over the reals. *)
Theorem world_screen_world_round_trip (c : Camera2D.t) (x y : R) :
  5 <= Camera2D._zoom c <= 500 ->
  Camera2D.screen_to_world c
    (fst (Camera2D.world_to_screen c x y))
    (snd (Camera2D.world_to_screen c x y))
  = Ok (x, y).
Proof.
  intros Hz.
  destruct c as [w h [px py] z r]. cbn in Hz.
  unfold Camera2D.screen_to_world, Camera2D.world_to_screen. cbn.
  rewrite !py_div_nonzero by lra. cbn.
  destruct (Req_dec_T r 0) as [Hr | Hr].
  - rewrite (Reqb_true r 0) by assumption. cbn.
    f_equal. f_equal; field; lra.
  - rewrite (Reqb_false r 0) by assumption. cbn.
    rewrite cos_neg, sin_neg.
    replace (((x * cos r - y * - sin r - px) * z + IZR w / 2 - IZR w / 2) / z
             + px)
      with (x * cos r - y * - sin r) by (field; lra).
    replace (- (- (x * - sin r + y * cos r - py) * z + IZR h / 2 - IZR h / 2)
             / z + py)
      with (x * - sin r + y * cos r) by (field; lra).
    now rewrite rotate_back_x, rotate_back_y.
Qed.

Lemma world_screen_world_round_trip_witness :
  let c := Camera2D.mk 800 600 (3, -2) 120 1 in
  5 <= Camera2D._zoom c <= 500 /\
  Camera2D.screen_to_world c
    (fst (Camera2D.world_to_screen c 7 (-4)))
    (snd (Camera2D.world_to_screen c 7 (-4)))
  = Ok (7, -4).
Proof.
  split.
  - cbn. lra.
  - apply (world_screen_world_round_trip
             (Camera2D.mk 800 600 (3, -2) 120 1) 7 (-4)).
    cbn. lra.
Defined.

(** ** Timeline: the loops of [update] *)

Lemma update_all_entries (current_time dt : R) (d : Timeline.Buckets)
    (st : Store Animation.t * bool) :
  Timeline.update_all current_time dt d st
  = update_entries current_time dt (entries d) st.
Proof.
  unfold Timeline.update_all, update_entries, entries.
  revert st. induction d as [| [k rs] d IH]; intros st; cbn; [reflexivity |].
  rewrite fold_left_app, IH. f_equal.
  clear IH. revert st. induction rs as [| r rs IH]; intros st; cbn;
    [reflexivity | apply IH].
Qed.

Lemma entries_refs (d : Timeline.Buckets) :
  map snd (entries d) = flat_map snd d.
Proof.
  unfold entries. induction d as [| [k rs] d IH]; cbn; [reflexivity |].
  rewrite map_app, IH. f_equal.
  rewrite map_map. cbn. apply map_id.
Qed.

Section OnePass.

(** One pass of the loops, at the playhead [cur] reached by adding [dt]. *)
Variables cur dt : R.

Lemma update_one_store (t0 : R) (anims : Store Animation.t) (b : bool)
    (r : ref) :
  fst (Timeline.update_one cur t0 dt (anims, b) r)
  = if Rgeb cur t0 && negb (Animation.is_finished (Store.get anims r))
    then Store.modify anims r (fun a => Animation.update a dt)
    else anims.
Proof. reflexivity. Qed.

Lemma update_one_other (t0 : R) (st : Store Animation.t * bool) (r r' : ref) :
  r' <> r ->
  Store.get (fst (Timeline.update_one cur t0 dt st r)) r' = Store.get (fst st) r'.
Proof.
  intros H. destruct st as [anims b]. rewrite update_one_store. cbn [fst].
  destruct (_ && _); [now apply get_modify_other | reflexivity].
Qed.

Lemma update_one_same (t0 : R) (st : Store Animation.t * bool) (r : ref) :
  Store.get (fst (Timeline.update_one cur t0 dt st r)) r
  = if Rgeb cur t0 && negb (Animation.is_finished (Store.get (fst st) r))
    then Animation.update (Store.get (fst st) r) dt
    else Store.get (fst st) r.
Proof.
  destruct st as [anims b]. rewrite update_one_store. cbn [fst].
  destruct (_ && _); [now rewrite get_modify_same | reflexivity].
Qed.

(** An animation that is not on the schedule is left alone. *)
Lemma update_entries_frame (es : list (R * ref))
    (st : Store Animation.t * bool) (r : ref) :
  ~ In r (map snd es) ->
  Store.get (fst (update_entries cur dt es st)) r = Store.get (fst st) r.
Proof.
  unfold update_entries.
  revert st. induction es as [| [t0 a] es IH]; intros st H; cbn;
    [reflexivity |].
  cbn in H. rewrite IH by tauto.
  apply update_one_other. intros ->. tauto.
Qed.

(** An animation scheduled once receives the whole [dt] if the playhead
    has reached its start time and it is not finished, and nothing
    otherwise. *)
Lemma update_entries_once (es : list (R * ref))
    (st : Store Animation.t * bool) (t0 : R) (r : ref) :
  NoDup (map snd es) -> In (t0, r) es ->
  Store.get (fst (update_entries cur dt es st)) r
  = if Rgeb cur t0 && negb (Animation.is_finished (Store.get (fst st) r))
    then Animation.update (Store.get (fst st) r) dt
    else Store.get (fst st) r.
Proof.
  unfold update_entries.
  revert st. induction es as [| [t1 a] es IH]; intros st Hnd Hin; cbn;
    [contradiction |].
  cbn in Hnd. inversion Hnd as [| ? ? Hnotin Hnd']; subst.
  destruct Hin as [Heq | Hin].
  - injection Heq as -> ->.
    fold (update_entries cur dt es (Timeline.update_one cur t0 dt st r)).
    rewrite update_entries_frame by assumption.
    apply update_one_same.
  - rewrite IH by assumption.
    assert (r <> a).
    { intros ->. apply Hnotin. apply in_map_iff. now exists (t0, a). }
    now rewrite !update_one_other by assumption.
Qed.

(** Two stores that agree on a set of addresses [rs] holding the whole
    schedule still agree on it after the pass, and the pass computes the
    same [all_finished] flag from both. *)
Variable rs : list ref.

Lemma update_one_agree (t0 : R) (s1 s2 : Store Animation.t) (b : bool)
    (r : ref) :
  agree_on rs s1 s2 -> In r rs ->
  snd (Timeline.update_one cur t0 dt (s1, b) r)
  = snd (Timeline.update_one cur t0 dt (s2, b) r) /\
  agree_on rs (fst (Timeline.update_one cur t0 dt (s1, b) r))
              (fst (Timeline.update_one cur t0 dt (s2, b) r)).
Proof.
  intros Hag Hin.
  assert (Hstore :
            agree_on rs (fst (Timeline.update_one cur t0 dt (s1, b) r))
                        (fst (Timeline.update_one cur t0 dt (s2, b) r))).
  { intros r' Hr'. destruct (Nat.eq_dec r' r) as [-> | Hne].
    - rewrite !update_one_same. cbn [fst]. now rewrite (Hag r Hin).
    - rewrite !update_one_other by assumption. now apply Hag. }
  split; [| exact Hstore].
  specialize (Hstore r Hin). unfold Timeline.update_one in *.
  cbn [fst snd] in *. now rewrite Hstore.
Qed.

Lemma update_entries_agree (es : list (R * ref))
    (s1 s2 : Store Animation.t) (b : bool) :
  agree_on rs s1 s2 -> incl (map snd es) rs ->
  snd (update_entries cur dt es (s1, b))
  = snd (update_entries cur dt es (s2, b)) /\
  agree_on rs (fst (update_entries cur dt es (s1, b)))
              (fst (update_entries cur dt es (s2, b))).
Proof.
  unfold update_entries.
  revert s1 s2 b. induction es as [| [t0 r] es IH]; intros s1 s2 b Hag Hin;
    cbn [fold_left fst snd]; [auto |].
  assert (Hr : In r rs) by (apply Hin; now left).
  destruct (update_one_agree t0 s1 s2 b r Hag Hr) as [Hb Hs].
  remember (Timeline.update_one cur t0 dt (s1, b) r) as st1 eqn:E1.
  remember (Timeline.update_one cur t0 dt (s2, b) r) as st2 eqn:E2.
  clear E1 E2. destruct st1 as [s1' b1], st2 as [s2' b2].
  cbn [fst snd] in *. subst b2.
  apply IH; [exact Hs |].
  intros x Hx. apply Hin. now right.
Qed.

End OnePass.

Lemma update_inv (tl tl' : Timeline.t) (dt : R)
    (anims anims' : Store Animation.t) :
  Timeline.update tl dt anims = Ok (tl', anims') ->
  anims' = update_store tl dt anims /\
  Timeline._animations tl' = Timeline._animations tl /\
  Timeline._current_time tl' = update_time tl dt.
Proof.
  unfold Timeline.update, update_store, update_time.
  destruct (negb (Timeline._is_playing tl) || Timeline._is_finished tl).
  - intros H. injection H as <- <-. auto.
  - rewrite update_all_entries. cbn [Timeline._animations Timeline.set_current_time
      Timeline._current_time].
    destruct (update_entries _ _ _ _) as [anims1 all_finished]. cbn [fst].
    destruct all_finished.
    + destruct (Timeline.duration _ _) as [total |]; cbn [bind];
        [| discriminate].
      destruct (Rgeb _ _); intros H; injection H as <- <-; auto.
    + intros H; injection H as <- <-; auto.
Qed.

Lemma bucket_ends_ok (d : Timeline.Buckets) (anims : Store Animation.t) :
  nonempty_buckets d ->
  exists ends : list R,
    Timeline.bucket_ends d anims = Ok ends /\ length ends = length d.
Proof.
  induction 1 as [| [k rs] d Hne _ IH]; cbn.
  - now exists [].
  - destruct IH as [ends [-> Hl]].
    destruct rs as [| r rs]; [now contradiction Hne |]. cbn.
    eexists. split; [reflexivity |]. cbn. now rewrite Hl.
Qed.

Lemma duration_ok (tl : Timeline.t) (anims : Store Animation.t) :
  nonempty_buckets (Timeline._animations tl) ->
  exists total : R, Timeline.duration tl anims = Ok total.
Proof.
  intros H. unfold Timeline.duration.
  destruct (Timeline._animations tl) as [| b d] eqn:E; [now exists 0 |].
  destruct (bucket_ends_ok (b :: d) anims H) as [ends [-> Hl]]. cbn [bind].
  destruct ends as [| x ends]; [discriminate |].
  cbn. eexists. reflexivity.
Qed.

Lemma update_ok (tl : Timeline.t) (dt : R) (anims : Store Animation.t) :
  nonempty_buckets (Timeline._animations tl) ->
  exists tl' : Timeline.t,
    Timeline.update tl dt anims = Ok (tl', update_store tl dt anims).
Proof.
  intros H.
  destruct (Timeline.update tl dt anims) as [[tl' anims'] | e] eqn:E.
  - exists tl'. apply update_inv in E as [-> _]. reflexivity.
  - exfalso. revert E. unfold Timeline.update.
    destruct (negb (Timeline._is_playing tl) || Timeline._is_finished tl);
      [discriminate |].
    destruct (Timeline.update_all _ _ _ _) as [anims1 all_finished].
    destruct all_finished; [| discriminate].
    destruct (duration_ok
                (Timeline.set_current_time (Timeline._current_time tl + dt) tl)
                anims1 H) as [total ->].
    cbn [bind]. destruct (Rgeb _ _); discriminate.
Qed.

(** The timeline leaves every animation it does not schedule alone. *)
Lemma update_store_frame (tl : Timeline.t) (dt : R)
    (anims : Store Animation.t) (r : ref) :
  ~ In r (Timeline.get_all_animations tl) ->
  Store.get (update_store tl dt anims) r = Store.get anims r.
Proof.
  intros H. unfold update_store.
  destruct (negb (Timeline._is_playing tl) || Timeline._is_finished tl);
    [reflexivity |].
  rewrite update_entries_frame; [reflexivity |].
  now rewrite entries_refs.
Qed.

(** A scheduled animation receives, in one [update(dt)] of a playing
    timeline, either nothing or one plain [update(dt)]: the whole [dt] as
    soon as the new playhead has reached its start time, whatever the
    distance between the two. *)
Lemma timeline_update_once (tl : Timeline.t) (dt : R)
    (anims : Store Animation.t) (t0 : R) (r : ref) :
  Timeline._is_playing tl = true -> Timeline._is_finished tl = false ->
  NoDup (Timeline.get_all_animations tl) ->
  In (t0, r) (entries (Timeline._animations tl)) ->
  Store.get (update_store tl dt anims) r
  = if Rgeb (Timeline._current_time tl + dt) t0
       && negb (Animation.is_finished (Store.get anims r))
    then Animation.update (Store.get anims r) dt
    else Store.get anims r.
Proof.
  intros Hp Hf Hnd Hin. unfold update_store. rewrite Hp, Hf. cbn [negb orb].
  rewrite (update_entries_once _ _ _ _ t0 r); [reflexivity | | exact Hin].
  now rewrite entries_refs.
Qed.

(** ** [_add_at] and the shape of schedules *)

Lemma dict_append_new (d : Timeline.Buckets) (time : R) (a : ref) :
  Timeline.dict_contains d time = false ->
  Timeline.dict_append (d ++ [(time, [])]) time a = d ++ [(time, [a])].
Proof.
  unfold Timeline.dict_contains.
  induction d as [| [k rs] d IH]; cbn.
  - intros _. now rewrite Reqb_true.
  - intros H. apply orb_false_iff in H as [Hk Hd].
    rewrite Hk. f_equal. now apply IH.
Qed.

Lemma dict_append_nonempty (d : Timeline.Buckets) (time : R) (a : ref) :
  nonempty_buckets d -> nonempty_buckets (Timeline.dict_append d time a).
Proof.
  unfold nonempty_buckets.
  induction 1 as [| [k rs] d Hne Hd IH]; cbn; [constructor |].
  destruct (Reqb k time); constructor; auto.
  cbn. intros E. now apply app_eq_nil in E as [_ E].
Qed.

Lemma add_at_nonempty (time : R) (a : ref) (tl : Timeline.t) :
  nonempty_buckets (Timeline._animations tl) ->
  nonempty_buckets (Timeline._animations (Timeline._add_at time a tl)).
Proof.
  intros H. unfold Timeline._add_at. cbn.
  destruct (Timeline.dict_contains _ _) eqn:E; cbn.
  - now apply dict_append_nonempty.
  - rewrite dict_append_new by assumption.
    apply Forall_app. split; [exact H |].
    constructor; [discriminate | constructor].
Qed.

Lemma schedule_nonempty (es : list (R * ref)) (tl : Timeline.t) :
  nonempty_buckets (Timeline._animations tl) ->
  nonempty_buckets (Timeline._animations (schedule es tl)).
Proof.
  unfold schedule. revert tl.
  induction es as [| e es IH]; intros tl H; cbn; [exact H |].
  apply IH. now apply add_at_nonempty.
Qed.

Lemma schedule_playback_state (es : list (R * ref)) (tl : Timeline.t) :
  Timeline._current_time (schedule es tl) = Timeline._current_time tl /\
  Timeline._is_playing (schedule es tl) = Timeline._is_playing tl /\
  Timeline._is_finished (schedule es tl) = Timeline._is_finished tl.
Proof.
  unfold schedule. revert tl.
  induction es as [| e es IH]; intros tl; cbn; [auto |].
  destruct (IH (Timeline._add_at (fst e) (snd e) tl)) as (-> & -> & ->).
  auto.
Qed.

(** ** Runs of a timeline depend on the scheduled animations only *)

Lemma bucket_ends_agree (rs : list ref) (d : Timeline.Buckets)
    (s1 s2 : Store Animation.t) :
  agree_on rs s1 s2 -> incl (flat_map snd d) rs ->
  Timeline.bucket_ends d s1 = Timeline.bucket_ends d s2.
Proof.
  intros Hag. induction d as [| [k bucket] d IH]; intros Hin; cbn;
    [reflexivity |].
  cbn in Hin. rewrite IH by (intros x Hx; apply Hin, in_or_app; now right).
  replace (map (fun r => Animation.duration (Store.get s1 r)) bucket)
    with (map (fun r => Animation.duration (Store.get s2 r)) bucket);
    [reflexivity |].
  apply map_ext_in. intros r Hr.
  rewrite (Hag r); [reflexivity |]. apply Hin, in_or_app. now left.
Qed.

Lemma duration_agree (tl : Timeline.t) (s1 s2 : Store Animation.t) :
  agree_on (Timeline.get_all_animations tl) s1 s2 ->
  Timeline.duration tl s1 = Timeline.duration tl s2.
Proof.
  intros Hag. unfold Timeline.duration.
  destruct (Timeline._animations tl) eqn:E; [reflexivity |].
  rewrite <- E.
  now rewrite (bucket_ends_agree _ _ s1 s2 Hag (incl_refl _)).
Qed.

Lemma update_agree (tl : Timeline.t) (dt : R) (s1 s2 : Store Animation.t) :
  agree_on (Timeline.get_all_animations tl) s1 s2 ->
  match Timeline.update tl dt s1, Timeline.update tl dt s2 with
  | Ok (tl1, s1'), Ok (tl2, s2') =>
      tl1 = tl2 /\ agree_on (Timeline.get_all_animations tl) s1' s2'
  | Raise e1, Raise e2 => e1 = e2
  | _, _ => False
  end.
Proof.
  intros Hag. unfold Timeline.update.
  destruct (negb (Timeline._is_playing tl) || Timeline._is_finished tl);
    [auto |].
  rewrite !update_all_entries.
  cbn [Timeline._animations Timeline.set_current_time Timeline._current_time].
  destruct (update_entries_agree (Timeline._current_time tl + dt) dt
              (Timeline.get_all_animations tl)
              (entries (Timeline._animations tl)) s1 s2 true Hag)
    as [Hb Hs].
  { rewrite entries_refs. apply incl_refl. }
  destruct (update_entries _ _ _ (s1, true)) as [s1' b1].
  destruct (update_entries _ _ _ (s2, true)) as [s2' b2].
  cbn [fst snd] in *. subst b2.
  destruct b1; [| auto].
  rewrite (duration_agree _ s1' s2') by exact Hs.
  destruct (Timeline.duration _ s2') as [total | e]; cbn [bind]; [| auto].
  destruct (Rgeb _ _); auto.
Qed.

Lemma active_snapshot_agree (tl : Timeline.t) (s1 s2 : Store Animation.t) :
  agree_on (Timeline.get_all_animations tl) s1 s2 ->
  active_snapshot tl s1 = active_snapshot tl s2.
Proof.
  unfold active_snapshot, Timeline.get_active_animations,
    Timeline.get_all_animations.
  generalize (Timeline._current_time tl) as cur.
  induction (Timeline._animations tl) as [| [k bucket] d IH];
    intros cur Hag; cbn; [reflexivity |].
  cbn in Hag. rewrite !map_app. f_equal.
  - assert (Hb : agree_on bucket s1 s2)
      by (intros r Hr; apply Hag, in_or_app; now left).
    clear IH Hag. induction bucket as [| r bucket IH]; cbn; [reflexivity |].
    rewrite (Hb r) by now left.
    destruct (_ && _); cbn.
    + rewrite (Hb r) by now left. f_equal.
      apply IH. intros x Hx. apply Hb. now right.
    + apply IH. intros x Hx. apply Hb. now right.
  - apply IH. intros r Hr. apply Hag, in_or_app. now right.
Qed.

Lemma active_trace_agree (dts : list R) (tl : Timeline.t)
    (s1 s2 : Store Animation.t) :
  agree_on (Timeline.get_all_animations tl) s1 s2 ->
  active_trace tl dts s1 = active_trace tl dts s2.
Proof.
  revert tl s1 s2. induction dts as [| dt dts IH]; intros tl s1 s2 Hag; cbn;
    [reflexivity |].
  pose proof (update_agree tl dt s1 s2 Hag) as Hup.
  destruct (Timeline.update tl dt s1) as [[tl1 s1'] | e1] eqn:E1,
           (Timeline.update tl dt s2) as [[tl2 s2'] | e2] eqn:E2;
    cbn [bind]; try contradiction.
  - destruct Hup as [<- Hag'].
    apply update_inv in E1 as (_ & Hd & _).
    assert (Hrefs : Timeline.get_all_animations tl1
                    = Timeline.get_all_animations tl)
      by (unfold Timeline.get_all_animations; now rewrite Hd).
    rewrite <- Hrefs in Hag'.
    rewrite (IH tl1 s1' s2' Hag').
    now rewrite (active_snapshot_agree tl1 s1' s2' Hag').
  - now subst.
Qed.

Lemma active_trace_ok (dts : list R) (tl : Timeline.t)
    (anims : Store Animation.t) :
  nonempty_buckets (Timeline._animations tl) ->
  is_ok (active_trace tl dts anims) = true.
Proof.
  revert tl anims. induction dts as [| dt dts IH]; intros tl anims H; cbn;
    [reflexivity |].
  destruct (update_ok tl dt anims H) as [tl' E].
  rewrite E. cbn [bind].
  apply update_inv in E as (_ & Hd & _).
  rewrite <- Hd in H. specialize (IH tl' (update_store tl dt anims) H).
  destruct (active_trace tl' dts _); [reflexivity | discriminate].
Qed.

(** ** [stop] *)

Lemma reset_each (rs : list ref) (anims : Store Animation.t) (r : ref) :
  Store.get
    (fold_left (fun st a => Store.modify st a Animation.reset) rs anims) r
  = if existsb (Nat.eqb r) rs then Animation.reset (Store.get anims r)
    else Store.get anims r.
Proof.
  revert anims. induction rs as [| x rs IH]; intros anims;
    cbn [fold_left existsb]; [reflexivity |].
  rewrite IH. destruct (Nat.eqb r x) eqn:E; cbn [orb].
  - apply Nat.eqb_eq in E. subst x. rewrite get_modify_same.
    destruct (existsb (Nat.eqb r) rs); reflexivity.
  - apply Nat.eqb_neq in E. now rewrite get_modify_other.
Qed.

Lemma stop_store (tl : Timeline.t) (anims : Store Animation.t) :
  snd (Timeline.stop tl anims)
  = fold_left (fun st a => Store.modify st a Animation.reset)
              (Timeline.get_all_animations tl) anims.
Proof.
  unfold Timeline.stop, Timeline.get_all_animations. cbn.
  revert anims.
  induction (Timeline._animations tl) as [| [k bucket] d IH]; intros anims;
    cbn; [reflexivity |].
  now rewrite fold_left_app, IH.
Qed.

(** [stop] puts every scheduled animation back to Idle and touches no
    other. *)
Lemma stop_resets (tl : Timeline.t) (anims : Store Animation.t) (r : ref) :
  (In r (Timeline.get_all_animations tl) ->
   Store.get (snd (Timeline.stop tl anims)) r
   = Animation.reset (Store.get anims r)) /\
  (~ In r (Timeline.get_all_animations tl) ->
   Store.get (snd (Timeline.stop tl anims)) r = Store.get anims r).
Proof.
  rewrite stop_store, reset_each.
  destruct (existsb (Nat.eqb r) (Timeline.get_all_animations tl)) eqn:E.
  - split; [reflexivity |]. intros H. exfalso. apply H.
    apply existsb_exists in E as [x [Hx Hrx]].
    apply Nat.eqb_eq in Hrx. now subst.
  - split; [| reflexivity]. intros H. exfalso.
    assert (existsb (Nat.eqb r) (Timeline.get_all_animations tl) = true).
    { apply existsb_exists. exists r. split; [exact H | apply Nat.eqb_refl]. }
    congruence.
Qed.

(** C5: take a Timeline in any playback state whose schedule was built by
    [at(time).add(animation)] calls, and a second world in which a fresh
    Timeline got the same calls and every scheduled animation is as its
    constructor left it.  After [stop()] the first Timeline has playhead 0,
    is neither playing nor finished, and every scheduled animation is Idle
    (elapsed 0, not finished); and after [play()] on both, the same run of
    [update(dt)] calls returns in both worlds and yields the same results of
    [get_active_animations()], call after call: the same animations in the
    same states. *)
Theorem stop_then_play_replays_a_fresh_run
    (es : list (R * ref)) (tl : Timeline.t)
    (anims fresh : Store Animation.t) (dts : list R) :
  Timeline._animations tl = Timeline._animations (schedule es Timeline.__init__) ->
  (forall r : ref,
     In r (Timeline.get_all_animations tl) ->
     Store.get fresh r
     = Animation.__init__ (Animation.kind (Store.get anims r))
         (Animation._duration (Store.get anims r))
         (Some (Animation._easing (Store.get anims r)))) ->
  let tl1 := fst (Timeline.stop tl anims) in
  let anims1 := snd (Timeline.stop tl anims) in
  (Timeline._current_time tl1 = 0 /\
   Timeline.is_playing tl1 = false /\
   Timeline.is_finished tl1 = false /\
   forall r : ref,
     In r (Timeline.get_all_animations tl) ->
     Animation._elapsed (Store.get anims1 r) = 0 /\
     Animation.is_finished (Store.get anims1 r) = false) /\
  active_snapshot (Timeline.play tl1) anims1
  = active_snapshot (Timeline.play (schedule es Timeline.__init__)) fresh /\
  active_trace (Timeline.play tl1) dts anims1
  = active_trace (Timeline.play (schedule es Timeline.__init__)) dts fresh /\
  is_ok (active_trace (Timeline.play tl1) dts anims1) = true.
Proof.
  intros Hsched Hfresh tl1 anims1.
  assert (Hreset : forall r, In r (Timeline.get_all_animations tl) ->
                     Store.get anims1 r = Animation.reset (Store.get anims r)).
  { intros r Hr. now apply (stop_resets tl anims r). }
  assert (Hsame : Timeline.play (schedule es Timeline.__init__)
                  = Timeline.play tl1).
  { destruct (schedule_playback_state es Timeline.__init__) as (Hc & Hp & Hf).
    unfold Timeline.play, Timeline.set_is_finished, Timeline.set_is_playing.
    cbn. rewrite Hc, <- Hsched. reflexivity. }
  assert (Hag : agree_on (Timeline.get_all_animations (Timeline.play tl1))
                  anims1 fresh).
  { intros r Hr. rewrite Hreset, Hfresh by exact Hr. reflexivity. }
  split; [| split; [| split]].
  - repeat split; try reflexivity.
    + now rewrite Hreset.
    + now rewrite Hreset.
  - rewrite Hsame. now apply active_snapshot_agree.
  - rewrite Hsame. now apply active_trace_agree.
  - apply active_trace_ok. cbn. rewrite Hsched.
    apply schedule_nonempty. constructor.
Qed.

Lemma stop_then_play_replays_a_fresh_run_witness :
  let stopped :=
    Timeline.stop Scenario.early_start_done Scenario.long_animation_done in
  active_trace (Timeline.play (fst stopped)) [1; 1] (snd stopped)
  = active_trace (Timeline.play (schedule [(1, 0%nat)] Timeline.__init__))
      [1; 1] (Scenario.one_animation 2) /\
  active_trace (Timeline.play (schedule [(1, 0%nat)] Timeline.__init__))
    [1; 1] (Scenario.one_animation 2)
  = Ok [[(0%nat, Animation.mk 2 Easing.ease_in_out_cubic 1 false
                   BaseAnimation)];
        []].
Proof.
  split.
  - apply (stop_then_play_replays_a_fresh_run
             [(1, 0%nat)] Scenario.early_start_done
             Scenario.long_animation_done (Scenario.one_animation 2) [1; 1]).
    + unfold schedule, Timeline._add_at. cbn.
      rewrite Reqb_true by reflexivity. reflexivity.
    + intros r [<- | []]. reflexivity.
  - unfold schedule, Scenario.one_animation, Timeline._add_at,
      active_trace, active_snapshot, Timeline.get_active_animations.
    repeat (progress (unfold Timeline.update, Timeline.update_one,
                        Animation.update; float_eval)).
    replace (0 + 1) with 1 by lra. reflexivity.
Defined.

(** ** A late start on the timeline *)

Ltac run_timeline :=
  unfold Scenario.late_start, Scenario.one_animation, Timeline._add_at;
  repeat (progress (unfold Timeline.update, Timeline.update_one,
                      Animation.update; float_eval)).

(** C1, as stated, fails: with one animation of duration 1 scheduled at
    time 2, the second [update(1.0)] brings the playhead to 2 and, in the
    same call, advances the animation, whose elapsed time is then not 0. *)
Lemma late_start_counterexample :
  exists (tl2 : Timeline.t) (anims2 : Store Animation.t),
    updates Scenario.late_start [1; 1] (Scenario.one_animation 1)
    = Ok (tl2, anims2) /\
    Timeline._current_time tl2 = 2 /\
    Animation._elapsed (Store.get anims2 0%nat) <> 0.
Proof.
  eexists. eexists. split; [| split].
  - run_timeline. reflexivity.
  - run_timeline. lra.
  - run_timeline. lra.
Qed.

(** C1 (amended): a played Timeline holds one animation of duration 1
    scheduled at time 2.  After one [update(1.0)] (playhead 1) the animation
    is untouched.  The second call (playhead 2) makes it eligible and gives
    it the whole [dt] at once: its elapsed time is 1, it is finished, the
    Timeline is not.  After the third call (playhead 3) the animation is
    still exactly at its duration and the Timeline is finished.  In general
    an animation scheduled once on a running Timeline receives from one
    [update(dt)] either nothing, while the new playhead is before its start
    time, or one plain [Animation.update(dt)]: [dt] is neither scaled by
    nor extended over the distance between playhead and start time.  (The
    Timeline of the general statement is one filled by [at(time).add(...)]
    calls, so none of its buckets is empty.) *)
Theorem late_start_gets_whole_dt_on_first_eligible_tick :
  (exists (tl1 : Timeline.t) (anims1 : Store Animation.t),
     updates Scenario.late_start [1] (Scenario.one_animation 1)
     = Ok (tl1, anims1) /\
     Timeline._current_time tl1 = 1 /\
     Timeline.get_active_animations tl1 anims1 = [] /\
     Animation._elapsed (Store.get anims1 0%nat) = 0 /\
     Animation.is_finished (Store.get anims1 0%nat) = false) /\
  (exists (tl2 : Timeline.t) (anims2 : Store Animation.t),
     updates Scenario.late_start [1; 1] (Scenario.one_animation 1)
     = Ok (tl2, anims2) /\
     Timeline._current_time tl2 = 2 /\
     Animation._elapsed (Store.get anims2 0%nat) = 1 /\
     Animation.is_finished (Store.get anims2 0%nat) = true /\
     Timeline.get_active_animations tl2 anims2 = [] /\
     Timeline.is_finished tl2 = false) /\
  (exists (tl3 : Timeline.t) (anims3 : Store Animation.t),
     updates Scenario.late_start [1; 1; 1] (Scenario.one_animation 1)
     = Ok (tl3, anims3) /\
     Timeline._current_time tl3 = 3 /\
     Animation._elapsed (Store.get anims3 0%nat)
     = Animation._duration (Store.get anims3 0%nat) /\
     Animation.is_finished (Store.get anims3 0%nat) = true /\
     Timeline.is_finished tl3 = true) /\
  (forall (tl : Timeline.t) (dt : R) (anims : Store Animation.t)
          (t0 : R) (r : ref),
     Timeline._is_playing tl = true -> Timeline._is_finished tl = false ->
     nonempty_buckets (Timeline._animations tl) ->
     NoDup (Timeline.get_all_animations tl) ->
     In (t0, r) (entries (Timeline._animations tl)) ->
     exists (tl' : Timeline.t) (anims' : Store Animation.t),
       Timeline.update tl dt anims = Ok (tl', anims') /\
       Store.get anims' r
       = if Rgeb (Timeline._current_time tl + dt) t0
            && negb (Animation.is_finished (Store.get anims r))
         then Animation.update (Store.get anims r) dt
         else Store.get anims r).
Proof.
  split; [| split; [| split]].
  - eexists. eexists. split; [run_timeline; reflexivity |].
    run_timeline. repeat split; lra.
  - eexists. eexists. split; [run_timeline; reflexivity |].
    run_timeline. repeat split; lra.
  - eexists. eexists. split; [run_timeline; reflexivity |].
    run_timeline. repeat split; lra.
  - intros tl dt anims t0 r Hp Hf Hne Hnd Hin.
    destruct (update_ok tl dt anims Hne) as [tl' E].
    exists tl', (update_store tl dt anims). split; [exact E |].
    now apply timeline_update_once.
Qed.

Lemma late_start_gets_whole_dt_on_first_eligible_tick_witness :
  exists (tl' : Timeline.t) (anims' : Store Animation.t),
    Timeline.update Scenario.late_start 2 (Scenario.one_animation 1)
    = Ok (tl', anims') /\
    Store.get anims' 0%nat
    = Animation.update (Store.get (Scenario.one_animation 1) 0%nat) 2.
Proof.
  destruct late_start_gets_whole_dt_on_first_eligible_tick
    as (_ & _ & _ & Hlaw).
  destruct (Hlaw Scenario.late_start 2 (Scenario.one_animation 1) 2 0%nat)
    as (tl' & anims' & E & H).
  - reflexivity.
  - reflexivity.
  - unfold Scenario.late_start, Timeline._add_at. float_eval.
    repeat constructor. discriminate.
  - unfold Scenario.late_start, Timeline._add_at. float_eval.
    repeat constructor. intros [].
  - unfold Scenario.late_start, Timeline._add_at. float_eval. now left.
  - exists tl', anims'. split; [exact E |].
    rewrite H. unfold Scenario.late_start, Timeline._add_at. float_eval.
    reflexivity.
Defined.

(** ** Scene: the tick loop *)

Lemma tick_one_store (dt : R) (st : Store Animation.t * list ref) (a : ref) :
  fst (Scene.tick_one dt st a)
  = Store.modify (fst st) a (fun x => Animation.update x dt).
Proof.
  destruct st as [anims fin]. unfold Scene.tick_one.
  destruct (Animation.is_finished _); reflexivity.
Qed.

Lemma tick_frame (dt : R) (l : list ref) (st : Store Animation.t * list ref)
    (r : ref) :
  ~ In r l ->
  Store.get (fst (fold_left (Scene.tick_one dt) l st)) r = Store.get (fst st) r.
Proof.
  revert st. induction l as [| a l IH]; intros st H; cbn [fold_left];
    [reflexivity |].
  rewrite IH by (intros Hin; apply H; now right).
  rewrite tick_one_store. apply get_modify_other.
  intros ->. apply H. now left.
Qed.

(** A live animation that occurs once in the list is updated once. *)
Lemma tick_once (dt : R) (l : list ref) (st : Store Animation.t * list ref)
    (r : ref) :
  NoDup l -> In r l ->
  Store.get (fst (fold_left (Scene.tick_one dt) l st)) r
  = Animation.update (Store.get (fst st) r) dt.
Proof.
  revert st. induction l as [| a l IH]; intros st Hnd Hin; cbn [fold_left];
    [contradiction |].
  inversion Hnd as [| ? ? Hnotin Hnd']; subst.
  destruct Hin as [-> | Hin].
  - rewrite tick_frame by assumption.
    rewrite tick_one_store. now rewrite get_modify_same.
  - rewrite IH by assumption.
    rewrite tick_one_store, get_modify_other; [reflexivity |].
    intros ->. contradiction.
Qed.

Lemma Subsequence_tail (x : ref) (sub l : list ref) :
  Subsequence (x :: sub) l -> Subsequence sub l.
Proof.
  intros H. remember (x :: sub) as xs eqn:E.
  induction H as [l | sub' y l H IH | sub' y l H IH].
  - discriminate.
  - constructor. now apply IH.
  - injection E as -> ->. now constructor.
Qed.

Lemma tick_finished (dt : R) (l : list ref) (anims : Store Animation.t)
    (fin : list ref) :
  exists sub : list ref,
    snd (fold_left (Scene.tick_one dt) l (anims, fin)) = fin ++ sub /\
    Subsequence sub l.
Proof.
  revert anims fin. induction l as [| a l IH]; intros anims fin;
    cbn [fold_left].
  - exists []. split; [now rewrite app_nil_r | constructor].
  - unfold Scene.tick_one at 2.
    destruct (Animation.is_finished _).
    + destruct (IH (Store.modify anims a (fun x => Animation.update x dt))
                   (fin ++ [a])) as [sub [E S]].
      exists (a :: sub). rewrite E, <- app_assoc. split; [reflexivity |].
      now constructor.
    + destruct (IH (Store.modify anims a (fun x => Animation.update x dt)) fin)
        as [sub [E S]].
      exists sub. split; [exact E | now constructor].
Qed.

Lemma list_remove_subsequence (x : ref) (sub l : list ref) :
  Subsequence (x :: sub) l ->
  exists l' : list ref, Scene.list_remove l x = Ok l' /\ Subsequence sub l'.
Proof.
  induction l as [| y l IH]; intros H.
  - inversion H.
  - cbn. destruct (Nat.eqb y x) eqn:E.
    + exists l. split; [reflexivity |].
      inversion H; subst; [now apply Subsequence_tail with x | assumption].
    + inversion H; subst.
      * destruct (IH H2) as [l' [-> S]]. cbn.
        exists (y :: l'). split; [reflexivity | now constructor].
      * now rewrite Nat.eqb_refl in E.
Qed.

Lemma remove_each_subsequence (sub l : list ref) :
  Subsequence sub l -> exists l' : list ref, Scene.remove_each l sub = Ok l'.
Proof.
  revert l. induction sub as [| x sub IH]; intros l H; cbn.
  - now exists l.
  - destruct (list_remove_subsequence x sub l H) as [l1 [-> S]]. cbn.
    now apply IH.
Qed.

(** An unpaused tick returns, and leaves the store that the timeline and
    then the loop over the live list produce. *)
Lemma scene_update_ok (s : Scene.t) (dt : R) (anims : Store Animation.t) :
  Scene._paused s = false ->
  nonempty_buckets (Timeline._animations (Scene._timeline s)) ->
  exists s' : Scene.t,
    Scene._update s dt anims
    = Ok (s', fst (fold_left (Scene.tick_one dt) (Scene._animations s)
                     (update_store (Scene._timeline s) dt anims, []))).
Proof.
  intros Hp Hne. unfold Scene._update. rewrite Hp.
  destruct (update_ok (Scene._timeline s) dt anims Hne) as [tl' ->].
  cbn [bind].
  destruct (tick_finished dt (Scene._animations s)
              (update_store (Scene._timeline s) dt anims) [])
    as [sub [E S]].
  destruct (fold_left _ _ _) as [anims2 finished]. cbn [fst snd] in *.
  subst finished. cbn [app].
  destruct (remove_each_subsequence sub _ S) as [live ->]. cbn [bind].
  eexists. reflexivity.
Qed.

(** The store after an unpaused tick, at a live animation that occurs
    once in the live list. *)
Lemma scene_update_live (s : Scene.t) (dt : R) (anims : Store Animation.t)
    (r : ref) :
  Scene._paused s = false ->
  nonempty_buckets (Timeline._animations (Scene._timeline s)) ->
  NoDup (Scene._animations s) ->
  In r (Scene._animations s) ->
  exists (s' : Scene.t) (anims' : Store Animation.t),
    Scene._update s dt anims = Ok (s', anims') /\
    Store.get anims' r
    = Animation.update
        (Store.get (update_store (Scene._timeline s) dt anims) r) dt.
Proof.
  intros Hp Hne Hnd Hin.
  destruct (scene_update_ok s dt anims Hp Hne) as [s' E].
  eexists. eexists. split; [exact E |].
  now rewrite tick_once.
Qed.

(** C2, as stated, fails: a live, unfinished animation of duration 4 that
    is also scheduled at time 0 on the scene's running Timeline has elapsed
    time 2 after one tick with [dt = 1]. *)
Lemma doubly_driven_counterexample :
  exists (s' : Scene.t) (anims' : Store Animation.t),
    Scene._update Scenario.doubly_driven 1 (Scenario.one_animation 4)
    = Ok (s', anims') /\
    Animation.is_finished (Store.get (Scenario.one_animation 4) 0%nat) = false /\
    In 0%nat (Scene._animations Scenario.doubly_driven) /\
    In 0%nat (Timeline.get_all_animations
                (Scene._timeline Scenario.doubly_driven)) /\
    Animation._elapsed (Store.get anims' 0%nat) = 2 /\
    Animation._elapsed (Store.get anims' 0%nat)
    <> Rmin (Animation._elapsed (Store.get (Scenario.one_animation 4) 0%nat) + 1)
            (Animation._duration (Store.get (Scenario.one_animation 4) 0%nat)).
Proof.
  destruct (scene_update_live Scenario.doubly_driven 1
              (Scenario.one_animation 4) 0%nat)
    as (s' & anims' & E & H).
  - reflexivity.
  - unfold Scenario.doubly_driven, Timeline._add_at. float_eval.
    repeat constructor. discriminate.
  - repeat constructor. intros [].
  - now left.
  - exists s', anims'. split; [exact E |]. rewrite H.
    rewrite (timeline_update_once _ _ _ 0 0%nat).
    + unfold Scenario.doubly_driven, Scenario.one_animation,
        Timeline._add_at, Animation.update.
      float_eval. unfold Animation.update. float_eval.
      repeat split; auto.
      * lra.
      * unfold Rmin. destruct (Rle_dec _ _); lra.
    + reflexivity.
    + reflexivity.
    + unfold Scenario.doubly_driven, Timeline._add_at. float_eval.
      repeat constructor. intros [].
    + unfold Scenario.doubly_driven, Timeline._add_at. float_eval. now left.
Qed.

(** C2 (amended): take one unpaused tick of a Scene whose live list has
    no duplicates and whose Timeline was filled by [at(time).add(...)] calls,
    and a live, unfinished animation.  If the Timeline does not advance it
    in this tick (it is not scheduled, or the Timeline is not playing or is
    finished, or its start time is still ahead of the new playhead), the
    animation is advanced by [dt] exactly once, so its elapsed time grows by
    [dt], cut off at its duration.  If it is also scheduled (once) on the
    running Timeline and the new playhead has reached its start time, it is
    advanced by [dt] twice in that tick, once by the Timeline and once by
    the loop over the live list. *)
Theorem tick_advances_live_animation
    (s : Scene.t) (dt : R) (anims : Store Animation.t) (r : ref) :
  Scene._paused s = false ->
  nonempty_buckets (Timeline._animations (Scene._timeline s)) ->
  NoDup (Scene._animations s) ->
  In r (Scene._animations s) ->
  Animation.is_finished (Store.get anims r) = false ->
  exists (s' : Scene.t) (anims' : Store Animation.t),
    Scene._update s dt anims = Ok (s', anims') /\
    (~ In r (Timeline.get_all_animations (Scene._timeline s)) \/
     Timeline._is_playing (Scene._timeline s) = false \/
     Timeline._is_finished (Scene._timeline s) = true \/
     (NoDup (Timeline.get_all_animations (Scene._timeline s)) /\
      exists t0 : R,
        In (t0, r) (entries (Timeline._animations (Scene._timeline s))) /\
        Timeline._current_time (Scene._timeline s) + dt < t0) ->
     Store.get anims' r = Animation.update (Store.get anims r) dt /\
     Animation._elapsed (Store.get anims' r)
     = Rmin (Animation._elapsed (Store.get anims r) + dt)
            (Animation._duration (Store.get anims r))) /\
    (forall t0 : R,
       Timeline._is_playing (Scene._timeline s) = true ->
       Timeline._is_finished (Scene._timeline s) = false ->
       NoDup (Timeline.get_all_animations (Scene._timeline s)) ->
       In (t0, r) (entries (Timeline._animations (Scene._timeline s))) ->
       Timeline._current_time (Scene._timeline s) + dt >= t0 ->
       Store.get anims' r
       = Animation.update (Animation.update (Store.get anims r) dt) dt).
Proof.
  intros Hp Hne Hnd Hin Hfin.
  destruct (scene_update_live s dt anims r Hp Hne Hnd Hin)
    as (s' & anims' & E & H).
  exists s', anims'. split; [exact E |]. split.
  - intros Hidle.
    assert (Hsame : Store.get (update_store (Scene._timeline s) dt anims) r
                    = Store.get anims r).
    { destruct Hidle as [Hout | [Hstop | [Hdone | (Hnd' & t0 & Hin' & Hlate)]]].
      - now apply update_store_frame.
      - unfold update_store. now rewrite Hstop.
      - unfold update_store. rewrite Hdone. now rewrite orb_true_r.
      - destruct (Timeline._is_playing (Scene._timeline s)) eqn:Hplay;
          [| unfold update_store; now rewrite Hplay].
        destruct (Timeline._is_finished (Scene._timeline s)) eqn:Hrun;
          [unfold update_store; now rewrite Hplay, Hrun |].
        rewrite (timeline_update_once _ _ _ t0 r) by assumption.
        now rewrite Rgeb_false by assumption. }
    rewrite H, Hsame. split; [reflexivity |].
    now apply update_elapsed.
  - intros t0 Hplay Hrun Hnd' Hin' Hstarted.
    rewrite H, (timeline_update_once _ _ _ t0 r) by assumption.
    unfold Animation.is_finished in *. rewrite Hfin.
    now rewrite Rgeb_true by assumption.
Qed.

Lemma tick_advances_live_animation_witness :
  exists (s' : Scene.t) (anims' : Store Animation.t),
    Scene._update Scenario.live_only 1 (Scenario.one_animation 4)
    = Ok (s', anims') /\
    Store.get anims' 0%nat
    = Animation.update (Store.get (Scenario.one_animation 4) 0%nat) 1.
Proof.
  destruct (tick_advances_live_animation Scenario.live_only 1
              (Scenario.one_animation 4) 0%nat)
    as (s' & anims' & E & Honce & _).
  - reflexivity.
  - constructor.
  - repeat constructor. intros [].
  - now left.
  - reflexivity.
  - exists s', anims'. split; [exact E |].
    apply Honce. left. intros [].
Defined.

(** ** Scene.add *)

(** [contains] reads nothing but the components of the vectors. *)
Lemma contains_ext (vs vs' : Store Vector.t) (l : list ref) (obj : ref) :
  (forall r : ref,
     Vector._components (Store.get vs' r) = Vector._components (Store.get vs r)) ->
  Scene.contains l obj vs' = Scene.contains l obj vs.
Proof.
  intros H. induction l as [| item l IH]; cbn; [reflexivity |].
  unfold Vector.__eq__. now rewrite !H, IH.
Qed.

Lemma contains_after_append (vs : Store Vector.t) (l : list ref) (u v : ref) :
  u <> v ->
  length (Vector._components (Store.get vs u))
  = length (Vector._components (Store.get vs v)) ->
  Vector.__eq__ u v vs = Ok true ->
  Scene.contains l u vs = Ok false ->
  Scene.contains (l ++ [u]) v vs = Ok true.
Proof.
  intros Hne Hlen Heq. induction l as [| item l IH]; cbn.
  - intros _. apply Nat.eqb_neq in Hne. rewrite Hne, Heq. reflexivity.
  - destruct (Nat.eqb item u); [discriminate |].
    destruct (Nat.eqb item v); [reflexivity |].
    pose proof (allclose_ok_by_shape
                  (Vector._components (Store.get vs item)) _ _ Hlen) as Hok.
    unfold Vector.__eq__ in *.
    destruct (np.allclose (Vector._components (Store.get vs item))
                (Vector._components (Store.get vs u)))
      as [[|] |]; cbn; try discriminate.
    destruct (np.allclose (Vector._components (Store.get vs item))
                (Vector._components (Store.get vs v)))
      as [[|] |]; cbn in *; try discriminate; auto.
Qed.

Lemma set_scene_components (vs : Store Vector.t) (u : ref) (sc : option ref)
    (r : ref) :
  Vector._components (Store.get (Store.modify vs u (Vector.set_scene sc)) r)
  = Vector._components (Store.get vs r).
Proof.
  destruct (Nat.eq_dec r u) as [-> | Hne].
  - now rewrite get_modify_same.
  - now rewrite get_modify_other.
Qed.

Ltac run_scene :=
  unfold Scenario.near_duplicates, Scenario.empty_scene, Scenario.vector;
  repeat (progress (cbn; unfold Vector.__eq__, np.allclose, np.atol, np.rtol;
                    float_cmp_abs)).

(** C9, as stated, fails: in a Scene that holds [w = Vector(0, 0)], the
    Vector [u = Vector(6e-9, 0)] equals [w] and is not stored; the Vector
    [v = Vector(1.2e-8, 0)] equals [u] but not [w], so [add(v)] after
    [add(u)] appends [v] and sets its scene back-pointer. *)
Lemma near_duplicates_counterexample :
  exists (s : Scene.t) (vs : Store Vector.t),
    Scene.add 0%nat Scenario.empty_scene [0%nat] Scenario.near_duplicates
    = Ok (s, vs) /\
    Vector._dim (Store.get vs 1%nat) = Vector._dim (Store.get vs 2%nat) /\
    Vector.__eq__ 1%nat 2%nat vs = Ok true /\
    Scene.add 0%nat s [1%nat] vs = Ok (s, vs) /\
    Vector._scene (Store.get vs 2%nat) = None /\
    exists (s' : Scene.t) (vs' : Store Vector.t),
      Scene.add 0%nat s [2%nat] vs = Ok (s', vs') /\
      Scene._objects s' = [0%nat; 2%nat] /\
      Vector._scene (Store.get vs' 2%nat) = Some 0%nat.
Proof.
  eexists. eexists. split; [run_scene; reflexivity |].
  split; [reflexivity |].
  split; [run_scene; reflexivity |].
  split; [run_scene; reflexivity |].
  split; [reflexivity |].
  eexists. eexists. split; [run_scene; reflexivity |].
  split; reflexivity.
Qed.

(** C9 (amended): let [u] and [v] be distinct valid Vectors of one
    dimension with [u == v], that is [allclose(u.components,
    v.components)], whatever their origins and colors, and let no object of
    the Scene be equal to [u].  Then [add(u)] appends [u], and the
    following [add(v)] changes nothing: the object list and every Vector,
    the scene back-pointer of [v] included, are as they were. *)
Theorem add_skips_vector_equal_to_stored_one
    (self : ref) (s : Scene.t) (vs : Store Vector.t) (u v : ref) :
  u <> v ->
  is_valid (Store.get vs u) -> is_valid (Store.get vs v) ->
  Vector._dim (Store.get vs u) = Vector._dim (Store.get vs v) ->
  Vector.__eq__ u v vs = Ok true ->
  Scene.contains (Scene._objects s) u vs = Ok false ->
  exists (s1 : Scene.t) (vs1 : Store Vector.t),
    Scene.add self s [u] vs = Ok (s1, vs1) /\
    Scene._objects s1 = Scene._objects s ++ [u] /\
    Scene.add self s1 [v] vs1 = Ok (s1, vs1) /\
    Vector._scene (Store.get vs1 v) = Vector._scene (Store.get vs v).
Proof.
  intros Hne [Hlu _] [Hlv _] Hdim Heq Hnew.
  exists (Scene.set_objects (Scene._objects s ++ [u]) s),
         (Store.modify vs u (Vector.set_scene (Some self))).
  assert (Hlen : length (Vector._components (Store.get vs u))
                 = length (Vector._components (Store.get vs v)))
    by congruence.
  split; [| split; [| split]].
  - cbn. rewrite Hnew. reflexivity.
  - reflexivity.
  - cbn. rewrite (contains_ext vs) by (intros r; apply set_scene_components).
    rewrite (contains_after_append vs _ u v Hne Hlen Heq Hnew).
    reflexivity.
  - rewrite get_modify_other by auto. reflexivity.
Qed.

Lemma add_skips_vector_equal_to_stored_one_witness :
  exists (s1 : Scene.t) (vs1 : Store Vector.t),
    Scene.add 0%nat Scenario.empty_scene [1%nat] Scenario.near_duplicates
    = Ok (s1, vs1) /\
    Scene._objects s1 = [1%nat] /\
    Scene.add 0%nat s1 [2%nat] vs1 = Ok (s1, vs1).
Proof.
  destruct (add_skips_vector_equal_to_stored_one
              0%nat Scenario.empty_scene Scenario.near_duplicates 1%nat 2%nat)
    as (s1 & vs1 & Eu & Hobjects & Ev & _).
  - discriminate.
  - split; reflexivity.
  - split; reflexivity.
  - reflexivity.
  - run_scene. reflexivity.
  - reflexivity.
  - exists s1, vs1. auto.
Defined.

(** * Further properties of the code *)

(** ** Animation: the life cycle *)

Lemma call_parameters (a : Animation.t) (c : AnimationCall) :
  Animation._duration (call a c) = Animation._duration a /\
  Animation._easing (call a c) = Animation._easing a /\
  Animation.kind (call a c) = Animation.kind a.
Proof.
  destruct c as [dt |]; cbn.
  - now rewrite update_duration, update_easing, update_kind.
  - auto.
Qed.

Lemma calls_parameters (cs : list AnimationCall) (a : Animation.t) :
  Animation._duration (fold_left call cs a) = Animation._duration a /\
  Animation._easing (fold_left call cs a) = Animation._easing a /\
  Animation.kind (fold_left call cs a) = Animation.kind a.
Proof.
  revert a. induction cs as [| c cs IH]; intros a; cbn; [auto |].
  destruct (IH (call a c)) as (-> & -> & ->). apply call_parameters.
Qed.

Lemma update_bounds (a : Animation.t) (dt : R) :
  0 <= dt ->
  0 <= Animation._elapsed a <= Animation._duration a ->
  0 <= Animation._elapsed (Animation.update a dt) <= Animation._duration a.
Proof.
  intros Hdt Ha. unfold Animation.update.
  destruct (Animation._finished a); [exact Ha |].
  cbn. unfold Rgeb. destruct (Rge_dec _ _); cbn; lra.
Qed.

Lemma update_consistent (a : Animation.t) (dt : R) :
  (Animation._finished a = true ->
   Animation._elapsed a = Animation._duration a) ->
  (Animation._finished (Animation.update a dt) = true <->
   Animation._elapsed (Animation.update a dt)
   = Animation._duration (Animation.update a dt)).
Proof.
  intros Ha. unfold Animation.update.
  destruct (Animation._finished a) eqn:E.
  - rewrite E. split; auto.
  - cbn. unfold Rgeb. destruct (Rge_dec _ _) as [Hge | Hlt]; cbn.
    + split; auto.
    + rewrite E. split; [discriminate | lra].
Qed.

(** X1: an Animation built with a duration [d >= 0] and then driven by any
    run of [update(dt)] calls with [dt >= 0] and [reset()] calls keeps its
    elapsed time between 0 and the duration, keeps the duration it was
    built with, and is finished only with the elapsed time equal to the
    duration. *)
Theorem animation_run_keeps_elapsed_within_duration
    (k : AnimationKind) (d : R) (easing : option EasingFunc)
    (cs : list AnimationCall) :
  0 <= d -> Forall forward cs ->
  let a := fold_left call cs (Animation.__init__ k d easing) in
  0 <= Animation._elapsed a <= Animation._duration a /\
  Animation._duration a = d /\
  (Animation.is_finished a = true ->
   Animation._elapsed a = Animation._duration a).
Proof.
  intros Hd Hcs.
  assert (Hinv : forall a0 : Animation.t,
             0 <= Animation._elapsed a0 <= Animation._duration a0 ->
             (Animation._finished a0 = true ->
              Animation._elapsed a0 = Animation._duration a0) ->
             0 <= Animation._elapsed (fold_left call cs a0)
               <= Animation._duration (fold_left call cs a0) /\
             (Animation._finished (fold_left call cs a0) = true ->
              Animation._elapsed (fold_left call cs a0)
              = Animation._duration (fold_left call cs a0))).
  { induction Hcs as [| c cs Hc _ IH]; intros a0 Hb Hf; cbn; [auto |].
    apply IH.
    - destruct c as [dt |]; cbn in *.
      + rewrite update_duration. now apply update_bounds.
      + lra.
    - destruct c as [dt |]; cbn.
      + now apply update_consistent.
      + discriminate. }
  intros a. subst a.
  destruct (Hinv (Animation.__init__ k d easing)) as [Hb Hf].
  - cbn. lra.
  - cbn. discriminate.
  - split; [exact Hb |]. split; [| exact Hf].
    now destruct (calls_parameters cs (Animation.__init__ k d easing))
      as (-> & _).
Qed.

Lemma animation_run_keeps_elapsed_within_duration_witness :
  let a := fold_left call [CallUpdate 1; CallReset; CallUpdate 5]
             (Animation.__init__ BaseAnimation 2 None) in
  0 <= Animation._elapsed a <= Animation._duration a /\
  Animation._duration a = 2 /\
  (Animation.is_finished a = true ->
   Animation._elapsed a = Animation._duration a).
Proof.
  apply (animation_run_keeps_elapsed_within_duration
           BaseAnimation 2 None [CallUpdate 1; CallReset; CallUpdate 5]).
  - lra.
  - repeat constructor; cbn; lra.
Defined.

(** Right after an [update(dt)], whatever the run of calls before it and
    whatever the sign of [dt], an Animation is finished exactly when its
    elapsed time equals its duration. *)
Lemma finished_exactly_when_elapsed_is_duration
    (k : AnimationKind) (d : R) (easing : option EasingFunc)
    (cs : list AnimationCall) (dt : R) :
  let a := Animation.update
             (fold_left call cs (Animation.__init__ k d easing)) dt in
  Animation.is_finished a = true
  <-> Animation._elapsed a = Animation._duration a.
Proof.
  cbn. apply update_consistent.
  assert (Hinv : forall a0 : Animation.t,
             (Animation._finished a0 = true ->
              Animation._elapsed a0 = Animation._duration a0) ->
             Animation._finished (fold_left call cs a0) = true ->
             Animation._elapsed (fold_left call cs a0)
             = Animation._duration (fold_left call cs a0)).
  { induction cs as [| c cs IH]; intros a0 Hf; cbn; [exact Hf |].
    apply IH. destruct c as [dt' |]; cbn.
    - now apply update_consistent.
    - discriminate. }
  apply Hinv. cbn. discriminate.
Qed.

(** In exact arithmetic, for time deltas that are not negative,
    [update(dt1)] followed by [update(dt2)] leaves the Animation in the
    state that the single call [update(dt1 + dt2)] leaves it in. *)
Lemma update_in_two_steps (a : Animation.t) (dt1 dt2 : R) :
  0 <= dt1 -> 0 <= dt2 ->
  Animation.update (Animation.update a dt1) dt2
  = Animation.update a (dt1 + dt2).
Proof.
  intros H1 H2. unfold Animation.update.
  destruct (Animation._finished a) eqn:E.
  - now rewrite E.
  - cbn. unfold Rgeb.
    destruct (Rge_dec (Animation._elapsed a + dt1) (Animation._duration a))
      as [Hge | Hlt]; cbn.
    + destruct (Rge_dec (Animation._elapsed a + (dt1 + dt2))
                  (Animation._duration a)); [reflexivity | lra].
    + rewrite E.
      destruct (Rge_dec (Animation._elapsed a + dt1 + dt2)
                  (Animation._duration a)),
               (Rge_dec (Animation._elapsed a + (dt1 + dt2))
                  (Animation._duration a)); try lra; try reflexivity.
      unfold Animation.set_elapsed. cbn. f_equal. lra.
Qed.

(** In binary64 the two runs part: from the elapsed time 0.1, the steps
    0.2 and 0.3 lead to 0.6000000000000001, the single step 0.2 + 0.3 to
    0.6. *)
Lemma update_in_two_steps_rounds :
  Binary64.elapsed_after 0.1 0.2 0.3 = 0.6000000000000001%float /\
  (0.1 + (0.2 + 0.3))%float = 0.6%float.
Proof. split; reflexivity. Qed.

(** X2: on an Animation whose elapsed time is within its duration, two
    updates in a row with time deltas that are not negative never move the
    elapsed time backwards nor beyond the duration; once the first has
    finished the Animation the second changes nothing, and neither does a
    second update by zero. *)
Theorem update_moves_elapsed_forward (a : Animation.t) (dt1 dt2 : R) :
  Animation._elapsed a <= Animation._duration a ->
  0 <= dt1 -> 0 <= dt2 ->
  let a1 := Animation.update a dt1 in
  let a2 := Animation.update a1 dt2 in
  Animation._elapsed a <= Animation._elapsed a1 <= Animation._elapsed a2 /\
  Animation._elapsed a2 <= Animation._duration a /\
  (Animation.is_finished a1 = true -> a2 = a1) /\
  (dt2 = 0 -> a2 = a1).
Proof.
  intros He H1 H2 a1 a2.
  assert (Hstep : forall (b : Animation.t) (dt : R),
             Animation._elapsed b <= Animation._duration b -> 0 <= dt ->
             Animation._elapsed b <= Animation._elapsed (Animation.update b dt)
             /\ Animation._elapsed (Animation.update b dt)
                <= Animation._duration b).
  { intros b dt Hb Hdt. unfold Animation.update.
    destruct (Animation._finished b); [lra |].
    cbn. unfold Rgeb.
    destruct (Rge_dec (Animation._elapsed b + dt) (Animation._duration b));
      cbn; lra. }
  assert (Hnoop : forall (b : Animation.t) (dt : R),
             Animation._finished b = true -> Animation.update b dt = b).
  { intros b dt Hb. unfold Animation.update. now rewrite Hb. }
  destruct (Hstep a dt1 He H1) as [L1 U1].
  change (Animation.update a dt1) with a1 in L1, U1.
  assert (Hd1 : Animation._duration a1 = Animation._duration a)
    by apply update_duration.
  destruct (Hstep a1 dt2) as [L2 U2]; [rewrite Hd1; exact U1 | exact H2 |].
  change (Animation.update a1 dt2) with a2 in L2, U2.
  rewrite Hd1 in U2.
  split; [lra |]. split; [lra |]. split.
  - intros Hf. now apply Hnoop.
  - intros ->. unfold a2.
    destruct (Animation._finished a1) eqn:Ef; [now apply Hnoop |].
    assert (Hlt : Animation._elapsed a1 < Animation._duration a1).
    { unfold a1, Animation.update in *.
      destruct (Animation._finished a) eqn:Efa; [congruence |].
      cbn in *. unfold Rgeb in *.
      destruct (Rge_dec (Animation._elapsed a + dt1) (Animation._duration a));
        cbn in *; [discriminate | lra]. }
    unfold Animation.update. rewrite Ef. cbn.
    rewrite Rgeb_false by lra.
    destruct a1 as [d1 e1 el1 f1 k1]. unfold Animation.set_elapsed. cbn.
    f_equal. lra.
Qed.

Lemma update_moves_elapsed_forward_witness :
  let a := Animation.__init__ BaseAnimation 1 None in
  let a1 := Animation.update a (1 / 4) in
  let a2 := Animation.update a1 (1 / 2) in
  (Animation._elapsed a <= Animation._elapsed a1 <= Animation._elapsed a2 /\
   Animation._elapsed a2 <= Animation._duration a /\
   (Animation.is_finished a1 = true -> a2 = a1) /\
   (1 / 2 = 0 -> a2 = a1)) /\
  Animation._elapsed a1 = 1 / 4 /\
  Animation._elapsed a2 = 1 / 4 + 1 / 2.
Proof.
  split.
  - apply (update_moves_elapsed_forward
             (Animation.__init__ BaseAnimation 1 None) (1 / 4) (1 / 2));
      cbn; lra.
  - unfold Animation.update. float_eval. split; lra.
Defined.

(** [reset()] after any run of calls gives back the Animation as it was
    constructed. *)
Lemma reset_restores_the_fresh_animation
    (k : AnimationKind) (d : R) (easing : option EasingFunc)
    (cs : list AnimationCall) :
  Animation.reset (fold_left call cs (Animation.__init__ k d easing))
  = Animation.__init__ k d easing.
Proof.
  destruct (calls_parameters cs (Animation.__init__ k d easing))
    as (Hd & He & Hk).
  unfold Animation.reset, Animation.set_finished, Animation.set_elapsed.
  cbn. rewrite Hd, He, Hk. reflexivity.
Qed.

(** ** Easing: end points and range *)

Lemma half_PI_times_1 : 1 * PI / 2 = PI / 2.
Proof. lra. Qed.

(** X3: each of the eleven easing functions maps 0 to 0, and each of them
    but [ease_in_sine] maps 1 to 1. *)
Theorem easing_end_points (f : EasingFunc) :
  (In f easing_family -> f 0 = 0) /\
  (In f easing_family_ending_exactly -> f 1 = 1).
Proof.
  unfold easing_family, easing_family_ending_exactly. cbn. split.
  - intros [<- | [<- | [<- | [<- | [<- | [<- | [<- | [<- | [<- | [<- | [<- | []]]]]]]]]]]].
    + reflexivity.
    + unfold Easing.ease_in_quad. ring.
    + unfold Easing.ease_out_quad. ring.
    + unfold Easing.ease_in_out_quad. rewrite Rltb_true by lra. ring.
    + unfold Easing.ease_in_cubic. ring.
    + unfold Easing.ease_out_cubic. ring.
    + apply ease_in_out_cubic_anchored.
    + unfold Easing.ease_in_sine.
      replace (0 * PI / 2) with 0 by lra. rewrite cos_0. ring.
    + unfold Easing.ease_out_sine.
      replace (0 * PI / 2) with 0 by lra. apply sin_0.
    + unfold Easing.ease_out_elastic. now rewrite Reqb_true.
    + unfold Easing.ease_out_bounce. rewrite Rltb_true by lra. ring.
  - intros [<- | [<- | [<- | [<- | [<- | [<- | [<- | [<- | [<- | [<- | []]]]]]]]]]].
    + reflexivity.
    + unfold Easing.ease_in_quad. ring.
    + unfold Easing.ease_out_quad. ring.
    + unfold Easing.ease_in_out_quad. rewrite Rltb_false by lra. ring.
    + unfold Easing.ease_in_cubic. ring.
    + unfold Easing.ease_out_cubic. ring.
    + apply ease_in_out_cubic_anchored.
    + unfold Easing.ease_out_sine. rewrite half_PI_times_1. apply sin_PI2.
    + unfold Easing.ease_out_elastic.
      rewrite (Reqb_false 1 0) by lra. now rewrite Reqb_true.
    + unfold Easing.ease_out_bounce. rewrite !Rltb_false by lra. lra.
Qed.

(** X4: every easing function other than [ease_out_elastic] maps the unit
    interval into itself. *)
Theorem easing_stays_in_unit_interval (f : EasingFunc) (t : R) :
  In f easing_family_without_overshoot -> 0 <= t <= 1 -> 0 <= f t <= 1.
Proof.
  unfold easing_family_without_overshoot. cbn.
  intros [<- | [<- | [<- | [<- | [<- | [<- | [<- | [<- | [<- | [<- | []]]]]]]]]]]
    Ht.
  - unfold Easing.linear. lra.
  - unfold Easing.ease_in_quad. nra.
  - unfold Easing.ease_out_quad. nra.
  - unfold Easing.ease_in_out_quad, Rltb. destruct (Rlt_dec _ _); nra.
  - unfold Easing.ease_in_cubic.
    assert (0 <= t * t <= 1) by nra. nra.
  - unfold Easing.ease_out_cubic.
    assert (0 <= (1 - t) * (1 - t) <= 1) by nra. nra.
  - unfold Easing.ease_in_out_cubic, Rltb. destruct (Rlt_dec _ _).
    + assert (0 <= t * t <= 1 / 4) by nra. nra.
    + assert (0 <= (-2 * t + 2) * (-2 * t + 2) <= 1) by nra. nra.
  - unfold Easing.ease_in_sine.
    assert (0 <= cos (t * PI / 2)).
    { pose proof PI_RGT_0. apply cos_ge_0; nra. }
    pose proof (COS_bound (t * PI / 2)). lra.
  - unfold Easing.ease_out_sine.
    assert (0 <= sin (t * PI / 2)).
    { pose proof PI_RGT_0. apply sin_ge_0; nra. }
    pose proof (SIN_bound (t * PI / 2)). lra.
  - unfold Easing.ease_out_bounce, Rltb.
    repeat destruct (Rlt_dec _ _); nra.
Qed.

Lemma easing_stays_in_unit_interval_witness :
  0 <= Easing.ease_out_bounce (1 / 2) <= 1.
Proof.
  apply (easing_stays_in_unit_interval Easing.ease_out_bounce (1 / 2)).
  - unfold easing_family_without_overshoot. cbn. tauto.
  - lra.
Defined.

(** The elastic easing leaves the unit interval: a tenth of the way in it
    is, in exact arithmetic, already a quarter beyond the end value. *)
Lemma ease_out_elastic_overshoots :
  0 < 0.1 < 1 /\ Easing.ease_out_elastic 0.1 = 1.25.
Proof.
  split; [lra |].
  unfold Easing.ease_out_elastic.
  rewrite !Reqb_false by lra. cbn [orb].
  replace (-10 * 0.1) with (Ropp 1) by lra.
  replace ((0.1 * 10 - 0.75) * (2 * PI) / 3) with (PI / 6) by lra.
  rewrite Rpower_Ropp, Rpower_1 by lra. rewrite sin_PI6. lra.
Qed.

(** ** Matrix *)

Lemma length_2 {A : Type} (l : list A) :
  length l = 2%nat -> exists x y, l = [x; y].
Proof.
  destruct l as [| x [| y [| z l]]]; cbn; try discriminate.
  intros _. now exists x, y.
Qed.

Lemma length_3 {A : Type} (l : list A) :
  length l = 3%nat -> exists x y z, l = [x; y; z].
Proof.
  destruct l as [| x [| y [| z [| w l]]]]; cbn; try discriminate.
  intros _. now exists x, y, z.
Qed.

Lemma rectangular_Forall (cols : nat) (a : list ndarray) :
  np.rectangular cols a = true <-> Forall (fun row => length row = cols) a.
Proof.
  unfold np.rectangular. rewrite forallb_forall, Forall_forall.
  split; intros H row Hin; apply Nat.eqb_eq; auto.
Qed.

Lemma square_data_shape (data : list ndarray) :
  SquareData data <->
  (length data = 2%nat \/ length data = 3%nat) /\
  Forall (fun row => length row = length data) data.
Proof.
  split.
  - intros []; cbn; split; auto; repeat constructor.
  - intros [[H | H] Hrows]; rewrite H in Hrows.
    + destruct (length_2 data H) as (r1 & r2 & ->).
      inversion Hrows as [| ? ? H1 Hrows']; subst.
      inversion Hrows' as [| ? ? H2 _]; subst.
      destruct (length_2 r1 H1) as (a & b & ->).
      destruct (length_2 r2 H2) as (c & d & ->).
      constructor.
    + destruct (length_3 data H) as (r1 & r2 & r3 & ->).
      inversion Hrows as [| ? ? H1 Hrows']; subst.
      inversion Hrows' as [| ? ? H2 Hrows'']; subst.
      inversion Hrows'' as [| ? ? H3 _]; subst.
      destruct (length_3 r1 H1) as (a & b & c & ->).
      destruct (length_3 r2 H2) as (d & e & f & ->).
      destruct (length_3 r3 H3) as (g & h & i & ->).
      constructor.
Qed.

Lemma init_square (data : list ndarray) :
  SquareData data -> Matrix.__init__ data = Ok (Matrix.mk data (length data)).
Proof. intros []; reflexivity. Qed.

Lemma init_matrix_inv (data : list ndarray) (m : Matrix.t) :
  Matrix.__init__ data = Ok m ->
  SquareData data /\ m = Matrix.mk data (length data).
Proof.
  unfold Matrix.__init__.
  destruct data as [| row rest] eqn:E; [discriminate |]. rewrite <- E.
  destruct (np.rectangular (length row) data) eqn:Hrect; cbn [negb];
    [| discriminate].
  destruct (Nat.eqb (length data) (length row)) eqn:Hsq; cbn [negb];
    [| discriminate].
  destruct (Nat.eqb (length data) 2 || Nat.eqb (length data) 3) eqn:Hdim;
    cbn [negb]; [| discriminate].
  intros H. injection H as <-. split; [| reflexivity].
  apply square_data_shape.
  apply Nat.eqb_eq in Hsq. apply rectangular_Forall in Hrect.
  rewrite <- Hsq in Hrect. split; [| exact Hrect].
  apply orb_true_iff in Hdim as [H | H]; apply Nat.eqb_eq in H; auto.
Qed.

(** X5: [Matrix(data)] succeeds exactly on nested lists with two rows of
    two entries or three rows of three entries, and then keeps the data as
    given with the number of rows as dimension. *)
Theorem matrix_constructor_accepts_square_2_or_3 (data : list ndarray) :
  (is_ok (Matrix.__init__ data) = true <->
   (length data = 2%nat \/ length data = 3%nat) /\
   Forall (fun row => length row = length data) data) /\
  (forall m : Matrix.t,
     Matrix.__init__ data = Ok m ->
     Matrix._data m = data /\ Matrix._dim m = length data).
Proof.
  split.
  - rewrite <- square_data_shape. split.
    + destruct (Matrix.__init__ data) as [m |] eqn:E; [| discriminate].
      intros _. now apply init_matrix_inv in E.
    + intros H. now rewrite init_square.
  - intros m H. apply init_matrix_inv in H as [_ ->]. auto.
Qed.

Lemma matrix_constructor_witness :
  Matrix._data (Matrix.mk [[2; 0]; [0; 2]] 2) = [[2; 0]; [0; 2]] /\
  Matrix._dim (Matrix.mk [[2; 0]; [0; 2]] 2) = 2%nat.
Proof.
  apply (proj2 (matrix_constructor_accepts_square_2_or_3 [[2; 0]; [0; 2]])).
  reflexivity.
Defined.

(** Closes an equation between two results holding arrays whose entries
    are equal as polynomials. *)
Ltac array_eq :=
  cbn;
  repeat match goal with
         | |- Ok _ = Ok _ => apply f_equal
         | |- Matrix.mk _ _ = Matrix.mk _ _ => apply f_equal2
         | |- (_, _) = (_, _) => apply f_equal2
         | |- _ :: _ = _ :: _ => apply f_equal2
         end;
  try reflexivity; try ring.

(** X6: for a valid Matrix, the identity of its dimension is neutral for
    [@] on either side; [@] between matrices of different dimensions raises
    ValueError. *)
Theorem matmul_identity_and_mismatch (a b : Matrix.t) :
  Matrix.__init__ (Matrix._data a) = Ok a ->
  Matrix.__init__ (Matrix._data b) = Ok b ->
  (exists i : Matrix.t,
     Matrix.identity (Matrix._dim a) = Ok i /\
     Matrix.__matmul__ a i = Ok a /\
     Matrix.__matmul__ i a = Ok a) /\
  (Matrix._dim a <> Matrix._dim b ->
   exists msg, Matrix.__matmul__ a b = Raise (ValueError msg)).
Proof.
  intros Ha Hb.
  apply init_matrix_inv in Ha as [Sa Ea], Hb as [Sb Eb].
  destruct a as [da na], b as [db nb]. cbn in *.
  injection Ea as ->. injection Eb as ->.
  split.
  - destruct Sa; eexists; (split; [reflexivity |]); split; array_eq.
  - intros Hne. destruct Sa, Sb; cbn in Hne; try contradiction;
      cbn; eauto.
Qed.

Lemma matmul_identity_and_mismatch_witness :
  exists msg,
    Matrix.__matmul__ (Matrix.mk [[1; 2]; [3; 4]] 2)
      (Matrix.mk [[1; 0; 0]; [0; 1; 0]; [0; 0; 1]] 3)
    = Raise (ValueError msg).
Proof.
  apply (proj2 (matmul_identity_and_mismatch
                  (Matrix.mk [[1; 2]; [3; 4]] 2)
                  (Matrix.mk [[1; 0; 0]; [0; 1; 0]; [0; 0; 1]] 3)
                  eq_refl eq_refl)).
  cbn. discriminate.
Defined.

(** In exact arithmetic the product of two 2D rotation matrices is the
    rotation by the sum of the angles. *)
Lemma rotations_compose (alpha beta : R) :
  exists ra rb rab : Matrix.t,
    Matrix.rotation alpha = Ok ra /\
    Matrix.rotation beta = Ok rb /\
    Matrix.rotation (alpha + beta) = Ok rab /\
    Matrix.__matmul__ ra rb = Ok rab.
Proof.
  do 3 eexists. repeat split; try reflexivity.
  cbn. rewrite cos_plus, sin_plus. array_eq.
Qed.

(** X7: [Matrix.rotation(angle)] returns, for every angle, the 2x2 matrix
    of the cosine and sine of the angle, with every entry within [-1, 1];
    for the angle 0 it is the identity matrix. *)
Theorem rotation_holds_cosine_and_sine (angle : R) :
  (exists r : Matrix.t,
     Matrix.rotation angle = Ok r /\
     Matrix._dim r = 2%nat /\
     Matrix._data r = [[cos angle; - sin angle]; [sin angle; cos angle]] /\
     Forall (Forall (fun x => -1 <= x <= 1)) (Matrix._data r)) /\
  Matrix.rotation 0 = Matrix.identity 2.
Proof.
  split.
  - eexists. split; [reflexivity |]. split; [reflexivity |].
    split; [reflexivity |]. cbn.
    pose proof (COS_bound angle). pose proof (SIN_bound angle).
    repeat first [apply Forall_nil | apply Forall_cons]; cbn beta; lra.
  - unfold Matrix.rotation. rewrite cos_0, sin_0, Ropp_0. reflexivity.
Qed.

(** In exact arithmetic [Matrix.projection(onto)] raises ZeroDivisionError
    for the zero direction, and for every other direction it returns a
    matrix [p] with [p @ p = p]. *)
Lemma projection_is_idempotent_or_raises (x y : R) :
  (x = 0 /\ y = 0 -> Matrix.projection (x, y) = Raise ZeroDivisionError) /\
  (x <> 0 \/ y <> 0 ->
   exists p : Matrix.t,
     Matrix.projection (x, y) = Ok p /\ Matrix.__matmul__ p p = Ok p).
Proof.
  split.
  - intros [-> ->]. unfold Matrix.projection, py_div.
    rewrite Reqb_true by ring. reflexivity.
  - intros Hnz.
    assert (Hn : x * x + y * y <> 0) by (destruct Hnz; nra).
    unfold Matrix.projection. rewrite !py_div_nonzero by exact Hn.
    cbn. eexists. split; [reflexivity |].
    array_eq; field; exact Hn.
Qed.

(** In binary64 the entries of a projection matrix are rounded: the
    first entry for the direction (1, 2) is 0.2, and 0.2 * 0.2 + 0.4 * 0.4,
    the first entry of the square, is another number. *)
Lemma projection_square_rounds :
  Binary64.projection_entry 1 2 = 0.2%float /\
  PrimFloat.eqb (0.2 * 0.2 + 0.4 * 0.4)%float 0.2%float = false.
Proof. split; reflexivity. Qed.

(** X8: for a direction with moderate coordinates,
    [Matrix.projection(onto)] raises ZeroDivisionError when both are zero;
    otherwise it returns a symmetric 2x2 matrix whose diagonal entries lie
    within [0, 1] and whose other entry lies within [-1, 1]. *)
Theorem projection_is_symmetric_or_raises (x y : R) :
  moderate x -> moderate y ->
  (x = 0 /\ y = 0 -> Matrix.projection (x, y) = Raise ZeroDivisionError) /\
  (x <> 0 \/ y <> 0 ->
   exists (p : Matrix.t) (a b d : R),
     Matrix.projection (x, y) = Ok p /\
     Matrix._dim p = 2%nat /\
     Matrix._data p = [[a; b]; [b; d]] /\
     Matrix.transpose p = Ok p /\
     0 <= a <= 1 /\ -1 <= b <= 1 /\ 0 <= d <= 1).
Proof.
  intros _ _. split.
  - intros [-> ->]. unfold Matrix.projection, py_div.
    rewrite Reqb_true by ring. reflexivity.
  - intros Hnz.
    assert (Hn : 0 < x * x + y * y) by (destruct Hnz; nra).
    unfold Matrix.projection. rewrite !py_div_nonzero by lra.
    cbn. do 4 eexists. split; [reflexivity |]. split; [reflexivity |].
    split; [reflexivity |]. split; [reflexivity |].
    set (n := x * x + y * y) in *.
    assert (Ha : x * x / n * n = x * x) by (field; lra).
    assert (Hb : x * y / n * n = x * y) by (field; lra).
    assert (Hd : y * y / n * n = y * y) by (field; lra).
    assert (Hxx : 0 <= x * x) by nra.
    assert (Hyy : 0 <= y * y) by nra.
    assert (Hm : 0 <= x * x - 2 * (x * y) + y * y).
    { replace (x * x - 2 * (x * y) + y * y) with (Rsqr (x - y))
        by (unfold Rsqr; ring).
      apply Rle_0_sqr. }
    assert (Hp : 0 <= x * x + 2 * (x * y) + y * y).
    { replace (x * x + 2 * (x * y) + y * y) with (Rsqr (x + y))
        by (unfold Rsqr; ring).
      apply Rle_0_sqr. }
    assert (Hxy : - n <= 2 * (x * y) <= n) by (unfold n; lra).
    repeat split.
    + apply Rmult_le_reg_r with n; lra.
    + apply Rmult_le_reg_r with n; [lra |]. rewrite Ha. unfold n. lra.
    + apply Rmult_le_reg_r with n; lra.
    + apply Rmult_le_reg_r with n; lra.
    + apply Rmult_le_reg_r with n; lra.
    + apply Rmult_le_reg_r with n; [lra |]. rewrite Hd. unfold n. lra.
Qed.

Lemma projection_is_symmetric_or_raises_witness :
  exists (p : Matrix.t) (a b d : R),
    Matrix.projection (3, 4) = Ok p /\
    Matrix._dim p = 2%nat /\
    Matrix._data p = [[a; b]; [b; d]] /\
    Matrix.transpose p = Ok p /\
    0 <= a <= 1 /\ -1 <= b <= 1 /\ 0 <= d <= 1.
Proof.
  apply (proj2 (projection_is_symmetric_or_raises 3 4
                  ltac:(moderate_literal) ltac:(moderate_literal))).
  left. lra.
Defined.

(** Transposing a valid Matrix twice gives the Matrix back. *)
Lemma transpose_is_an_involution (m : Matrix.t) :
  Matrix.__init__ (Matrix._data m) = Ok m ->
  exists mt : Matrix.t,
    Matrix.transpose m = Ok mt /\
    Matrix._dim mt = Matrix._dim m /\
    Matrix.transpose mt = Ok m.
Proof.
  intros Hm. apply init_matrix_inv in Hm as [Sm Em].
  destruct m as [dm nm]. cbn in *. injection Em as ->.
  destruct Sm; eexists; repeat split.
Qed.

Lemma transpose_is_an_involution_witness :
  exists mt : Matrix.t,
    Matrix.transpose (Matrix.mk [[1; 2]; [3; 4]] 2) = Ok mt /\
    Matrix._dim mt = 2%nat /\
    Matrix.transpose mt = Ok (Matrix.mk [[1; 2]; [3; 4]] 2).
Proof.
  apply (transpose_is_an_involution (Matrix.mk [[1; 2]; [3; 4]] 2)).
  reflexivity.
Defined.

(** ** GridTransformAnimation *)

Lemma eased_progress_total (a : Animation.t) :
  exists t : R, Animation.eased_progress a = Ok t.
Proof.
  unfold Animation.eased_progress, Animation.progress.
  destruct (Req_dec_T (Animation._duration a) 0) as [Hz | Hnz].
  - rewrite truthy_false by assumption. cbn. eauto.
  - rewrite truthy_true, py_div_nonzero by assumption. cbn. eauto.
Qed.

(** The interpolated matrix at eased progress [t]. *)
Lemma grid_value_at (a : Animation.t) (data : list ndarray) (t : R) :
  Animation.kind a = GridTransformAnimation data ->
  Animation.eased_progress a = Ok t ->
  SquareData data ->
  GridTransformAnimation.get_value a
  = Ok (np.zip_rows Rplus (np.eye (length data))
          (np.scale2 t (np.zip_rows Rminus data (np.eye (length data))))).
Proof.
  intros Hk Ht S. unfold GridTransformAnimation.get_value.
  rewrite Hk, Ht. destruct S; reflexivity.
Qed.

(** In exact arithmetic, for a valid Matrix, a duration [d > 0] and an
    easing with [f 0 = 0] and [f 1 = 1], a GridTransformAnimation yields
    the identity matrix before any update and the data of the Matrix after
    any run of updates that has brought the elapsed time to [d]. *)
Lemma grid_value_endpoints (m : Matrix.t) (d : R) (f : EasingFunc) :
  Matrix.__init__ (Matrix._data m) = Ok m ->
  d > 0 -> f 0 = 0 -> f 1 = 1 ->
  let a0 := GridTransformAnimation.__init__ m d (Some f) in
  GridTransformAnimation.get_value a0 = Ok (np.eye (Matrix._dim m)) /\
  forall dts : list R,
    Animation._elapsed (fold_left Animation.update dts a0) = d ->
    GridTransformAnimation.get_value (fold_left Animation.update dts a0)
    = Ok (Matrix._data m).
Proof.
  intros Hm Hd H0 H1 a0.
  apply init_matrix_inv in Hm as [S Em].
  destruct m as [data n]. cbn in S, Em. injection Em as En.
  cbn [Matrix._data Matrix._dim]. rewrite En.
  assert (Hk : Animation.kind a0 = GridTransformAnimation data) by reflexivity.
  split.
  - rewrite (grid_value_at a0 data 0); auto.
    + destruct S; array_eq.
    + unfold Animation.eased_progress.
      rewrite progress_at_zero by (cbn; lra). cbn. now rewrite H0.
  - intros dts He.
    rewrite (grid_value_at _ data 1); auto.
    + destruct S; array_eq.
    + now rewrite updates_kind.
    + unfold Animation.eased_progress.
      rewrite progress_at_duration
        by (rewrite updates_duration; cbn; exact He).
      cbn. rewrite updates_easing. cbn. now rewrite H1.
Qed.

(** X9: for a valid Matrix, a duration [d > 0] and an easing with [f 0 = 0]
    and [f 1 = 1], a GridTransformAnimation yields the identity matrix
    before any update, and in every state of a run a square array of the
    dimension of the Matrix.  Once a run of updates has brought the elapsed
    time to [d], the entries off the diagonal are those of the Matrix, and
    an entry [x] of its diagonal has become [1 + 1 * (x - 1)]. *)
Theorem grid_value_runs_from_the_identity
    (m : Matrix.t) (d : R) (f : EasingFunc) :
  Matrix.__init__ (Matrix._data m) = Ok m ->
  d > 0 -> f 0 = 0 -> f 1 = 1 ->
  let a0 := GridTransformAnimation.__init__ m d (Some f) in
  GridTransformAnimation.get_value a0 = Ok (np.eye (Matrix._dim m)) /\
  forall dts : list R,
    exists value : list ndarray,
      GridTransformAnimation.get_value (fold_left Animation.update dts a0)
      = Ok value /\
      length value = Matrix._dim m /\
      Forall (fun row => length row = Matrix._dim m) value /\
      (Animation._elapsed (fold_left Animation.update dts a0) = d ->
       forall i j : nat,
         (i < Matrix._dim m)%nat -> (j < Matrix._dim m)%nat ->
         nth j (nth i value []) 0
         = if Nat.eqb i j
           then 1 + 1 * (nth j (nth i (Matrix._data m) []) 0 - 1)
           else nth j (nth i (Matrix._data m) []) 0).
Proof.
  intros Hm Hd H0 H1 a0.
  apply init_matrix_inv in Hm as [S Em].
  destruct m as [data n]. cbn in S, Em. injection Em as En.
  cbn [Matrix._data Matrix._dim]. rewrite En.
  assert (Hk : Animation.kind a0 = GridTransformAnimation data) by reflexivity.
  split.
  - rewrite (grid_value_at a0 data 0); auto.
    + destruct S; array_eq.
    + unfold Animation.eased_progress.
      rewrite progress_at_zero by (cbn; lra). cbn. now rewrite H0.
  - intros dts.
    destruct (eased_progress_total (fold_left Animation.update dts a0))
      as [t Ht].
    rewrite (grid_value_at _ data t); auto; [| now rewrite updates_kind].
    eexists. split; [reflexivity |].
    split; [destruct S; reflexivity |].
    split; [destruct S; repeat constructor |].
    intros He.
    assert (Ht1 : t = 1).
    { unfold Animation.eased_progress in Ht.
      rewrite progress_at_duration in Ht
        by (rewrite updates_duration; cbn; exact He).
      cbn in Ht. rewrite updates_easing in Ht. cbn in Ht.
      rewrite H1 in Ht. now injection Ht. }
    subst t. intros i j Hi Hj.
    destruct S; cbn in Hi, Hj.
    + destruct i as [| [| i]], j as [| [| j]]; try lia; cbn; ring.
    + destruct i as [| [| [| i]]], j as [| [| [| j]]]; try lia; cbn; ring.
Qed.

Lemma grid_value_runs_from_the_identity_witness :
  let a0 := GridTransformAnimation.__init__
              (Matrix.mk [[2; 1]; [0; 2]] 2) 2 (Some Easing.linear) in
  GridTransformAnimation.get_value a0 = Ok [[1; 0]; [0; 1]] /\
  forall dts : list R,
    exists value : list ndarray,
      GridTransformAnimation.get_value (fold_left Animation.update dts a0)
      = Ok value /\
      length value = 2%nat /\
      Forall (fun row => length row = 2%nat) value /\
      (Animation._elapsed (fold_left Animation.update dts a0) = 2 ->
       forall i j : nat,
         (i < 2)%nat -> (j < 2)%nat ->
         nth j (nth i value []) 0
         = if Nat.eqb i j
           then 1 + 1 * (nth j (nth i [[2; 1]; [0; 2]] []) 0 - 1)
           else nth j (nth i [[2; 1]; [0; 2]] []) 0).
Proof.
  apply (grid_value_runs_from_the_identity
           (Matrix.mk [[2; 1]; [0; 2]] 2) 2 Easing.linear).
  - reflexivity.
  - lra.
  - reflexivity.
  - reflexivity.
Defined.

(** *** The grid lines *)

Lemma grid_value_shape (a : Animation.t) (data : list ndarray) :
  Animation.kind a = GridTransformAnimation data ->
  SquareData data ->
  exists value : list ndarray,
    GridTransformAnimation.get_value a = Ok value /\
    SquareData value /\ length value = length data.
Proof.
  intros Hk S. destruct (eased_progress_total a) as [t Ht].
  rewrite (grid_value_at a data t Hk Ht S).
  destruct S; eexists; (split; [reflexivity |]); split;
    try reflexivity; constructor.
Qed.

Lemma map_result_ok {A B : Type} (f : A -> Result B) (l : list A) :
  (forall x, In x l -> exists y, f x = Ok y) ->
  exists ys, map_result f l = Ok ys /\ length ys = length l.
Proof.
  induction l as [| x l IH]; intros H; cbn.
  - now exists [].
  - destruct (H x (or_introl eq_refl)) as [y ->].
    destruct IH as (ys & -> & Hlen); [intros; apply H; now right |].
    cbn. exists (y :: ys). cbn. now rewrite Hlen.
Qed.

Lemma py_range_nonpositive (n : Z) : (n <= 0)%Z -> py_range n = [].
Proof.
  intros H. unfold py_range.
  now replace (Z.to_nat n) with 0%nat by lia.
Qed.

Lemma py_range_positive (n : Z) :
  (0 < n)%Z -> exists rest, py_range n = 0%Z :: rest.
Proof.
  intros H. unfold py_range.
  replace (Z.to_nat n) with (S (Z.to_nat (n - 1))) by lia.
  cbn. eauto.
Qed.

Lemma py_range_length (n : Z) :
  (0 <= n)%Z -> Z.of_nat (length (py_range n)) = n.
Proof.
  intros H. unfold py_range. rewrite length_map, length_seq. lia.
Qed.

Lemma IZR_nonzero (z : Z) : z <> 0%Z -> Reqb (IZR z) 0 = false.
Proof.
  intros H. unfold Reqb. destruct (Req_dec_T (IZR z) 0) as [E | E].
  - now apply eq_IZR_R0 in E.
  - reflexivity.
Qed.

Lemma matvec_2 (value : list ndarray) (x y : R) :
  SquareData value -> length value = 2%nat ->
  exists p, np.matvec value [x; y] = Ok p.
Proof. intros S H. destruct S; [cbn; eauto | discriminate]. Qed.

Lemma matvec_3 (value : list ndarray) (x y z : R) :
  SquareData value -> length value = 3%nat ->
  exists p, np.matvec value [x; y; z] = Ok p.
Proof. intros S H. destruct S; [discriminate | cbn; eauto]. Qed.

Lemma matvec_2_on_3 (value : list ndarray) (x y : R) :
  SquareData value -> length value = 3%nat ->
  exists msg, np.matvec value [x; y] = Raise (ValueError msg).
Proof. intros S H. destruct S; [discriminate | cbn; eauto]. Qed.

Lemma matvec_3_on_2 (value : list ndarray) (x y z : R) :
  SquareData value -> length value = 2%nat ->
  exists msg, np.matvec value [x; y; z] = Raise (ValueError msg).
Proof. intros S H. destruct S; [cbn; eauto | discriminate]. Qed.

Lemma grid_points_positive_density
    (a : Animation.t) (data : list ndarray)
    (b2 : R * R * R * R) (b3 : R * R * R * R * R * R) (density : Z) :
  Animation.kind a = GridTransformAnimation data ->
  SquareData data ->
  (0 < density)%Z ->
  (length data = 2%nat ->
   (exists lines,
      GridTransformAnimation.get_grid_points a b2 density = Ok lines /\
      Z.of_nat (length lines) = (2 * (density + 1))%Z) /\
   (exists msg,
      GridTransformAnimation.get_grid_points_3d a b3 density
      = Raise (ValueError msg))) /\
  (length data = 3%nat ->
   (exists lines,
      GridTransformAnimation.get_grid_points_3d a b3 density = Ok lines /\
      Z.of_nat (length lines) = (2 * (density + 1))%Z) /\
   (exists msg,
      GridTransformAnimation.get_grid_points a b2 density
      = Raise (ValueError msg))).
Proof.
  intros Hk S Hd.
  destruct (grid_value_shape a data Hk S) as (value & Hv & Sv & Hlen).
  destruct b2 as [[[min_x min_y] max_x] max_y].
  destruct b3 as [[[[[lo_x lo_y] lo_z] hi_x] hi_y] hi_z].
  pose proof (IZR_nonzero density ltac:(lia)) as Hnz.
  destruct (py_range_positive (density + 1) ltac:(lia)) as [rest Hr].
  pose proof (py_range_length (density + 1) ltac:(lia)) as Hn.
  unfold GridTransformAnimation.get_grid_points,
    GridTransformAnimation.get_grid_points_3d, py_div.
  rewrite Hv, Hnz. cbn [bind].
  split; intros H; rewrite H in Hlen; split.
  - match goal with
    | |- context [map_result ?f ?l] =>
        destruct (map_result_ok f l) as (vertical & -> & Hlv)
    end.
    { intros i _. cbn [bind].
      destruct (matvec_2 value (min_x + IZR i / IZR density * (max_x - min_x))
                  min_y Sv Hlen) as [p1 ->].
      destruct (matvec_2 value (min_x + IZR i / IZR density * (max_x - min_x))
                  max_y Sv Hlen) as [p2 ->].
      cbn. eauto. }
    cbn [bind].
    match goal with
    | |- context [map_result ?f ?l] =>
        destruct (map_result_ok f l) as (horizontal & -> & Hlh)
    end.
    { intros i _. cbn [bind].
      destruct (matvec_2 value min_x
                  (min_y + IZR i / IZR density * (max_y - min_y)) Sv Hlen)
        as [p1 ->].
      destruct (matvec_2 value max_x
                  (min_y + IZR i / IZR density * (max_y - min_y)) Sv Hlen)
        as [p2 ->].
      cbn. eauto. }
    cbn [bind]. eexists. split; [reflexivity |].
    rewrite length_app, Hlv, Hlh. lia.
  - rewrite Hr. cbn [map_result bind].
    destruct (matvec_3_on_2 value (lo_x + IZR 0 / IZR density * (hi_x - lo_x))
                0 lo_z Sv Hlen) as [msg ->].
    cbn. eauto.
  - match goal with
    | |- context [map_result ?f ?l] =>
        destruct (map_result_ok f l) as (along_z & -> & Hlz)
    end.
    { intros i _. cbn [bind].
      destruct (matvec_3 value (lo_x + IZR i / IZR density * (hi_x - lo_x))
                  0 lo_z Sv Hlen) as [p1 ->].
      destruct (matvec_3 value (lo_x + IZR i / IZR density * (hi_x - lo_x))
                  0 hi_z Sv Hlen) as [p2 ->].
      cbn. eauto. }
    cbn [bind].
    match goal with
    | |- context [map_result ?f ?l] =>
        destruct (map_result_ok f l) as (along_x & -> & Hlx)
    end.
    { intros i _. cbn [bind].
      destruct (matvec_3 value lo_x 0
                  (lo_z + IZR i / IZR density * (hi_z - lo_z)) Sv Hlen)
        as [p1 ->].
      destruct (matvec_3 value hi_x 0
                  (lo_z + IZR i / IZR density * (hi_z - lo_z)) Sv Hlen)
        as [p2 ->].
      cbn. eauto. }
    cbn [bind]. eexists. split; [reflexivity |].
    rewrite length_app, Hlz, Hlx. lia.
  - rewrite Hr. cbn [map_result bind].
    destruct (matvec_2_on_3 value (min_x + IZR 0 / IZR density * (max_x - min_x))
                min_y Sv Hlen) as [msg ->].
    cbn. eauto.
Qed.


Lemma grid_points_degenerate_density
    (a : Animation.t) (data : list ndarray)
    (b2 : R * R * R * R) (b3 : R * R * R * R * R * R) (density : Z) :
  Animation.kind a = GridTransformAnimation data ->
  SquareData data ->
  (density = 0%Z ->
   GridTransformAnimation.get_grid_points a b2 density
   = Raise ZeroDivisionError /\
   GridTransformAnimation.get_grid_points_3d a b3 density
   = Raise ZeroDivisionError) /\
  ((density < 0)%Z ->
   GridTransformAnimation.get_grid_points a b2 density = Ok [] /\
   GridTransformAnimation.get_grid_points_3d a b3 density = Ok []).
Proof.
  intros Hk S.
  destruct (grid_value_shape a data Hk S) as (value & Hv & _).
  destruct b2 as [[[min_x min_y] max_x] max_y].
  destruct b3 as [[[[[lo_x lo_y] lo_z] hi_x] hi_y] hi_z].
  unfold GridTransformAnimation.get_grid_points,
    GridTransformAnimation.get_grid_points_3d.
  rewrite Hv. cbn [bind].
  split; intros H.
  - subst density. cbn. unfold py_div. rewrite Reqb_true by reflexivity.
    now split.
  - rewrite py_range_nonpositive by lia. now split.
Qed.

(** X10: with a density above zero, [get_grid_points] returns
    [2 * (density + 1)] lines for a 2x2 matrix and raises ValueError for a
    3x3 one, and [get_grid_points_3d] does the opposite; with density 0
    both raise ZeroDivisionError, and with a negative density both return
    the empty list. *)
Theorem grid_points_by_dimension_and_density
    (a : Animation.t) (data : list ndarray)
    (b2 : R * R * R * R) (b3 : R * R * R * R * R * R) (density : Z) :
  Animation.kind a = GridTransformAnimation data ->
  SquareData data ->
  ((0 < density)%Z ->
   (length data = 2%nat ->
    (exists lines,
       GridTransformAnimation.get_grid_points a b2 density = Ok lines /\
       Z.of_nat (length lines) = (2 * (density + 1))%Z) /\
    (exists msg,
       GridTransformAnimation.get_grid_points_3d a b3 density
       = Raise (ValueError msg))) /\
   (length data = 3%nat ->
    (exists lines,
       GridTransformAnimation.get_grid_points_3d a b3 density = Ok lines /\
       Z.of_nat (length lines) = (2 * (density + 1))%Z) /\
    (exists msg,
       GridTransformAnimation.get_grid_points a b2 density
       = Raise (ValueError msg)))) /\
  (density = 0%Z ->
   GridTransformAnimation.get_grid_points a b2 density
   = Raise ZeroDivisionError /\
   GridTransformAnimation.get_grid_points_3d a b3 density
   = Raise ZeroDivisionError) /\
  ((density < 0)%Z ->
   GridTransformAnimation.get_grid_points a b2 density = Ok [] /\
   GridTransformAnimation.get_grid_points_3d a b3 density = Ok []).
Proof.
  intros Hk S. split.
  - intros Hd. now apply (grid_points_positive_density a data).
  - now apply (grid_points_degenerate_density a data).
Qed.

Lemma grid_points_witness :
  let a := GridTransformAnimation.__init__
             (Matrix.mk [[2; 0]; [0; 2]] 2) 2 None in
  (exists lines,
     GridTransformAnimation.get_grid_points a (-5, -5, 5, 5) 10 = Ok lines /\
     Z.of_nat (length lines) = 22%Z) /\
  (exists msg,
     GridTransformAnimation.get_grid_points_3d a (-5, -5, -5, 5, 5, 5) 10
     = Raise (ValueError msg)).
Proof.
  apply (grid_points_by_dimension_and_density
           (GridTransformAnimation.__init__
              (Matrix.mk [[2; 0]; [0; 2]] 2) 2 None)
           [[2; 0]; [0; 2]] (-5, -5, 5, 5) (-5, -5, -5, 5, 5, 5) 10).
  - reflexivity.
  - constructor.
  - reflexivity.
  - reflexivity.
Defined.

(** ** Stores *)

Lemma get_alloc_new {A : Type} (s : Store A) (a : A) :
  Store.get (snd (Store.alloc s a)) (next s) = a.
Proof. unfold Store.get, Store.alloc. cbn. now rewrite Nat.eqb_refl. Qed.

Lemma get_alloc_old {A : Type} (s : Store A) (a : A) (r : ref) :
  r <> next s -> Store.get (snd (Store.alloc s a)) r = Store.get s r.
Proof.
  intros H. unfold Store.get, Store.alloc. cbn.
  apply Nat.eqb_neq in H. now rewrite H.
Qed.

Lemma next_modify {A : Type} (s : Store A) (r : ref) (f : A -> A) :
  next (Store.modify s r f) = next s.
Proof. reflexivity. Qed.

Lemma alloc_spec {A : Type} (s : Store A) (a : A) :
  exists s1 : Store A,
    Store.alloc s a = (next s, s1) /\
    next s1 = S (next s) /\
    Store.get s1 (next s) = a /\
    forall r : ref, r <> next s -> Store.get s1 r = Store.get s r.
Proof.
  exists (snd (Store.alloc s a)).
  split; [reflexivity |]. split; [reflexivity |].
  split; [apply get_alloc_new | intros r; apply get_alloc_old].
Qed.

(** ** Vector: derived vectors *)

Lemma init_ok (components : list R) (origin : option (list R))
    (vs : Store Vector.t) :
  Vector.valid_arity (length components) = true ->
  Vector.__init__ components origin vs
  = Ok (Store.alloc vs
          (Vector.mk components (length components)
             (stored_origin origin (length components))
             Vector.default_color None None None)).
Proof.
  intros H. unfold Vector.__init__. rewrite H. cbn [negb].
  destruct origin as [[| x xs] |]; reflexivity.
Qed.

Lemma copy_spec (self : ref) (vs : Store Vector.t) :
  allocated vs self ->
  Vector.valid_arity (length (Vector._components (Store.get vs self))) = true ->
  exists vs' : Store Vector.t,
    Vector.copy self vs = Ok (next vs, vs') /\
    next vs' = S (next vs) /\
    Store.get vs' (next vs) = copy_of (Store.get vs self) /\
    forall r : ref, r <> next vs -> Store.get vs' r = Store.get vs r.
Proof.
  intros Ha Hv. unfold Vector.copy. rewrite init_ok by exact Hv.
  unfold allocated in Ha.
  destruct (alloc_spec vs
              (Vector.mk (Vector._components (Store.get vs self))
                 (length (Vector._components (Store.get vs self)))
                 (stored_origin (Some (Vector._origin (Store.get vs self)))
                    (length (Vector._components (Store.get vs self))))
                 Vector.default_color None None None))
    as (vs1 & -> & Hn1 & Hnew & Hold).
  cbn [bind].
  eexists. split; [reflexivity |]. split; [now rewrite next_modify |].
  split.
  - rewrite get_modify_same, Hnew, Hold by lia. reflexivity.
  - intros r Hr. rewrite get_modify_other by exact Hr. now apply Hold.
Qed.

Lemma derive_spec (self : ref) (c : ndarray) (vs : Store Vector.t) :
  allocated vs self ->
  Vector.valid_arity (length c) = true ->
  Vector.valid_arity (length (Vector._components (Store.get vs self))) = true ->
  exists vs' : Store Vector.t,
    Vector.derive self c vs = Ok (next vs, vs') /\
    next vs' = S (S (next vs)) /\
    Store.get vs' (next vs)
    = derived_from (Store.get vs self) c (S (next vs)) /\
    Store.get vs' (S (next vs)) = copy_of (Store.get vs self) /\
    forall r : ref, allocated vs r -> Store.get vs' r = Store.get vs r.
Proof.
  intros Ha Hc Hv. unfold Vector.derive. rewrite init_ok by exact Hc.
  unfold allocated in Ha.
  destruct (alloc_spec vs
              (Vector.mk c (length c)
                 (stored_origin (Some (Vector._origin (Store.get vs self)))
                    (length c))
                 Vector.default_color None None None))
    as (vs1 & -> & Hn1 & Hnew & Hold).
  cbn [bind].
  assert (Hself1 : Store.get vs1 self = Store.get vs self)
    by (apply Hold; lia).
  rewrite Hself1.
  set (vs2 := Store.modify vs1 (next vs) _).
  assert (Hself2 : Store.get vs2 self = Store.get vs self).
  { unfold vs2. rewrite get_modify_other by lia. exact Hself1. }
  assert (Hn2 : next vs2 = S (next vs)) by (unfold vs2; now rewrite next_modify).
  destruct (copy_spec self vs2) as (vs3 & -> & Hn3 & Hcopy & Hframe).
  { unfold allocated. rewrite Hn2. lia. }
  { now rewrite Hself2. }
  cbn [bind]. rewrite Hn2 in *.
  eexists. split; [reflexivity |]. split; [now rewrite !next_modify |].
  split; [| split].
  - rewrite get_modify_same.
    rewrite (get_modify_other _ _ self) by lia.
    rewrite get_modify_same.
    rewrite (Hframe self) by lia. rewrite (Hframe (next vs)) by lia.
    rewrite Hself2. unfold vs2. rewrite get_modify_same, Hnew.
    reflexivity.
  - rewrite !get_modify_other by lia. rewrite Hcopy, Hself2. reflexivity.
  - intros r Hr. unfold allocated in Hr.
    rewrite !get_modify_other by lia. rewrite Hframe by lia.
    unfold vs2. rewrite get_modify_other by lia.
    apply Hold. lia.
Qed.

Lemma valid_arity_cases (l : list R) :
  Vector.valid_arity (length l) = true ->
  (exists x y, l = [x; y]) \/ (exists x y z, l = [x; y; z]).
Proof.
  destruct l as [| x [| y [| z [| w l]]]]; cbn; try discriminate; eauto.
Qed.

Lemma is_valid_arity (v : Vector.t) :
  is_valid v -> Vector.valid_arity (length (Vector._components v)) = true.
Proof. intros [-> H]. exact H. Qed.

Lemma derive_derives (self : ref) (c : ndarray) (vs : Store Vector.t) :
  allocated vs self ->
  Vector.valid_arity (length c) = true ->
  is_valid (Store.get vs self) ->
  derives (Vector.derive self c) vs self c.
Proof.
  intros Ha Hc Hv.
  destruct (derive_spec self c vs Ha Hc (is_valid_arity _ Hv))
    as (vs' & E & _ & H1 & H2 & H3).
  exists vs'. auto.
Qed.

Lemma scale_derives (self : ref) (vs : Store Vector.t) :
  allocated vs self ->
  is_valid (Store.get vs self) ->
  forall factor : R,
    derives (Vector.scale self factor) vs self
      (map (fun x => x * factor) (Vector._components (Store.get vs self))).
Proof.
  intros Ha Hv factor.
  apply (derive_derives self
           (map (fun x => x * factor)
              (Vector._components (Store.get vs self))) vs); auto.
  rewrite length_map. now apply is_valid_arity.
Qed.

(** X11: on valid Vectors of one dimension, [scale], [add] and [subtract]
    return a new Vector with the expected components, built at the origin
    of [self] with the color and scene of [self] and a fresh copy of [self]
    as previous state; no Vector that existed before the call is changed. *)
Theorem arithmetic_builds_new_vectors
    (self : ref) (vs : Store Vector.t) :
  allocated vs self ->
  is_valid (Store.get vs self) ->
  let s := Store.get vs self in
  (forall factor : R,
     derives (Vector.scale self factor) vs self
       (map (fun x => x * factor) (Vector._components s))) /\
  (forall other : ref,
     is_valid (Store.get vs other) ->
     Vector._dim (Store.get vs other) = Vector._dim s ->
     let o := Store.get vs other in
     derives (Vector.add self other) vs self
       (np.zip_with Rplus (Vector._components s) (Vector._components o)) /\
     derives (Vector.subtract self other) vs self
       (np.zip_with Rminus (Vector._components s) (Vector._components o))).
Proof.
  intros Ha Hv s. split.
  - now apply scale_derives.
  - intros other Ho Hd o. subst s o.
    assert (Hlen : length (Vector._components (Store.get vs self))
                   = length (Vector._components (Store.get vs other))).
    { destruct Hv as [Hs _], Ho as [Ho' _]. congruence. }
    pose proof (derive_derives self
                  (np.zip_with Rplus (Vector._components (Store.get vs self))
                     (Vector._components (Store.get vs other))) vs Ha) as Hadd.
    pose proof (derive_derives self
                  (np.zip_with Rminus (Vector._components (Store.get vs self))
                     (Vector._components (Store.get vs other))) vs Ha) as Hsub.
    rewrite zip_with_length in Hadd, Hsub by exact Hlen.
    specialize (Hadd (is_valid_arity _ Hv) Hv).
    specialize (Hsub (is_valid_arity _ Hv) Hv).
    unfold derives, Vector.add, Vector.subtract, np.add, np.subtract in *.
    rewrite Hd, Nat.eqb_refl. cbn [negb].
    rewrite !broadcast_same_shape by exact Hlen. cbn [bind].
    split; assumption.
Qed.

Lemma arithmetic_builds_new_vectors_witness :
  derives (Vector.scale 0%nat 2) Scenario.mixed_vectors 0%nat [1 * 2; 2 * 2].
Proof.
  apply (arithmetic_builds_new_vectors 0%nat Scenario.mixed_vectors).
  - unfold allocated. cbn. lia.
  - split; reflexivity.
Defined.

(** ** Vector: animating a derived vector *)

Lemma stored_origin_same (o : ndarray) (n : nat) :
  length o = n -> stored_origin (Some o) n = o.
Proof.
  intros H. destruct o as [| x xs]; [| reflexivity].
  cbn in *. now subst n.
Qed.

Lemma default_easing_endpoints (k : AnimationKind) (d : R) :
  let a := Animation.__init__ k d None in
  Animation._easing a 0 = 0 /\ Animation._easing a 1 = 1.
Proof. exact ease_in_out_cubic_anchored. Qed.

Lemma map_times_1 (l : list R) : map (fun x => x * 1) l = l.
Proof.
  induction l as [| x l IH]; cbn; [reflexivity |].
  f_equal; [ring | exact IH].
Qed.

(** X12: [v.scale(k).animate(d)], for a Vector and a factor of moderate
    size and [d > 0], leaves on the scaled Vector a pending VectorAnimation
    whose value is the components and origin of [v] before any update.
    Once the elapsed time has reached [d] the value is at the origin of
    [v], with the components [x + 1 * (x * k - x)] for the components [x]
    of [v]: those of [v] when [k] is 1. *)
Theorem scale_then_animate_runs_from_the_original
    (self : ref) (factor d : R) (n : nat)
    (vs : Store Vector.t) (anims : Store Animation.t) :
  allocated vs self ->
  has_dimension n (Store.get vs self) ->
  Vector.valid_arity n = true ->
  moderate_vector (Store.get vs self) ->
  moderate factor ->
  d > 0 ->
  exists (r : ref) (vs1 vs2 : Store Vector.t) (anims' : Store Animation.t),
    Vector.scale self factor vs = Ok (r, vs1) /\
    Vector.animate r d vs1 anims = (r, vs2, anims') /\
    Vector._pending_animation (Store.get vs2 r) = Some (next anims) /\
    let a0 := Store.get anims' (next anims) in
    VectorAnimation.get_value a0 vs2
    = Ok (Vector._components (Store.get vs self),
          Vector._origin (Store.get vs self)) /\
    forall dts : list R,
      Animation._elapsed (fold_left Animation.update dts a0) = d ->
      exists c : ndarray,
        VectorAnimation.get_value (fold_left Animation.update dts a0) vs2
        = Ok (c, Vector._origin (Store.get vs self)) /\
        c = lerp 1 (Vector._components (Store.get vs self))
              (map (fun x => x * factor)
                 (Vector._components (Store.get vs self))) /\
        (factor = 1 -> c = Vector._components (Store.get vs self)).
Proof.
  intros Ha (Hdim & Hc & Ho) Hn _ _ Hd.
  assert (Hv : is_valid (Store.get vs self)).
  { split; [congruence | now rewrite Hdim]. }
  destruct (scale_derives self vs Ha Hv factor)
    as (vs1 & E & Hr & Hp & Hframe).
  exists (next vs), vs1. rewrite E.
  unfold Vector.animate. rewrite Hr. cbn [derived_from Vector._previous_state].
  destruct (alloc_spec anims
              (Animation.__init__
                 (VectorAnimation (S (next vs)) (next vs)) d None))
    as (anims1 & -> & _ & Hnew & _).
  eexists. eexists. split; [reflexivity |]. split; [reflexivity |].
  split; [now rewrite get_modify_same, Hr |].
  cbv zeta. rewrite Hnew.
  set (vs2 := Store.modify vs1 (next vs) _).
  assert (Hstart : Store.get vs2 (S (next vs)) = copy_of (Store.get vs self)).
  { unfold vs2. rewrite get_modify_other by lia. exact Hp. }
  assert (Hend : Vector._components (Store.get vs2 (next vs))
                 = map (fun x => x * factor)
                     (Vector._components (Store.get vs self)) /\
                 Vector._origin (Store.get vs2 (next vs))
                 = Vector._origin (Store.get vs self)).
  { unfold vs2. rewrite get_modify_same, Hr. cbn.
    split; [reflexivity |].
    apply stored_origin_same. rewrite length_map. congruence. }
  destruct Hend as [Hec Heo].
  assert (Hsc : Vector._components (Store.get vs2 (S (next vs)))
                = Vector._components (Store.get vs self))
    by (now rewrite Hstart).
  assert (Hso : Vector._origin (Store.get vs2 (S (next vs)))
                = Vector._origin (Store.get vs self)).
  { rewrite Hstart. cbn. apply stored_origin_same. congruence. }
  assert (Lc : length (Vector._components (Store.get vs2 (S (next vs))))
               = length (Vector._components (Store.get vs2 (next vs))))
    by (now rewrite Hsc, Hec, length_map).
  assert (Lo : length (Vector._origin (Store.get vs2 (S (next vs))))
               = length (Vector._origin (Store.get vs2 (next vs))))
    by (now rewrite Hso, Heo).
  split.
  - rewrite (get_value_at _ vs2 (S (next vs)) (next vs) 0); auto.
    + rewrite !lerp_at_0 by assumption. now rewrite Hsc, Hso.
    + unfold Animation.eased_progress.
      rewrite progress_at_zero by (cbn; lra).
      cbn [bind]. f_equal. apply default_easing_endpoints.
  - intros dts He.
    rewrite (get_value_at _ vs2 (S (next vs)) (next vs) 1); auto.
    + eexists. split; [| split].
      * rewrite Hso, Heo. fold (lerp 1 (Vector._origin (Store.get vs self))
                                  (Vector._origin (Store.get vs self))).
        rewrite lerp_equal_ends. reflexivity.
      * rewrite Hsc, Hec. reflexivity.
      * intros ->. rewrite Hsc, Hec, map_times_1.
        apply lerp_equal_ends.
    + now rewrite updates_kind.
    + unfold Animation.eased_progress.
      rewrite progress_at_duration
        by (rewrite updates_duration; cbn; exact He).
      cbn [bind]. rewrite updates_easing. f_equal.
      apply default_easing_endpoints.
Qed.

Lemma scale_then_animate_witness :
  exists (r : ref) (vs1 vs2 : Store Vector.t) (anims' : Store Animation.t),
    Vector.scale 1%nat 2 Scenario.mixed_vectors = Ok (r, vs1) /\
    Vector.animate r 1 vs1 (Store.empty Scenario.blank) = (r, vs2, anims') /\
    Vector._pending_animation (Store.get vs2 r) = Some 0%nat /\
    let a0 := Store.get anims' 0%nat in
    VectorAnimation.get_value a0 vs2 = Ok ([3; 4], [1; 1]) /\
    forall dts : list R,
      Animation._elapsed (fold_left Animation.update dts a0) = 1 ->
      exists c : ndarray,
        VectorAnimation.get_value (fold_left Animation.update dts a0) vs2
        = Ok (c, [1; 1]) /\
        c = lerp 1 [3; 4] [3 * 2; 4 * 2] /\
        (2 = 1 -> c = [3; 4]).
Proof.
  apply (scale_then_animate_runs_from_the_original 1%nat 2 1 2%nat
           Scenario.mixed_vectors (Store.empty Scenario.blank)).
  - unfold allocated. cbn. lia.
  - repeat split; reflexivity.
  - reflexivity.
  - split; cbn; moderate_literals.
  - moderate_literal.
  - lra.
Defined.

(** ** Vector: products *)

Lemma zip_with_comm (f : R -> R -> R) (a b : ndarray) :
  (forall x y, f x y = f y x) -> np.zip_with f a b = np.zip_with f b a.
Proof.
  intros H. revert b. induction a as [| x a IH]; intros [| y b]; cbn;
    try reflexivity.
  now rewrite H, IH.
Qed.

Lemma sum_from (a : ndarray) (x : R) : fold_left Rplus a x = x + np.sum a.
Proof.
  unfold np.sum. revert x. induction a as [| y a IH]; intros x; cbn.
  - lra.
  - rewrite IH, (IH (0 + y)). lra.
Qed.

Lemma sum_cons (x : R) (a : ndarray) : np.sum (x :: a) = x + np.sum a.
Proof. unfold np.sum at 1. cbn. rewrite sum_from. lra. Qed.

Lemma sum_squares_nonneg (a : ndarray) : 0 <= np.sum (np.zip_with Rmult a a).
Proof.
  induction a as [| x a IH]; cbn [np.zip_with].
  - unfold np.sum. cbn. lra.
  - rewrite sum_cons. nra.
Qed.

(** In exact arithmetic the square of the norm is the sum of the
    squares. *)
Lemma norm_squared (a : ndarray) :
  np.norm a * np.norm a = np.sum (np.zip_with Rmult a a).
Proof. unfold np.norm. apply sqrt_sqrt, sum_squares_nonneg. Qed.

(** In exact arithmetic [a.dot(b)] and [b.dot(a)] have the same outcome,
    result or exception, and [a.dot(a)] is the square of [a.magnitude]. *)
Lemma dot_is_symmetric_and_squares_the_magnitude
    (a b : ref) (vs : Store Vector.t) :
  Vector.dot a b vs = Vector.dot b a vs /\
  Vector.dot a a vs
  = Ok (Vector.magnitude (Store.get vs a) * Vector.magnitude (Store.get vs a)).
Proof.
  unfold Vector.dot, np.dot, Vector.magnitude. split.
  - rewrite (Nat.eqb_sym (Vector._dim (Store.get vs b))).
    destruct (Nat.eqb _ _); cbn [negb].
    + rewrite (Nat.eqb_sym (length (Vector._components (Store.get vs b)))).
      now rewrite (zip_with_comm Rmult _ _ Rmult_comm).
    + (* the two messages are the same *) reflexivity.
  - rewrite !Nat.eqb_refl. cbn [negb]. now rewrite norm_squared.
Qed.

Lemma sum_squares_zero_iff (a : ndarray) :
  np.sum (np.zip_with Rmult a a) = 0 <-> Forall (fun x => x = 0) a.
Proof.
  induction a as [| x a IH]; cbn [np.zip_with].
  - split; [constructor | reflexivity].
  - rewrite sum_cons. pose proof (sum_squares_nonneg a) as Hn. split.
    + intros H. constructor; [nra |]. apply IH. nra.
    + intros H. inversion H as [| ? ? Hx Ha]; subst.
      apply IH in Ha. rewrite Ha. ring.
Qed.

Lemma norm_zero_iff (a : ndarray) :
  np.norm a = 0 <-> Forall (fun x => x = 0) a.
Proof.
  rewrite <- sum_squares_zero_iff. unfold np.norm. split.
  - intros H. apply sqrt_eq_0; [apply sum_squares_nonneg | exact H].
  - intros ->. apply sqrt_0.
Qed.

(** X13: for valid Vectors with moderate components, [a.dot(b)] and
    [b.dot(a)] have the same outcome, result or exception; [a.dot(a)]
    returns a number that is not negative, and that is zero exactly when
    every component of [a] is, as is the magnitude of [a]. *)
Theorem dot_is_symmetric_and_definite (a b : ref) (vs : Store Vector.t) :
  is_valid (Store.get vs a) -> is_valid (Store.get vs b) ->
  Forall moderate (Vector._components (Store.get vs a)) ->
  Forall moderate (Vector._components (Store.get vs b)) ->
  Vector.dot a b vs = Vector.dot b a vs /\
  exists x : R,
    Vector.dot a a vs = Ok x /\
    0 <= x /\
    (x = 0 <-> Forall (fun c => c = 0) (Vector._components (Store.get vs a))) /\
    0 <= Vector.magnitude (Store.get vs a) /\
    (Vector.magnitude (Store.get vs a) = 0 <-> x = 0).
Proof.
  intros _ _ _ _. unfold Vector.dot, np.dot, Vector.magnitude. split.
  - rewrite (Nat.eqb_sym (Vector._dim (Store.get vs b))).
    destruct (Nat.eqb _ _); cbn [negb].
    + rewrite (Nat.eqb_sym (length (Vector._components (Store.get vs b)))).
      now rewrite (zip_with_comm Rmult _ _ Rmult_comm).
    + reflexivity.
  - rewrite !Nat.eqb_refl. cbn [negb]. eexists. split; [reflexivity |].
    split; [apply sum_squares_nonneg |].
    split; [apply sum_squares_zero_iff |].
    split; [unfold np.norm; apply sqrt_pos |].
    rewrite norm_zero_iff. symmetry. apply sum_squares_zero_iff.
Qed.

Lemma dot_is_symmetric_and_definite_witness :
  Vector.dot 0%nat 1%nat Scenario.mixed_vectors
  = Vector.dot 1%nat 0%nat Scenario.mixed_vectors /\
  Vector.dot 0%nat 1%nat Scenario.mixed_vectors = Ok (0 + 1 * 3 + 2 * 4) /\
  exists x : R,
    Vector.dot 0%nat 0%nat Scenario.mixed_vectors = Ok x /\
    0 <= x /\
    (x = 0 <-> Forall (fun c => c = 0) [1; 2]) /\
    0 <= Vector.magnitude (Store.get Scenario.mixed_vectors 0%nat) /\
    (Vector.magnitude (Store.get Scenario.mixed_vectors 0%nat) = 0 <-> x = 0).
Proof.
  pose proof (dot_is_symmetric_and_definite 0%nat 1%nat
                Scenario.mixed_vectors) as H.
  destruct H as [Hs Hx].
  - split; reflexivity.
  - split; reflexivity.
  - cbn. moderate_literals.
  - cbn. moderate_literals.
  - split; [exact Hs |]. split; [reflexivity | exact Hx].
Defined.

(** ** Vector: normalized *)

Lemma sum_squares_divide (a : ndarray) (m : R) :
  m <> 0 ->
  np.sum (np.zip_with Rmult (np.divide a m) (np.divide a m))
  = np.sum (np.zip_with Rmult a a) / (m * m).
Proof.
  intros Hm. induction a as [| x a IH]; cbn [np.divide map np.zip_with].
  - unfold np.sum. cbn. field. exact Hm.
  - rewrite !sum_cons. unfold np.divide in IH. rewrite IH. field. exact Hm.
Qed.

Lemma norm_nonneg (a : ndarray) : 0 <= np.norm a.
Proof. unfold np.norm. apply sqrt_pos. Qed.

(** In exact arithmetic [normalized] of a valid Vector returns a new Vector
    at the zero origin without previous state: of magnitude 1 when the
    magnitude of [self] is not zero, with the components of [self] when it
    is zero. *)
Lemma normalized_has_unit_length (self : ref) (vs : Store Vector.t) :
  is_valid (Store.get vs self) ->
  exists vs' : Store Vector.t,
    Vector.normalized self vs = Ok (next vs, vs') /\
    let s := Store.get vs self in
    let r := Store.get vs' (next vs) in
    (Vector.magnitude s <> 0 -> Vector.magnitude r = 1) /\
    (Vector.magnitude s = 0 ->
     Vector._components r = Vector._components s) /\
    Vector._origin r = np.zeros (Vector._dim s) /\
    Vector._previous_state r = None /\
    forall q : ref, q <> next vs -> Store.get vs' q = Store.get vs q.
Proof.
  intros Hv. pose proof (is_valid_arity _ Hv) as Ha.
  destruct Hv as [Hlen _].
  unfold Vector.normalized.
  destruct (Reqb (Vector.magnitude (Store.get vs self)) 0) eqn:E.
  - rewrite init_ok by exact Ha.
    destruct (alloc_spec vs
                (Vector.mk (Vector._components (Store.get vs self))
                   (length (Vector._components (Store.get vs self)))
                   (stored_origin None
                      (length (Vector._components (Store.get vs self))))
                   Vector.default_color None None None))
      as (vs1 & -> & _ & Hnew & Hold).
    exists vs1. split; [reflexivity |]. cbv zeta. rewrite Hnew. cbn.
    split; [| split; [| split; [| split]]]; auto.
    + intros Hm. exfalso. apply Hm.
      unfold Reqb in E. now destruct (Req_dec_T _ 0).
  - assert (Hm : Vector.magnitude (Store.get vs self) <> 0).
    { unfold Reqb in E. now destruct (Req_dec_T _ 0). }
    assert (Hl : length (np.divide (Vector._components (Store.get vs self))
                           (Vector.magnitude (Store.get vs self)))
                 = length (Vector._components (Store.get vs self)))
      by apply length_map.
    rewrite init_ok by (now rewrite Hl).
    destruct (alloc_spec vs
                (Vector.mk
                   (np.divide (Vector._components (Store.get vs self))
                      (Vector.magnitude (Store.get vs self)))
                   (length
                      (np.divide (Vector._components (Store.get vs self))
                         (Vector.magnitude (Store.get vs self))))
                   (stored_origin None
                      (length
                         (np.divide (Vector._components (Store.get vs self))
                            (Vector.magnitude (Store.get vs self)))))
                   Vector.default_color None None None))
      as (vs1 & -> & _ & Hnew & Hold).
    exists vs1. split; [reflexivity |]. cbv zeta. rewrite Hnew. cbn.
    split; [| split; [| split; [| split]]]; auto.
    + intros _. unfold Vector.magnitude in *. cbn. unfold np.norm at 1.
      rewrite sum_squares_divide by exact Hm.
      rewrite <- norm_squared.
      replace (np.norm (Vector._components (Store.get vs self)) *
               np.norm (Vector._components (Store.get vs self)) /
               (np.norm (Vector._components (Store.get vs self)) *
                np.norm (Vector._components (Store.get vs self))))
        with 1 by (field; exact Hm).
      apply sqrt_1.
    + intros H0. contradiction.
    + now rewrite Hl, Hlen.
Qed.

Lemma component_squares_below_sum (a : ndarray) :
  Forall (fun x => x * x <= np.sum (np.zip_with Rmult a a)) a.
Proof.
  induction a as [| x a IH]; [constructor |].
  cbn [np.zip_with]. rewrite sum_cons.
  pose proof (sum_squares_nonneg a) as Hn. constructor; [lra |].
  apply Forall_impl with (2 := IH). intros y Hy. cbn beta in Hy. nra.
Qed.

Lemma quotient_in_unit_range (x m : R) :
  0 < m -> x * x <= m * m -> -1 <= x / m <= 1.
Proof.
  intros Hm Hx.
  assert (Hq : x / m * m = x) by (field; lra).
  assert (Hu : x <= m) by nra.
  assert (Hl : - m <= x) by nra.
  split; apply Rmult_le_reg_r with m; lra.
Qed.

(** X14: [normalized] of a valid Vector with moderate components returns
    a new Vector of the same dimension, at the zero origin, of the default
    color, without previous state, pending animation or scene.  Its
    components are those of [self] divided by the magnitude of [self], or
    those of [self] when that magnitude is zero, which it is exactly when
    every component is zero; each of them lies within [-1, 1].  No other
    Vector is changed. *)
Theorem normalized_divides_by_the_magnitude
    (self : ref) (vs : Store Vector.t) :
  is_valid (Store.get vs self) ->
  Forall moderate (Vector._components (Store.get vs self)) ->
  exists vs' : Store Vector.t,
    Vector.normalized self vs = Ok (next vs, vs') /\
    let s := Store.get vs self in
    let r := Store.get vs' (next vs) in
    (Vector.magnitude s <> 0 ->
     Vector._components r
     = np.divide (Vector._components s) (Vector.magnitude s)) /\
    (Vector.magnitude s = 0 ->
     Vector._components r = Vector._components s) /\
    (Vector.magnitude s = 0
     <-> Forall (fun x => x = 0) (Vector._components s)) /\
    Forall (fun x => -1 <= x <= 1) (Vector._components r) /\
    Vector._dim r = Vector._dim s /\
    Vector._origin r = np.zeros (Vector._dim s) /\
    Vector._color r = Vector.default_color /\
    Vector._pending_animation r = None /\
    Vector._previous_state r = None /\
    Vector._scene r = None /\
    forall q : ref, q <> next vs -> Store.get vs' q = Store.get vs q.
Proof.
  intros Hv _. pose proof (is_valid_arity _ Hv) as Ha.
  destruct Hv as [Hlen _].
  unfold Vector.normalized.
  destruct (Reqb (Vector.magnitude (Store.get vs self)) 0) eqn:E.
  - assert (Hm : Vector.magnitude (Store.get vs self) = 0).
    { unfold Reqb in E. now destruct (Req_dec_T _ 0). }
    rewrite init_ok by exact Ha.
    match goal with
    | |- context [Store.alloc vs ?v] =>
        destruct (alloc_spec vs v) as (vs1 & -> & _ & Hnew & Hold)
    end.
    exists vs1. split; [reflexivity |]. cbv zeta. rewrite Hnew. cbn.
    split; [intros Hne; contradiction |].
    split; [reflexivity |].
    split; [apply norm_zero_iff |].
    split.
    { apply norm_zero_iff in Hm.
      apply Forall_impl with (2 := Hm). intros x ->. lra. }
    repeat (split; [auto |]). auto.
  - assert (Hm : Vector.magnitude (Store.get vs self) <> 0).
    { unfold Reqb in E. now destruct (Req_dec_T _ 0). }
    assert (Hl : length (np.divide (Vector._components (Store.get vs self))
                           (Vector.magnitude (Store.get vs self)))
                 = length (Vector._components (Store.get vs self)))
      by apply length_map.
    rewrite init_ok by (now rewrite Hl).
    match goal with
    | |- context [Store.alloc vs ?v] =>
        destruct (alloc_spec vs v) as (vs1 & -> & _ & Hnew & Hold)
    end.
    exists vs1. split; [reflexivity |]. cbv zeta. rewrite Hnew. cbn.
    split; [reflexivity |].
    split; [intros H0; contradiction |].
    split; [apply norm_zero_iff |].
    split.
    { unfold Vector.magnitude in *.
      pose proof (norm_nonneg (Vector._components (Store.get vs self))) as Hn.
      pose proof (component_squares_below_sum
                    (Vector._components (Store.get vs self))) as Hs.
      rewrite <- norm_squared in Hs.
      unfold np.divide. apply Forall_map.
      apply Forall_impl with (2 := Hs). intros x Hx. cbn beta in Hx.
      apply quotient_in_unit_range; [lra | exact Hx]. }
    split; [now rewrite Hl |].
    split; [now rewrite Hl, Hlen |].
    repeat (split; [auto |]). auto.
Qed.

Lemma normalized_divides_by_the_magnitude_witness :
  exists vs' : Store Vector.t,
    Vector.normalized 0%nat Scenario.spatial_vectors = Ok (3%nat, vs') /\
    let s := Store.get Scenario.spatial_vectors 0%nat in
    let r := Store.get vs' 3%nat in
    (Vector.magnitude s <> 0 ->
     Vector._components r = np.divide [1; 0; 0] (Vector.magnitude s)) /\
    (Vector.magnitude s = 0 -> Vector._components r = [1; 0; 0]) /\
    (Vector.magnitude s = 0 <-> Forall (fun x => x = 0) [1; 0; 0]) /\
    Forall (fun x => -1 <= x <= 1) (Vector._components r) /\
    Vector._dim r = 3%nat /\
    Vector._origin r = [0; 0; 0] /\
    Vector._color r = Vector.default_color /\
    Vector._pending_animation r = None /\
    Vector._previous_state r = None /\
    Vector._scene r = None /\
    forall q : ref, q <> 3%nat ->
      Store.get vs' q = Store.get Scenario.spatial_vectors q.
Proof.
  apply (normalized_divides_by_the_magnitude 0%nat Scenario.spatial_vectors).
  - split; reflexivity.
  - cbn. moderate_literals.
Defined.

(** ** Vector: cross *)

Lemma components_3 (v : Vector.t) :
  is_valid v -> Vector._dim v = 3%nat ->
  exists x y z, Vector._components v = [x; y; z].
Proof.
  intros [Hlen _] Hd. rewrite Hd in Hlen.
  destruct (Vector._components v) as [| x [| y [| z [| w l]]]];
    try discriminate.
  eauto.
Qed.

(** In exact arithmetic the [cross] of two valid 3D Vectors is a new Vector
    whose dot product with each operand is 0. *)
Lemma cross_is_orthogonal_to_both_operands
    (a b : ref) (vs : Store Vector.t) :
  allocated vs a -> allocated vs b ->
  is_valid (Store.get vs a) -> is_valid (Store.get vs b) ->
  (Vector._dim (Store.get vs a) = 3%nat ->
   Vector._dim (Store.get vs b) = 3%nat ->
   exists vs' : Store Vector.t,
     Vector.cross a b vs = Ok (next vs, vs') /\
     Vector.dot (next vs) a vs' = Ok 0 /\
     Vector.dot (next vs) b vs' = Ok 0) /\
  (Vector._dim (Store.get vs a) <> 3%nat \/
   Vector._dim (Store.get vs b) <> 3%nat ->
   exists msg, Vector.cross a b vs = Raise (ValueError msg)).
Proof.
  intros Ha Hb Hva Hvb. unfold allocated in *. split.
  - intros Da Db.
    destruct (components_3 _ Hva Da) as (a1 & a2 & a3 & Ea).
    destruct (components_3 _ Hvb Db) as (b1 & b2 & b3 & Eb).
    unfold Vector.cross. rewrite Da, Db, Ea, Eb. cbn [Nat.eqb negb orb].
    rewrite init_ok by reflexivity.
    match goal with
    | |- context [Store.alloc vs ?v] =>
        destruct (alloc_spec vs v) as (vs1 & -> & _ & Hnew & Hold)
    end.
    exists vs1. split; [reflexivity |].
    unfold Vector.dot. rewrite Hnew, (Hold a), (Hold b) by lia.
    rewrite Da, Db, Ea, Eb. cbn. unfold np.dot, np.sum. cbn.
    split; f_equal; ring.
  - intros H. unfold Vector.cross.
    destruct H as [H | H]; apply Nat.eqb_neq in H; rewrite H; cbn.
    + eauto.
    + rewrite orb_true_r. eauto.
Qed.

(** X15: the [cross] of two valid 3D Vectors with moderate components is a
    new Vector at the zero origin, without previous state, and no Vector
    that existed before is changed.  Taken in the other order, every
    component changes its sign; between Vectors of equal components every
    component is 0.  When an operand is not 3D, [cross] raises
    ValueError. *)
Theorem cross_changes_sign_with_the_order
    (a b : ref) (vs : Store Vector.t) :
  allocated vs a -> allocated vs b ->
  is_valid (Store.get vs a) -> is_valid (Store.get vs b) ->
  Forall moderate (Vector._components (Store.get vs a)) ->
  Forall moderate (Vector._components (Store.get vs b)) ->
  (Vector._dim (Store.get vs a) = 3%nat ->
   Vector._dim (Store.get vs b) = 3%nat ->
   exists vs1 vs2 : Store Vector.t,
     Vector.cross a b vs = Ok (next vs, vs1) /\
     Vector.cross b a vs = Ok (next vs, vs2) /\
     Vector._components (Store.get vs2 (next vs))
     = map Ropp (Vector._components (Store.get vs1 (next vs))) /\
     (Vector._components (Store.get vs a) = Vector._components (Store.get vs b) ->
      Vector._components (Store.get vs1 (next vs)) = [0; 0; 0]) /\
     Vector._dim (Store.get vs1 (next vs)) = 3%nat /\
     Vector._origin (Store.get vs1 (next vs)) = [0; 0; 0] /\
     Vector._previous_state (Store.get vs1 (next vs)) = None /\
     forall r : ref, allocated vs r -> Store.get vs1 r = Store.get vs r) /\
  (Vector._dim (Store.get vs a) <> 3%nat \/
   Vector._dim (Store.get vs b) <> 3%nat ->
   exists msg, Vector.cross a b vs = Raise (ValueError msg)).
Proof.
  intros Ha Hb Hva Hvb _ _. unfold allocated in *. split.
  - intros Da Db.
    destruct (components_3 _ Hva Da) as (a1 & a2 & a3 & Ea).
    destruct (components_3 _ Hvb Db) as (b1 & b2 & b3 & Eb).
    unfold Vector.cross. rewrite Da, Db, Ea, Eb. cbn [Nat.eqb negb orb].
    rewrite !init_ok by reflexivity.
    destruct (alloc_spec vs
                (Vector.mk
                   [a2 * b3 - a3 * b2; a3 * b1 - a1 * b3; a1 * b2 - a2 * b1]
                   3 (stored_origin None 3) Vector.default_color
                   None None None))
      as (vs1 & E1 & _ & Hnew1 & Hold1).
    destruct (alloc_spec vs
                (Vector.mk
                   [b2 * a3 - b3 * a2; b3 * a1 - b1 * a3; b1 * a2 - b2 * a1]
                   3 (stored_origin None 3) Vector.default_color
                   None None None))
      as (vs2 & E2 & _ & Hnew2 & Hold2).
    cbn [length] in *. rewrite E1, E2.
    exists vs1, vs2. split; [reflexivity |]. split; [reflexivity |].
    rewrite Hnew1, Hnew2. cbn.
    split; [repeat (apply f_equal2; [ring |]); reflexivity |].
    split.
    { intros H. injection H as -> -> ->.
      repeat (apply f_equal2; [ring |]). reflexivity. }
    repeat (split; [reflexivity |]).
    intros r Hr. apply Hold1. lia.
  - intros H. unfold Vector.cross.
    destruct H as [H | H]; apply Nat.eqb_neq in H; rewrite H; cbn.
    + eauto.
    + rewrite orb_true_r. eauto.
Qed.

Lemma cross_changes_sign_with_the_order_witness :
  exists vs1 vs2 : Store Vector.t,
    Vector.cross 0%nat 1%nat Scenario.spatial_vectors = Ok (3%nat, vs1) /\
    Vector.cross 1%nat 0%nat Scenario.spatial_vectors = Ok (3%nat, vs2) /\
    Vector._components (Store.get vs2 3%nat)
    = map Ropp (Vector._components (Store.get vs1 3%nat)) /\
    ([1; 0; 0] = [0; 1; 0] ->
     Vector._components (Store.get vs1 3%nat) = [0; 0; 0]) /\
    Vector._dim (Store.get vs1 3%nat) = 3%nat /\
    Vector._origin (Store.get vs1 3%nat) = [0; 0; 0] /\
    Vector._previous_state (Store.get vs1 3%nat) = None /\
    forall r : ref,
      allocated Scenario.spatial_vectors r ->
      Store.get vs1 r = Store.get Scenario.spatial_vectors r.
Proof.
  apply (cross_changes_sign_with_the_order 0%nat 1%nat
           Scenario.spatial_vectors).
  - unfold allocated. cbn. lia.
  - unfold allocated. cbn. lia.
  - split; reflexivity.
  - split; reflexivity.
  - cbn. moderate_literals.
  - cbn. moderate_literals.
  - reflexivity.
  - reflexivity.
Defined.

(** ** Vector: angle_with *)

Lemma clip_bounds (x lo hi : R) :
  lo <= hi -> lo <= np.clip x lo hi <= hi.
Proof.
  intros H. unfold np.clip, Rmin, Rmax.
  destruct (Rle_dec x lo), (Rle_dec hi _); lra.
Qed.

Lemma sum_squares_zero (a b : ndarray) :
  np.sum (np.zip_with Rmult a a) = 0 -> np.sum (np.zip_with Rmult a b) = 0.
Proof.
  revert b. induction a as [| x a IH]; intros b H.
  - reflexivity.
  - destruct b as [| y b]; [reflexivity |].
    cbn [np.zip_with] in *. rewrite sum_cons in *.
    pose proof (sum_squares_nonneg a) as Hn.
    assert (Hx : x = 0) by nra.
    rewrite IH by nra. subst x. lra.
Qed.

Lemma zero_norm_dot (a b : ndarray) :
  np.norm a = 0 -> np.sum (np.zip_with Rmult a b) = 0.
Proof.
  intros H. apply sum_squares_zero. rewrite <- norm_squared, H. lra.
Qed.

(** X16: between valid Vectors of one dimension with moderate components
    [angle_with] returns an angle in [0, pi] that does not depend on the
    order of the two, and [pi / 2] when every component of [self] is 0;
    between Vectors of different dimensions it raises ValueError. *)
Theorem angle_with_is_a_half_turn_at_most
    (a b : ref) (vs : Store Vector.t) :
  is_valid (Store.get vs a) -> is_valid (Store.get vs b) ->
  Forall moderate (Vector._components (Store.get vs a)) ->
  Forall moderate (Vector._components (Store.get vs b)) ->
  (Vector._dim (Store.get vs a) = Vector._dim (Store.get vs b) ->
   exists theta : R,
     Vector.angle_with a b vs = Ok theta /\
     Vector.angle_with b a vs = Ok theta /\
     0 <= theta <= PI /\
     (Forall (fun x => x = 0) (Vector._components (Store.get vs a)) ->
      theta = PI / 2)) /\
  (Vector._dim (Store.get vs a) <> Vector._dim (Store.get vs b) ->
   exists msg, Vector.angle_with a b vs = Raise (ValueError msg)).
Proof.
  intros [La _] [Lb _] _ _. split.
  - intros Hd. unfold Vector.angle_with.
    rewrite Hd, Nat.eqb_refl. cbn [negb].
    rewrite !dot_same_shape by congruence. cbn [bind].
    eexists. split; [reflexivity |]. split; [| split].
    + rewrite (zip_with_comm Rmult _ _ Rmult_comm).
      now rewrite (Rmult_comm (Vector.magnitude (Store.get vs b))).
    + unfold np.arccos. apply acos_bound.
    + intros Hz0. unfold np.arccos.
      assert (Hm : Vector.magnitude (Store.get vs a) = 0)
        by (now apply norm_zero_iff).
      assert (Hz : np.sum (np.zip_with Rmult
                     (Vector._components (Store.get vs a))
                     (Vector._components (Store.get vs b))) = 0).
      { now apply zero_norm_dot. }
      rewrite Hz, Hm. unfold Rdiv. rewrite Rmult_0_l.
      unfold np.clip, Rmin, Rmax.
      destruct (Rle_dec 0 (-1)); [lra |].
      destruct (Rle_dec 1 0); [lra |]. apply acos_0.
  - intros H. unfold Vector.angle_with.
    apply Nat.eqb_neq in H. rewrite H. cbn. eauto.
Qed.

Lemma angle_with_witness :
  exists theta : R,
    Vector.angle_with 0%nat 1%nat Scenario.mixed_vectors = Ok theta /\
    Vector.angle_with 1%nat 0%nat Scenario.mixed_vectors = Ok theta /\
    0 <= theta <= PI /\
    (Forall (fun x => x = 0) [1; 2] -> theta = PI / 2).
Proof.
  apply (angle_with_is_a_half_turn_at_most 0%nat 1%nat Scenario.mixed_vectors).
  - split; reflexivity.
  - split; reflexivity.
  - cbn. moderate_literals.
  - cbn. moderate_literals.
  - reflexivity.
Defined.

(** ** Vector: project_onto *)

Lemma scale_length (t : R) (a : ndarray) : length (np.scale t a) = length a.
Proof. apply length_map. Qed.

Lemma sum_zip_scale_l (t : R) (a b : ndarray) :
  np.sum (np.zip_with Rmult (np.scale t a) b)
  = t * np.sum (np.zip_with Rmult a b).
Proof.
  revert b. induction a as [| x a IH]; intros [| y b];
    cbn [np.scale map np.zip_with]; try (unfold np.sum; cbn; lra).
  rewrite !sum_cons. unfold np.scale in IH. rewrite IH. ring.
Qed.

Lemma sum_zip_minus_l (a b c : ndarray) :
  length a = length b ->
  np.sum (np.zip_with Rmult (np.zip_with Rminus a b) c)
  = np.sum (np.zip_with Rmult a c) - np.sum (np.zip_with Rmult b c).
Proof.
  revert b c. induction a as [| x a IH]; intros [| y b] [| z c] H;
    cbn [np.zip_with] in *; try discriminate; try (unfold np.sum; cbn; lra).
  rewrite !sum_cons, IH by (now injection H). ring.
Qed.

(** In exact arithmetic, for valid Vectors of one dimension, when
    [other.dot(other)] is at least [1e-10], subtracting
    [self.project_onto(other)] from [self] gives a Vector whose dot product
    with [other] is 0. *)
Lemma projection_leaves_an_orthogonal_residual
    (self other : ref) (vs : Store Vector.t) :
  allocated vs self -> allocated vs other ->
  is_valid (Store.get vs self) -> is_valid (Store.get vs other) ->
  Vector._dim (Store.get vs self) = Vector._dim (Store.get vs other) ->
  let o := Vector._components (Store.get vs other) in
  (np.sum (np.zip_with Rmult o o) >= 1e-10 ->
   exists (vs1 vs2 : Store Vector.t),
     Vector.project_onto self other vs = Ok (next vs, vs1) /\
     Vector.subtract self (next vs) vs1 = Ok (next vs1, vs2) /\
     Vector.dot (next vs1) other vs2 = Ok 0) /\
  (np.sum (np.zip_with Rmult o o) < 1e-10 ->
   exists vs1 : Store Vector.t,
     Vector.project_onto self other vs = Ok (next vs, vs1) /\
     Vector._components (Store.get vs1 (next vs))
     = np.zeros (Vector._dim (Store.get vs self)) /\
     Vector._previous_state (Store.get vs1 (next vs)) = None).
Proof.
  intros Ha Hb Hvs Hvo Hd o.
  pose proof (is_valid_arity _ Hvs) as Hars.
  pose proof (is_valid_arity _ Hvo) as Haro.
  assert (Hlen : length (Vector._components (Store.get vs self))
                 = length (Vector._components (Store.get vs other))).
  { destruct Hvs as [-> _], Hvo as [-> _]. exact Hd. }
  unfold Vector.project_onto. rewrite Hd, Nat.eqb_refl. cbn [negb].
  rewrite dot_same_shape by reflexivity. cbn [bind]. fold o.
  split; intros Hmag.
  - rewrite Rltb_false by lra.
    rewrite dot_same_shape by exact Hlen. cbn [bind].
    set (p := np.scale _ _).
    assert (Hp : length p = length o) by apply scale_length.
    destruct (derive_spec self p vs Ha) as (vs1 & -> & Hn1 & Hr & _ & Hframe);
      [now rewrite Hp | exact Hars |].
    exists vs1.
    assert (Hs1 : Store.get vs1 self = Store.get vs self) by now apply Hframe.
    assert (Ho1 : Store.get vs1 other = Store.get vs other)
      by now apply Hframe.
    unfold Vector.subtract. rewrite Hs1, Hr.
    cbn [derived_from Vector._dim Vector._components].
    destruct Hvs as [Ls _]. rewrite <- Ls, Hp. fold o in Hlen.
    rewrite <- Hlen, Nat.eqb_refl. cbn [negb].
    unfold np.subtract. rewrite broadcast_same_shape by congruence.
    cbn [bind].
    set (q := np.zip_with Rminus _ _).
    assert (Hq : length q = length (Vector._components (Store.get vs self))).
    { unfold q. apply zip_with_length. congruence. }
    destruct (derive_spec self q vs1) as (vs2 & -> & _ & Hr2 & _ & Hframe2).
    { unfold allocated in *. lia. }
    { now rewrite Hq. }
    { now rewrite Hs1. }
    exists vs2. split; [reflexivity |]. split; [reflexivity |].
    unfold Vector.dot. rewrite Hr2.
    rewrite (Hframe2 other) by (unfold allocated in *; lia).
    rewrite Ho1. cbn [derived_from Vector._dim Vector._components].
    destruct Hvo as [Lo _]. rewrite <- Lo. fold o.
    rewrite Hq, Hlen, Nat.eqb_refl. cbn [negb].
    rewrite dot_same_shape by congruence. f_equal.
    unfold q. rewrite sum_zip_minus_l by congruence.
    unfold p. rewrite sum_zip_scale_l. fold o.
    field. lra.
  - rewrite Rltb_true by lra.
    destruct Hvs as [Ls Hs]. rewrite <- Hd.
    rewrite init_ok by (unfold np.zeros; rewrite repeat_length; exact Hs).
    match goal with
    | |- context [Store.alloc vs ?v] =>
        destruct (alloc_spec vs v) as (vs1 & -> & _ & Hnew & Hold)
    end.
    exists vs1. split; [reflexivity |]. now rewrite Hnew.
Qed.

(** X17: for valid Vectors of one dimension with moderate components,
    [self.project_onto(other)] depends on [other.dot(other)].  From [1e-10]
    on, it builds a new Vector from [self], as [scale] does, with the
    components of [other] times [self.dot(other) / other.dot(other)].
    Below [1e-10] it returns the zero Vector of that dimension at the zero
    origin, without previous state, so that [animate] on it changes
    nothing.  No Vector that existed before is changed. *)
Theorem project_onto_scales_the_target
    (self other : ref) (vs : Store Vector.t) :
  allocated vs self -> allocated vs other ->
  is_valid (Store.get vs self) -> is_valid (Store.get vs other) ->
  Forall moderate (Vector._components (Store.get vs self)) ->
  Forall moderate (Vector._components (Store.get vs other)) ->
  Vector._dim (Store.get vs self) = Vector._dim (Store.get vs other) ->
  let s := Vector._components (Store.get vs self) in
  let o := Vector._components (Store.get vs other) in
  (np.sum (np.zip_with Rmult o o) >= 1e-10 ->
   derives (Vector.project_onto self other) vs self
     (np.scale (np.sum (np.zip_with Rmult s o)
                / np.sum (np.zip_with Rmult o o)) o)) /\
  (np.sum (np.zip_with Rmult o o) < 1e-10 ->
   exists vs1 : Store Vector.t,
     Vector.project_onto self other vs = Ok (next vs, vs1) /\
     Vector._components (Store.get vs1 (next vs))
     = np.zeros (Vector._dim (Store.get vs self)) /\
     Vector._origin (Store.get vs1 (next vs))
     = np.zeros (Vector._dim (Store.get vs self)) /\
     Vector._previous_state (Store.get vs1 (next vs)) = None /\
     (forall (d : R) (anims : Store Animation.t),
        Vector.animate (next vs) d vs1 anims = (next vs, vs1, anims)) /\
     forall r : ref, allocated vs r -> Store.get vs1 r = Store.get vs r).
Proof.
  intros Ha Hb Hvs Hvo _ _ Hd s o.
  pose proof (is_valid_arity _ Hvs) as Hars.
  pose proof (is_valid_arity _ Hvo) as Haro.
  assert (Hlen : length s = length o).
  { unfold s, o. destruct Hvs as [-> _], Hvo as [-> _]. exact Hd. }
  split; intros Hmag.
  - pose proof (derive_derives self
                  (np.scale (np.sum (np.zip_with Rmult s o)
                             / np.sum (np.zip_with Rmult o o)) o) vs Ha)
      as Hder.
    rewrite scale_length in Hder. specialize (Hder Haro Hvs).
    unfold derives, Vector.project_onto in *.
    rewrite Hd, Nat.eqb_refl. cbn [negb].
    rewrite dot_same_shape by reflexivity. cbn [bind]. fold o.
    rewrite Rltb_false by lra.
    rewrite dot_same_shape by exact Hlen. cbn [bind]. exact Hder.
  - unfold Vector.project_onto. rewrite Hd, Nat.eqb_refl. cbn [negb].
    rewrite dot_same_shape by reflexivity. cbn [bind]. fold o.
    rewrite Rltb_true by lra.
    destruct Hvs as [Ls Hs]. rewrite <- Hd.
    rewrite init_ok by (unfold np.zeros; rewrite repeat_length; exact Hs).
    match goal with
    | |- context [Store.alloc vs ?v] =>
        destruct (alloc_spec vs v) as (vs1 & -> & _ & Hnew & Hold)
    end.
    exists vs1. split; [reflexivity |]. rewrite Hnew. cbn.
    unfold np.zeros. rewrite repeat_length.
    split; [reflexivity |]. split; [reflexivity |]. split; [reflexivity |].
    split.
    + intros d anims. unfold Vector.animate. rewrite Hnew. reflexivity.
    + intros r Hr. apply Hold. unfold allocated in Hr. lia.
Qed.

Lemma project_onto_scales_the_target_witness :
  derives (Vector.project_onto 0%nat 1%nat) Scenario.mixed_vectors 0%nat
    (np.scale (np.sum (np.zip_with Rmult [1; 2] [3; 4])
               / np.sum (np.zip_with Rmult [3; 4] [3; 4])) [3; 4]).
Proof.
  apply (project_onto_scales_the_target 0%nat 1%nat Scenario.mixed_vectors).
  - unfold allocated. cbn. lia.
  - unfold allocated. cbn. lia.
  - split; reflexivity.
  - split; reflexivity.
  - cbn. moderate_literals.
  - cbn. moderate_literals.
  - reflexivity.
  - cbn. unfold np.sum. cbn. lra.
Defined.

(** ** Vector: transform *)

Lemma transform_spec (self : ref) (m : Matrix.t) (vs : Store Vector.t)
    (c o : ndarray) :
  allocated vs self ->
  Vector.valid_arity (length (Vector._components (Store.get vs self))) = true ->
  np.matvec (Matrix._data m) (Vector._components (Store.get vs self)) = Ok c ->
  (if np.any (Vector._origin (Store.get vs self))
   then np.matvec (Matrix._data m) (Vector._origin (Store.get vs self))
   else Ok (Vector._origin (Store.get vs self))) = Ok o ->
  Vector.valid_arity (length c) = true ->
  exists vs' : Store Vector.t,
    Vector.transform self m vs = Ok (next vs, vs') /\
    next vs' = S (S (next vs)) /\
    Vector.valid_arity
      (length (Vector._components (Store.get vs' (next vs)))) = true /\
    Vector._components (Store.get vs' (next vs)) = c /\
    Vector._dim (Store.get vs' (next vs)) = length c /\
    Vector._origin (Store.get vs' (next vs))
    = stored_origin (Some o) (length c) /\
    Vector._previous_state (Store.get vs' (next vs)) = Some (S (next vs)) /\
    Store.get vs' (S (next vs)) = copy_of (Store.get vs self) /\
    forall r : ref, allocated vs r -> Store.get vs' r = Store.get vs r.
Proof.
  intros Ha Hv Hc Ho Hvc. unfold Vector.transform.
  rewrite Hc, Ho. cbn [bind]. rewrite init_ok by exact Hvc.
  unfold allocated in Ha.
  destruct (alloc_spec vs
              (Vector.mk c (length c) (stored_origin (Some o) (length c))
                 Vector.default_color None None None))
    as (vs1 & -> & Hn1 & Hnew & Hold).
  cbn [bind].
  assert (Hself1 : Store.get vs1 self = Store.get vs self)
    by (apply Hold; lia).
  rewrite Hself1.
  set (vs2 := Store.modify vs1 (next vs) _).
  assert (Hself2 : Store.get vs2 self = Store.get vs self).
  { unfold vs2. rewrite get_modify_other by lia. exact Hself1. }
  assert (Hn2 : next vs2 = S (next vs)) by (unfold vs2; now rewrite next_modify).
  destruct (copy_spec self vs2) as (vs3 & -> & Hn3 & Hcopy & Hframe).
  { unfold allocated. rewrite Hn2. lia. }
  { now rewrite Hself2. }
  cbn [bind]. rewrite Hn2 in *.
  match goal with
  | |- context [Ok (next vs, ?s)] => set (vs5 := s)
  end.
  assert (Hres : Store.get vs5 (next vs)
                 = Vector.mk c (length c) (stored_origin (Some o) (length c))
                     (Vector._color (Store.get vs self)) None
                     (Some (S (next vs)))
                     (Vector._scene (Store.get vs self))).
  { unfold vs5. rewrite get_modify_same.
    rewrite (get_modify_other _ _ self) by lia.
    rewrite get_modify_same.
    rewrite (Hframe self) by lia. rewrite (Hframe (next vs)) by lia.
    rewrite Hself2. unfold vs2. rewrite get_modify_same, Hnew.
    reflexivity. }
  exists vs5. split; [reflexivity |].
  split; [unfold vs5; now rewrite !next_modify |].
  rewrite Hres.
  cbn [Vector._components Vector._dim Vector._origin Vector._previous_state].
  split; [exact Hvc |]. do 4 (split; [reflexivity |]). split.
  - unfold vs5. rewrite !get_modify_other by lia. rewrite Hcopy, Hself2. reflexivity.
  - intros r Hr. unfold allocated in Hr. unfold vs5.
    rewrite !get_modify_other by lia. rewrite Hframe by lia.
    unfold vs2. rewrite get_modify_other by lia.
    apply Hold. lia.
Qed.


Lemma matvec_square (data : list ndarray) (v : ndarray) :
  SquareData data -> length v = length data ->
  np.matvec data v = Ok (apply_matrix data v).
Proof. intros S H. unfold np.matvec. destruct S; cbn in H; now rewrite H. Qed.

Lemma matvec_mismatch (data : list ndarray) (v : ndarray) :
  SquareData data -> length v <> length data ->
  exists msg, np.matvec data v = Raise (ValueError msg).
Proof.
  intros S H. unfold np.matvec, np.rectangular.
  destruct S; cbn [forallb length] in *.
  - destruct (Nat.eqb_spec 2 (length v)); [congruence | cbn; eauto].
  - destruct (Nat.eqb_spec 3 (length v)); [congruence | cbn; eauto].
Qed.

Lemma apply_matrix_length (data : list ndarray) (v : ndarray) :
  length (apply_matrix data v) = length data.
Proof. apply length_map. Qed.

Lemma square_arity (data : list ndarray) :
  SquareData data -> Vector.valid_arity (length data) = true.
Proof. now intros []. Qed.

Lemma transform_square (self : ref) (m : Matrix.t) (n : nat)
    (vs : Store Vector.t) :
  allocated vs self ->
  has_dimension n (Store.get vs self) ->
  SquareData (Matrix._data m) -> length (Matrix._data m) = n ->
  exists vs' : Store Vector.t,
    Vector.transform self m vs = Ok (next vs, vs') /\
    next vs' = S (S (next vs)) /\
    has_dimension n (Store.get vs' (next vs)) /\
    Vector._components (Store.get vs' (next vs))
    = apply_matrix (Matrix._data m) (Vector._components (Store.get vs self)) /\
    Vector._origin (Store.get vs' (next vs))
    = (if np.any (Vector._origin (Store.get vs self))
       then apply_matrix (Matrix._data m) (Vector._origin (Store.get vs self))
       else Vector._origin (Store.get vs self)) /\
    Vector._previous_state (Store.get vs' (next vs)) = Some (S (next vs)) /\
    Store.get vs' (S (next vs)) = copy_of (Store.get vs self) /\
    forall r : ref, allocated vs r -> Store.get vs' r = Store.get vs r.
Proof.
  intros Ha (Hdim & Hc & Ho) S Hn.
  pose proof (square_arity _ S) as Har. rewrite Hn in Har.
  set (o := if np.any (Vector._origin (Store.get vs self))
            then apply_matrix (Matrix._data m)
                   (Vector._origin (Store.get vs self))
            else Vector._origin (Store.get vs self)).
  assert (Hlo : length o = n).
  { unfold o. destruct (np.any _); [| exact Ho].
    now rewrite apply_matrix_length. }
  destruct (transform_spec self m vs
              (apply_matrix (Matrix._data m)
                 (Vector._components (Store.get vs self))) o)
    as (vs' & E & Hn' & Hv & Hc' & Hd' & Ho' & Hp & Hcopy & Hframe).
  - exact Ha.
  - now rewrite Hc.
  - apply matvec_square; [exact S | congruence].
  - unfold o. destruct (np.any _); [| reflexivity].
    apply matvec_square; [exact S | congruence].
  - now rewrite apply_matrix_length, Hn.
  - rewrite apply_matrix_length, Hn in Ho'.
    rewrite stored_origin_same in Ho' by exact Hlo.
    exists vs'. repeat split; auto.
    + now rewrite Hd', apply_matrix_length.
    + rewrite Hc'. now rewrite apply_matrix_length.
    + now rewrite Ho'.
Qed.

Lemma truthy_0 (x : R) : truthy x = false -> x = 0.
Proof.
  unfold truthy, Reqb. destruct (Req_dec_T x 0); [auto | discriminate].
Qed.

Lemma any_false (v : ndarray) : np.any v = false -> Forall (fun x => x = 0) v.
Proof.
  unfold np.any. induction v as [| x v IH]; cbn; intros H; constructor.
  - apply truthy_0. now apply orb_false_iff in H.
  - apply IH. now apply orb_false_iff in H.
Qed.

Lemma matvec_assoc (da db : list ndarray) (v : ndarray) :
  SquareData da -> SquareData db ->
  length da = length db -> length v = length da ->
  exists dab : list ndarray,
    np.matmul da db = Ok dab /\ SquareData dab /\ length dab = length da /\
    apply_matrix da (apply_matrix db v) = apply_matrix dab v.
Proof.
  intros Sa Sb Hab Hv.
  destruct Sa, Sb; cbn in Hab, Hv; try discriminate.
  - destruct (length_2 v Hv) as (x & y & ->).
    eexists. split; [reflexivity |]. cbn.
    split; [constructor |]. split; [reflexivity |].
    unfold apply_matrix, np.sum. cbn.
    repeat (apply f_equal2; [ring |]). reflexivity.
  - destruct (length_3 v Hv) as (x & y & z & ->).
    eexists. split; [reflexivity |]. cbn.
    split; [constructor |]. split; [reflexivity |].
    unfold apply_matrix, np.sum. cbn.
    repeat (apply f_equal2; [ring |]). reflexivity.
Qed.

Lemma apply_matrix_zero (data : list ndarray) (v : ndarray) :
  SquareData data -> length v = length data ->
  Forall (fun x => x = 0) v -> apply_matrix data v = v.
Proof.
  intros S Hv Hz. destruct S; cbn in Hv.
  - destruct (length_2 v Hv) as (x & y & ->).
    inversion Hz as [| ? ? Hx Hz']; subst. inversion Hz' as [| ? ? Hy _]; subst.
    unfold apply_matrix, np.sum. cbn.
    repeat (apply f_equal2; [ring |]). reflexivity.
  - destruct (length_3 v Hv) as (x & y & z & ->).
    inversion Hz as [| ? ? Hx Hz']; subst.
    inversion Hz' as [| ? ? Hy Hz'']; subst.
    inversion Hz'' as [| ? ? Hzz _]; subst.
    unfold apply_matrix, np.sum. cbn.
    repeat (apply f_equal2; [ring |]). reflexivity.
Qed.

(** In exact arithmetic, for valid matrices [a] and [b] of the dimension of
    the Vector, transforming by [b] and then by [a] gives the components
    and the origin that transforming by [a @ b] gives. *)
Lemma transform_composes_with_matmul
    (self : ref) (a b : Matrix.t) (n : nat) (vs : Store Vector.t) :
  allocated vs self ->
  has_dimension n (Store.get vs self) ->
  Matrix.__init__ (Matrix._data a) = Ok a ->
  Matrix.__init__ (Matrix._data b) = Ok b ->
  (Matrix._dim a = n -> Matrix._dim b = n ->
   exists (ab : Matrix.t) (vs1 vs2 vs3 : Store Vector.t),
     Matrix.__matmul__ a b = Ok ab /\
     Vector.transform self b vs = Ok (next vs, vs1) /\
     Vector.transform (next vs) a vs1 = Ok (next vs1, vs2) /\
     Vector.transform self ab vs = Ok (next vs, vs3) /\
     Vector._components (Store.get vs2 (next vs1))
     = Vector._components (Store.get vs3 (next vs)) /\
     Vector._origin (Store.get vs2 (next vs1))
     = Vector._origin (Store.get vs3 (next vs))) /\
  (Matrix._dim a <> n ->
   exists msg, Vector.transform self a vs = Raise (ValueError msg)).
Proof.
  intros Hal Hdim Ha Hb.
  apply init_matrix_inv in Ha as [Sa Ea], Hb as [Sb Eb].
  destruct a as [da na], b as [db nb].
  cbn [Matrix._data Matrix._dim] in *.
  injection Ea as Ena. injection Eb as Enb.
  split.
  - intros Hna Hnb. subst na nb.
    pose proof Hdim as (_ & Hc & Ho).
    destruct (matvec_assoc da db (Vector._components (Store.get vs self))
                Sa Sb)
      as (dab & Emm & Sab & Hlab & Hcomp);
      [exact (eq_trans Hna (eq_sym Hnb)) | exact (eq_trans Hc (eq_sym Hna)) |].
    destruct (transform_square self (Matrix.mk db (length db)) n vs Hal Hdim
                Sb Hnb)
      as (vs1 & E1 & Hn1 & Hd1 & Hc1 & Ho1 & _ & _ & Hf1).
    destruct (transform_square (next vs) (Matrix.mk da (length da)) n vs1)
      as (vs2 & E2 & _ & _ & Hc2 & Ho2 & _);
      [unfold allocated in *; lia | exact Hd1 | exact Sa | exact Hna |].
    destruct (transform_square self (Matrix.mk dab (length dab)) n vs Hal Hdim
                Sab)
      as (vs3 & E3 & _ & _ & Hc3 & Ho3 & _); [exact (eq_trans Hlab Hna) |].
    exists (Matrix.mk dab (length dab)), vs1, vs2, vs3.
    split; [unfold Matrix.__matmul__; cbn [Matrix._data]; rewrite Emm;
            cbn [bind]; now apply init_square |].
    rewrite Hn1 in *.
    split; [exact E1 |]. split; [exact E2 |].
    split; [exact E3 |].
    cbn [Matrix._data] in *.
    split.
    + rewrite Hc2, Hc3, Hc1. exact Hcomp.
    + rewrite Ho2, Ho3, Ho1.
      destruct (np.any (Vector._origin (Store.get vs self))) eqn:Eany.
      * destruct (matvec_assoc da db (Vector._origin (Store.get vs self))
                    Sa Sb)
          as (dab' & Emm' & _ & _ & Horig);
          [exact (eq_trans Hna (eq_sym Hnb))
          | exact (eq_trans Ho (eq_sym Hna)) |].
        assert (dab' = dab) by congruence. subst dab'.
        destruct (np.any (apply_matrix db _)) eqn:Eany2; [exact Horig |].
        rewrite <- Horig. symmetry.
        apply apply_matrix_zero; [exact Sa | | now apply any_false].
        rewrite apply_matrix_length. exact (eq_trans Hnb (eq_sym Hna)).
      * now rewrite Eany.
  - intros Hne. subst na. unfold Vector.transform. cbn [Matrix._data].
    destruct Hdim as (_ & Hc & _).
    destruct (matvec_mismatch da (Vector._components (Store.get vs self)) Sa)
      as [msg ->]; [intros H; apply Hne; exact (eq_trans (eq_sym H) Hc) |].
    cbn. eauto.
Qed.

Lemma apply_identity (n : nat) (v : ndarray) :
  Vector.valid_arity n = true -> length v = n ->
  apply_matrix (np.eye n) v = v.
Proof.
  intros Hn Hv. destruct n as [| [| [| [| n]]]]; try discriminate.
  - destruct (length_2 v Hv) as (x & y & ->).
    unfold apply_matrix, np.sum. cbn.
    repeat (apply f_equal2; [ring |]). reflexivity.
  - destruct (length_3 v Hv) as (x & y & z & ->).
    unfold apply_matrix, np.sum. cbn.
    repeat (apply f_equal2; [ring |]). reflexivity.
Qed.

(** X18: [transform] by the identity Matrix of the dimension of the Vector
    returns a new Vector with the components and the origin of [self] and
    a fresh copy of [self] as previous state, and changes no Vector that
    existed before; a valid Matrix of another dimension makes [transform]
    raise ValueError. *)
Theorem transform_by_the_identity_keeps_the_vector
    (self : ref) (n : nat) (vs : Store Vector.t) :
  allocated vs self ->
  has_dimension n (Store.get vs self) ->
  Vector.valid_arity n = true ->
  (exists (i : Matrix.t) (vs' : Store Vector.t),
     Matrix.identity n = Ok i /\
     Vector.transform self i vs = Ok (next vs, vs') /\
     Vector._components (Store.get vs' (next vs))
     = Vector._components (Store.get vs self) /\
     Vector._origin (Store.get vs' (next vs))
     = Vector._origin (Store.get vs self) /\
     Vector._previous_state (Store.get vs' (next vs)) = Some (S (next vs)) /\
     Store.get vs' (S (next vs)) = copy_of (Store.get vs self) /\
     forall r : ref, allocated vs r -> Store.get vs' r = Store.get vs r) /\
  (forall m : Matrix.t,
     Matrix.__init__ (Matrix._data m) = Ok m ->
     Matrix._dim m <> n ->
     exists msg, Vector.transform self m vs = Raise (ValueError msg)).
Proof.
  intros Hal Hdim Hn. split.
  - assert (Hi : Matrix.identity n = Ok (Matrix.mk (np.eye n) n)).
    { destruct n as [| [| [| [| n]]]]; try discriminate; reflexivity. }
    assert (Si : SquareData (np.eye n)).
    { destruct n as [| [| [| [| n]]]]; try discriminate; constructor. }
    assert (Li : length (np.eye n) = n).
    { unfold np.eye. now rewrite length_map, length_seq. }
    destruct (transform_square self (Matrix.mk (np.eye n) n) n vs Hal Hdim
                Si Li)
      as (vs' & E & _ & _ & Hc & Ho & Hp & Hcopy & Hframe).
    cbn [Matrix._data] in *.
    destruct Hdim as (_ & Lc & Lo).
    rewrite apply_identity in Hc by assumption.
    assert (Ho' : Vector._origin (Store.get vs' (next vs))
                  = Vector._origin (Store.get vs self)).
    { rewrite Ho. destruct (np.any _); [| reflexivity].
      now apply apply_identity. }
    exists (Matrix.mk (np.eye n) n), vs'. auto 10.
  - intros m Hm Hne.
    apply init_matrix_inv in Hm as [Sm Em].
    destruct m as [dm nm]. cbn [Matrix._data Matrix._dim] in *.
    injection Em as Enm. subst nm.
    unfold Vector.transform. cbn [Matrix._data].
    destruct Hdim as (_ & Hc & _).
    destruct (matvec_mismatch dm (Vector._components (Store.get vs self)) Sm)
      as [msg ->]; [intros H; apply Hne; exact (eq_trans (eq_sym H) Hc) |].
    cbn. eauto.
Qed.

Lemma transform_by_the_identity_witness :
  exists (i : Matrix.t) (vs' : Store Vector.t),
    Matrix.identity 2 = Ok i /\
    Vector.transform 1%nat i Scenario.mixed_vectors = Ok (3%nat, vs') /\
    Vector._components (Store.get vs' 3%nat) = [3; 4] /\
    Vector._origin (Store.get vs' 3%nat) = [1; 1] /\
    Vector._previous_state (Store.get vs' 3%nat) = Some 4%nat /\
    Store.get vs' 4%nat = copy_of (Store.get Scenario.mixed_vectors 1%nat) /\
    forall r : ref,
      allocated Scenario.mixed_vectors r ->
      Store.get vs' r = Store.get Scenario.mixed_vectors r.
Proof.
  apply (proj1 (transform_by_the_identity_keeps_the_vector 1%nat 2%nat
                  Scenario.mixed_vectors
                  ltac:(unfold allocated; cbn; lia)
                  ltac:(repeat split; reflexivity)
                  eq_refl)).
Defined.

(** ** Timeline: the finished flag *)

Section FinishedFlag.

Variables cur dt : R.

Lemma update_one_keeps_finished (t0 : R) (st : Store Animation.t * bool)
    (r r' : ref) :
  Animation.is_finished (Store.get (fst st) r') = true ->
  Animation.is_finished
    (Store.get (fst (Timeline.update_one cur t0 dt st r)) r') = true.
Proof.
  intros H. destruct (Nat.eq_dec r' r) as [-> | Hne].
  - rewrite update_one_same, H. now rewrite andb_false_r.
  - now rewrite update_one_other.
Qed.

Lemma update_entries_keeps_finished (es : list (R * ref))
    (st : Store Animation.t * bool) (r : ref) :
  Animation.is_finished (Store.get (fst st) r) = true ->
  Animation.is_finished
    (Store.get (fst (update_entries cur dt es st)) r) = true.
Proof.
  unfold update_entries. revert st.
  induction es as [| [t0 a] es IH]; intros st H; cbn [fold_left];
    [exact H |].
  apply IH. now apply update_one_keeps_finished.
Qed.

Lemma update_one_flag (t0 : R) (st : Store Animation.t * bool) (r : ref) :
  snd (Timeline.update_one cur t0 dt st r)
  = Animation.is_finished
      (Store.get (fst (Timeline.update_one cur t0 dt st r)) r)
    && snd st.
Proof.
  destruct st as [anims b]. unfold Timeline.update_one. cbn [fst snd].
  destruct (Animation.is_finished (Store.get _ r)); reflexivity.
Qed.

(** The flag survives a pass only if every animation met was finished
    after its turn, and so is finished at the end. *)
Lemma update_entries_flag (es : list (R * ref))
    (st : Store Animation.t * bool) :
  snd (update_entries cur dt es st) = true ->
  snd st = true /\
  forall r : ref, In r (map snd es) ->
    Animation.is_finished
      (Store.get (fst (update_entries cur dt es st)) r) = true.
Proof.
  unfold update_entries. revert st.
  induction es as [| [t0 a] es IH]; intros st H; cbn [fold_left] in *.
  - split; [exact H | intros r []].
  - destruct (IH _ H) as [Hflag Hall].
    rewrite update_one_flag in Hflag. cbn [fst snd] in Hflag.
    apply andb_true_iff in Hflag as [Ha Hst].
    split; [exact Hst |].
    intros r [<- | Hr]; [| now apply Hall].
    now apply (update_entries_keeps_finished es).
Qed.

Lemma update_entries_cons (e : R * ref) (es : list (R * ref))
    (st : Store Animation.t * bool) :
  update_entries cur dt (e :: es) st
  = update_entries cur dt es
      (Timeline.update_one cur (fst e) dt st (snd e)).
Proof. reflexivity. Qed.

(** When no animation is scheduled twice, the flag survives exactly when
    every animation is finished at the end. *)
Lemma update_entries_flag_complete (es : list (R * ref))
    (st : Store Animation.t * bool) :
  NoDup (map snd es) ->
  snd st = true ->
  (forall r : ref, In r (map snd es) ->
     Animation.is_finished
       (Store.get (fst (update_entries cur dt es st)) r) = true) ->
  snd (update_entries cur dt es st) = true.
Proof.
  revert st.
  induction es as [| [t0 a] es IH]; intros st Hnd Hst Hall;
    [exact Hst |].
  cbn [map snd] in Hnd, Hall.
  inversion Hnd as [| ? ? Hnotin Hnd']; subst.
  rewrite update_entries_cons. cbn [fst snd].
  apply IH; [exact Hnd' | | intros r Hr; apply (Hall r); now right].
  rewrite update_one_flag, Hst, andb_true_r.
  specialize (Hall a (or_introl eq_refl)).
  rewrite update_entries_cons in Hall. cbn [fst snd] in Hall.
  now rewrite update_entries_frame in Hall.
Qed.

End FinishedFlag.

Lemma duration_of_schedule (tl tl' : Timeline.t) (anims : Store Animation.t) :
  Timeline._animations tl' = Timeline._animations tl ->
  Timeline.duration tl' anims = Timeline.duration tl anims.
Proof. intros H. unfold Timeline.duration. now rewrite H. Qed.

(** X19: after an [update(dt)] of a playing Timeline, the finished flag is
    set only if every scheduled animation is finished and the playhead has
    reached the duration, and the Timeline has then stopped playing; when
    no animation is scheduled twice, the converse holds as well. *)
Theorem timeline_finishes_when_every_animation_has
    (tl tl' : Timeline.t) (dt : R) (anims anims' : Store Animation.t) :
  Timeline._is_playing tl = true ->
  Timeline._is_finished tl = false ->
  Timeline.update tl dt anims = Ok (tl', anims') ->
  let all_done :=
    forall r : ref, In r (Timeline.get_all_animations tl) ->
      Animation.is_finished (Store.get anims' r) = true in
  let at_end :=
    exists total : R,
      Timeline.duration tl' anims' = Ok total /\
      Timeline._current_time tl' >= total in
  (Timeline._is_finished tl' = true ->
   all_done /\ at_end /\ Timeline._is_playing tl' = false) /\
  (NoDup (Timeline.get_all_animations tl) ->
   all_done -> at_end -> Timeline._is_finished tl' = true).
Proof.
  intros Hp Hf. unfold Timeline.update. rewrite Hp, Hf. cbn [negb orb].
  rewrite update_all_entries.
  cbn [Timeline._animations Timeline.set_current_time Timeline._current_time].
  pose proof (update_entries_flag (Timeline._current_time tl + dt) dt
                (entries (Timeline._animations tl)) (anims, true)) as Hflag.
  pose proof (update_entries_flag_complete (Timeline._current_time tl + dt) dt
                (entries (Timeline._animations tl)) (anims, true)) as Hcomp.
  rewrite entries_refs in Hflag, Hcomp.
  fold (Timeline.get_all_animations tl) in Hflag, Hcomp.
  destruct (update_entries _ _ _ _) as [anims1 all_finished].
  cbn [fst snd] in *.
  set (tl1 := Timeline.set_current_time (Timeline._current_time tl + dt) tl).
  destruct all_finished.
  - destruct (Timeline.duration tl1 anims1) as [total |] eqn:Ed; cbn [bind];
      [| discriminate].
    unfold Rgeb. destruct (Rge_dec (Timeline._current_time tl + dt) total)
      as [Hge | Hlt]; intros H; injection H as <- <-; cbv zeta.
    + split; [| reflexivity]. intros _.
      split; [now apply Hflag |]. split; [| reflexivity].
      exists total. split; [| exact Hge].
      rewrite <- Ed. now apply duration_of_schedule.
    + split; [cbn; rewrite Hf; discriminate |].
      intros _ _ (total' & Ed' & Hge). exfalso. apply Hlt.
      assert (total' = total) by congruence. subst total'. exact Hge.
  - intros H; injection H as <- <-; cbv zeta.
    split; [cbn; rewrite Hf; discriminate |].
    intros Hnd Hall _. specialize (Hcomp Hnd eq_refl Hall). discriminate.
Qed.

Lemma timeline_finishes_witness :
  let tl := Timeline.play (Timeline._add_at 0 0%nat Timeline.__init__) in
  exists (tl' : Timeline.t) (anims' : Store Animation.t),
    Timeline.update tl 1 (Scenario.one_animation 1) = Ok (tl', anims') /\
    Timeline._is_finished tl' = true /\
    Animation.is_finished (Store.get anims' 0%nat) = true /\
    Timeline._is_playing tl' = false /\
    exists total : R,
      Timeline.duration tl' anims' = Ok total /\
      Timeline._current_time tl' >= total.
Proof.
  intros tl.
  assert (E : exists (tl' : Timeline.t) (anims' : Store Animation.t),
             Timeline.update tl 1 (Scenario.one_animation 1) = Ok (tl', anims')
             /\ Timeline._is_finished tl' = true).
  { eexists. eexists. split.
    - unfold tl. run_timeline. reflexivity.
    - reflexivity. }
  destruct E as (tl' & anims' & E & Hf).
  assert (H0 : In 0%nat (Timeline.get_all_animations tl)).
  { unfold tl, Timeline._add_at. cbn. rewrite Reqb_true by lra. cbn. auto. }
  destruct (timeline_finishes_when_every_animation_has
              tl tl' 1 (Scenario.one_animation 1) anims' eq_refl eq_refl E)
    as [H _].
  destruct (H Hf) as (Hall & Hend & Hp).
  exists tl', anims'. split; [exact E |]. split; [exact Hf |].
  split; [now apply Hall |]. split; [exact Hp | exact Hend].
Defined.

(** ** Timeline: duration *)

Lemma py_max_cases (a b : R) :
  (py_max a b = a \/ py_max a b = b) /\ a <= py_max a b /\ b <= py_max a b.
Proof.
  unfold py_max, Rgtb. destruct (Rgt_dec b a); repeat split; auto; lra.
Qed.

Lemma fold_max_spec (xs : list R) (x : R) :
  In (fold_left py_max xs x) (x :: xs) /\
  forall y : R, In y (x :: xs) -> y <= fold_left py_max xs x.
Proof.
  revert x. induction xs as [| z xs IH]; intros x; cbn [fold_left].
  - split; [now left |]. intros y [<- | []]. lra.
  - destruct (IH (py_max x z)) as [Hin Hub].
    destruct (py_max_cases x z) as (Hc & Hx & Hz).
    split.
    + destruct Hin as [Hin | Hin]; [| now right; right].
      rewrite <- Hin. destruct Hc as [-> | ->]; [now left | now right; left].
    + intros y [<- | [<- | Hy]].
      * apply Rle_trans with (py_max x z); [exact Hx |].
        apply Hub. now left.
      * apply Rle_trans with (py_max x z); [exact Hz |].
        apply Hub. now left.
      * apply Hub. now right.
Qed.

Lemma py_max_list_spec (l : list R) :
  l <> [] ->
  exists m : R,
    py_max_list l = Ok m /\ In m l /\ forall y : R, In y l -> y <= m.
Proof.
  destruct l as [| x xs]; [contradiction |]. intros _.
  exists (fold_left py_max xs x). split; [reflexivity |].
  apply fold_max_spec.
Qed.

Lemma in_entries (d : Timeline.Buckets) (t0 : R) (r : ref) :
  In (t0, r) (entries d) <->
  exists rs : list ref, In (t0, rs) d /\ In r rs.
Proof.
  unfold entries. rewrite in_flat_map. split.
  - intros [[k rs] [Hb Hin]]. cbn in Hin.
    apply in_map_iff in Hin as [r' [E Hr]]. injection E as -> ->.
    now exists rs.
  - intros [rs [Hb Hr]]. exists (t0, rs). split; [exact Hb |].
    cbn. apply in_map_iff. now exists r.
Qed.

Lemma bucket_ends_spec (d : Timeline.Buckets) (anims : Store Animation.t) :
  nonempty_buckets d ->
  exists ends : list R,
    Timeline.bucket_ends d anims = Ok ends /\
    length ends = length d /\
    (forall e : R, In e ends ->
       exists t0 r, In (t0, r) (entries d) /\
                    e = t0 + Animation.duration (Store.get anims r)) /\
    (forall t0 r, In (t0, r) (entries d) ->
       exists e : R, In e ends /\
                     t0 + Animation.duration (Store.get anims r) <= e).
Proof.
  induction 1 as [| [k rs] d Hne _ IH]; cbn [Timeline.bucket_ends].
  - exists []. split; [reflexivity |]. split; [reflexivity |].
    split; [intros ? [] | intros ? ? []].
  - destruct IH as (ends & -> & Hlen & Hfrom & Hto).
    cbn [snd] in Hne.
    destruct (py_max_list_spec
                (map (fun r => Animation.duration (Store.get anims r)) rs))
      as (m & -> & Hin & Hub).
    { destruct rs; [contradiction | discriminate]. }
    cbn [bind]. exists ((k + m) :: ends).
    split; [reflexivity |]. split; [cbn; now rewrite Hlen |].
    split.
    + intros e [<- | He].
      * apply in_map_iff in Hin as [r [<- Hr]].
        exists k, r. split; [| reflexivity].
        apply in_entries. exists rs. split; [now left | exact Hr].
      * destruct (Hfrom e He) as (t0 & r & Hin' & ->).
        exists t0, r. split; [| reflexivity].
        apply in_entries in Hin' as [rs' [Hb Hr]].
        apply in_entries. exists rs'. split; [now right | exact Hr].
    + intros t0 r Hin'. apply in_entries in Hin' as [rs' [[E | Hb] Hr]].
      * injection E as <- <-. exists (k + m). split; [now left |].
        apply Rplus_le_compat_l. apply Hub.
        apply in_map_iff. now exists r.
      * destruct (Hto t0 r) as (e & He & Hle).
        { apply in_entries. now exists rs'. }
        exists e. split; [now right | exact Hle].
Qed.

(** X20: the [duration] of a Timeline whose buckets are not empty is 0 when
    nothing is scheduled, and otherwise the latest of the end times, start
    time plus duration, of the scheduled animations. *)
Theorem duration_is_the_latest_end
    (tl : Timeline.t) (anims : Store Animation.t) :
  nonempty_buckets (Timeline._animations tl) ->
  exists total : R,
    Timeline.duration tl anims = Ok total /\
    (forall t0 r, In (t0, r) (entries (Timeline._animations tl)) ->
       t0 + Animation.duration (Store.get anims r) <= total) /\
    (Timeline._animations tl <> [] ->
     exists t0 r, In (t0, r) (entries (Timeline._animations tl)) /\
                  total = t0 + Animation.duration (Store.get anims r)) /\
    (Timeline._animations tl = [] -> total = 0).
Proof.
  intros Hne. unfold Timeline.duration.
  destruct (Timeline._animations tl) as [| b d] eqn:E.
  - exists 0. split; [reflexivity |]. split; [intros ? ? [] |].
    split; [intros H; now contradiction H | reflexivity].
  - destruct (bucket_ends_spec (b :: d) anims Hne)
      as (ends & -> & Hlen & Hfrom & Hto).
    cbn [bind].
    destruct (py_max_list_spec ends) as (m & -> & Hin & Hub).
    { destruct ends; [discriminate | discriminate]. }
    exists m. split; [reflexivity |]. split; [| split].
    + intros t0 r Hr. destruct (Hto t0 r Hr) as (e & He & Hle).
      apply Rle_trans with e; [exact Hle | now apply Hub].
    + intros _. now apply Hfrom.
    + discriminate.
Qed.

Lemma duration_is_the_latest_end_witness :
  exists total : R,
    Timeline.duration Scenario.late_start (Scenario.one_animation 1)
    = Ok total /\
    (forall t0 r,
       In (t0, r) (entries (Timeline._animations Scenario.late_start)) ->
       t0 + Animation.duration
              (Store.get (Scenario.one_animation 1) r) <= total) /\
    (Timeline._animations Scenario.late_start <> [] ->
     exists t0 r,
       In (t0, r) (entries (Timeline._animations Scenario.late_start)) /\
       total = t0 + Animation.duration
                      (Store.get (Scenario.one_animation 1) r)) /\
    (Timeline._animations Scenario.late_start = [] -> total = 0).
Proof.
  apply (duration_is_the_latest_end Scenario.late_start
           (Scenario.one_animation 1)).
  unfold Scenario.late_start, Timeline.play.
  cbn [Timeline._animations Timeline.set_is_finished Timeline.set_is_playing].
  apply add_at_nonempty. constructor.
Defined.

(** ** Timeline: one bucket per start time *)

Lemma Reqb_eq (x y : R) : Reqb x y = true <-> x = y.
Proof. unfold Reqb. destruct (Req_dec_T x y); split; auto; discriminate. Qed.

Lemma dict_contains_In (d : Timeline.Buckets) (time : R) :
  Timeline.dict_contains d time = true <-> In time (map fst d).
Proof.
  unfold Timeline.dict_contains. rewrite existsb_exists, in_map_iff.
  split.
  - intros [b [Hb E]]. apply Reqb_eq in E. now exists b.
  - intros [b [E Hb]]. exists b. split; [exact Hb | now apply Reqb_eq].
Qed.

Lemma dict_append_keys (d : Timeline.Buckets) (time : R) (a : ref) :
  map fst (Timeline.dict_append d time a) = map fst d.
Proof.
  induction d as [| [k rs] d IH]; cbn; [reflexivity |].
  destruct (Reqb k time); cbn; [reflexivity | now rewrite IH].
Qed.

Lemma dict_append_entries (d : Timeline.Buckets) (time : R) (a : ref)
    (t0 : R) (r : ref) :
  In time (map fst d) ->
  (In (t0, r) (entries (Timeline.dict_append d time a)) <->
   In (t0, r) (entries d) \/ (t0 = time /\ r = a)).
Proof.
  induction d as [| [k rs] d IH]; cbn [map In]; [contradiction |].
  intros Hin. cbn [Timeline.dict_append]. unfold entries in *.
  destruct (Reqb k time) eqn:E.
  - apply Reqb_eq in E. subst k. cbn [flat_map fst snd].
    rewrite !in_app_iff, map_app, in_app_iff. cbn [map In]. split.
    + intros [[H | [H | []]] | H]; auto.
      injection H as <- <-. auto.
    + intros [[H | H] | [-> ->]]; auto.
  - assert (Hd : In time (map fst d)).
    { destruct Hin as [H | H]; [| exact H].
      cbn in H. apply Reqb_eq in H. congruence. }
    cbn [flat_map fst snd]. rewrite !in_app_iff, (IH Hd). tauto.
Qed.

(** X21: [_add_at(time, animation)] keeps the start times of the buckets
    distinct and adds the pair of [time] and [animation] to the schedule,
    nothing else. *)
Theorem add_at_keeps_one_bucket_per_start_time
    (time : R) (a : ref) (tl : Timeline.t) :
  NoDup (map fst (Timeline._animations tl)) ->
  let tl' := Timeline._add_at time a tl in
  NoDup (map fst (Timeline._animations tl')) /\
  (forall (t0 : R) (r : ref),
     In (t0, r) (entries (Timeline._animations tl')) <->
     In (t0, r) (entries (Timeline._animations tl)) \/ (t0 = time /\ r = a)).
Proof.
  intros Hnd tl'. subst tl'. unfold Timeline._add_at.
  cbn [Timeline._animations Timeline.set_animations].
  destruct (Timeline.dict_contains (Timeline._animations tl) time) eqn:E;
    cbn [negb].
  - split; [now rewrite dict_append_keys |].
    intros t0 r. apply dict_append_entries. now apply dict_contains_In.
  - rewrite dict_append_new by exact E.
    split.
    + rewrite map_app. cbn. apply NoDup_app; [exact Hnd | repeat constructor; auto | ].
      intros x Hx [<- | []].
      apply dict_contains_In in Hx. congruence.
    + intros t0 r. unfold entries. rewrite flat_map_app, in_app_iff. cbn.
      split.
      * intros [H | [H | []]]; [now left | right].
        injection H as <- <-. auto.
      * intros [H | [-> ->]]; auto.
Qed.

Lemma add_at_witness :
  let tl' := Timeline._add_at 2 0%nat Timeline.__init__ in
  NoDup (map fst (Timeline._animations tl')) /\
  (forall (t0 : R) (r : ref),
     In (t0, r) (entries (Timeline._animations tl')) <->
     In (t0, r) (entries (Timeline._animations Timeline.__init__))
     \/ (t0 = 2 /\ r = 0%nat)).
Proof.
  apply (add_at_keeps_one_bucket_per_start_time 2 0%nat Timeline.__init__).
  constructor.
Defined.

(** ** Scene: what a tick removes *)

Lemma tick_one_list (dt : R) (st : Store Animation.t * list ref) (a : ref) :
  snd (Scene.tick_one dt st a)
  = if Animation.is_finished (Store.get (fst (Scene.tick_one dt st a)) a)
    then snd st ++ [a] else snd st.
Proof.
  destruct st as [anims fin]. unfold Scene.tick_one. cbn [fst snd].
  destruct (Animation.is_finished _) eqn:E; cbn [fst snd]; now rewrite ?E.
Qed.

(** With each live animation listed once, the loop collects exactly the
    animations that are finished when it ends. *)
Lemma tick_collects_finished (dt : R) (l : list ref)
    (st : Store Animation.t * list ref) :
  NoDup l ->
  snd (fold_left (Scene.tick_one dt) l st)
  = snd st
    ++ filter (fun a => Animation.is_finished
                          (Store.get (fst (fold_left (Scene.tick_one dt) l st)) a))
              l.
Proof.
  revert st. induction l as [| a l IH]; intros st Hnd; cbn [fold_left filter].
  - now rewrite app_nil_r.
  - inversion Hnd as [| ? ? Hnotin Hnd']; subst.
    rewrite IH by exact Hnd'.
    rewrite (tick_frame dt l _ a Hnotin).
    rewrite tick_one_list.
    destruct (Animation.is_finished _); [| reflexivity].
    now rewrite <- app_assoc.
Qed.

Lemma list_remove_middle (pre l : list ref) (a : ref) :
  ~ In a pre -> Scene.list_remove (pre ++ a :: l) a = Ok (pre ++ l).
Proof.
  induction pre as [| x pre IH]; intros H; cbn.
  - now rewrite Nat.eqb_refl.
  - destruct (Nat.eqb_spec x a) as [-> | Hne]; [exfalso; apply H; now left |].
    rewrite IH by (intros Hin; apply H; now right). reflexivity.
Qed.

Lemma remove_each_filter (p : ref -> bool) (l pre : list ref) :
  NoDup (pre ++ l) ->
  Scene.remove_each (pre ++ l) (filter p l)
  = Ok (pre ++ filter (fun a => negb (p a)) l).
Proof.
  revert pre. induction l as [| a l IH]; intros pre Hnd; cbn [filter].
  - reflexivity.
  - destruct (p a) eqn:E; cbn [negb Scene.remove_each].
    + rewrite list_remove_middle.
      * cbn [bind]. apply IH. now apply NoDup_remove_1 in Hnd.
      * apply NoDup_remove_2 in Hnd. intros H. apply Hnd.
        apply in_or_app. now left.
    + replace (pre ++ a :: l) with ((pre ++ [a]) ++ l)
        by (now rewrite <- app_assoc).
      rewrite IH by (now rewrite <- app_assoc).
      now rewrite <- app_assoc.
Qed.

(** X22: an unpaused tick of a Scene whose live animations are listed once
    each leaves as live list the animations that are not finished after the
    tick, in their order, and keeps the original animations and the
    objects. *)
Theorem tick_drops_exactly_the_finished_animations
    (s : Scene.t) (dt : R) (anims : Store Animation.t) :
  Scene._paused s = false ->
  nonempty_buckets (Timeline._animations (Scene._timeline s)) ->
  NoDup (Scene._animations s) ->
  exists (s' : Scene.t) (anims' : Store Animation.t),
    Scene._update s dt anims = Ok (s', anims') /\
    Scene._animations s'
    = filter (fun a => negb (Animation.is_finished (Store.get anims' a)))
             (Scene._animations s) /\
    Scene._original_animations s' = Scene._original_animations s /\
    Scene._objects s' = Scene._objects s /\
    Scene._paused s' = false.
Proof.
  intros Hp Hne Hnd. unfold Scene._update. rewrite Hp.
  destruct (update_ok (Scene._timeline s) dt anims Hne) as [tl' ->].
  cbn [bind].
  pose proof (tick_collects_finished dt (Scene._animations s)
                (update_store (Scene._timeline s) dt anims, []) Hnd) as Hfin.
  destruct (fold_left _ _ _) as [anims2 finished]. cbn [fst snd app] in Hfin.
  subst finished.
  rewrite (remove_each_filter _ (Scene._animations s) []) by exact Hnd.
  cbn [bind app]. eexists. eexists. split; [reflexivity |].
  cbn. auto.
Qed.

Lemma tick_drops_witness :
  exists (s' : Scene.t) (anims' : Store Animation.t),
    Scene._update Scenario.live_only 1 (Scenario.one_animation 1)
    = Ok (s', anims') /\
    Scene._animations s'
    = filter (fun a => negb (Animation.is_finished (Store.get anims' a)))
             (Scene._animations Scenario.live_only) /\
    Scene._original_animations s'
    = Scene._original_animations Scenario.live_only /\
    Scene._objects s' = Scene._objects Scenario.live_only /\
    Scene._paused s' = false.
Proof.
  apply (tick_drops_exactly_the_finished_animations Scenario.live_only 1
           (Scenario.one_animation 1)).
  - reflexivity.
  - constructor.
  - repeat constructor. intros [].
Defined.

(** ** Scene: replay and stepping backward *)

Lemma contains_animation_In (l : list ref) (a : ref) :
  Scene.contains_animation l a = true <-> In a l.
Proof.
  unfold Scene.contains_animation. rewrite existsb_exists. split.
  - intros [x [Hx E]]. apply Nat.eqb_eq in E. now subst.
  - intros H. exists a. split; [exact H | apply Nat.eqb_refl].
Qed.

Lemma existsb_In (l : list ref) (r : ref) :
  existsb (Nat.eqb r) l = true <-> In r l.
Proof. apply contains_animation_In. Qed.

Lemma existsb_not_In (l : list ref) (r : ref) :
  ~ In r l -> existsb (Nat.eqb r) l = false.
Proof.
  intros H. destruct (existsb (Nat.eqb r) l) eqn:E; [| reflexivity].
  apply existsb_In in E. contradiction.
Qed.

Lemma reset_reset (a : Animation.t) :
  Animation.reset (Animation.reset a) = Animation.reset a.
Proof. reflexivity. Qed.

(** Case analysis on the membership tests of a goal. *)
Ltac by_membership :=
  unfold ref in *;
  repeat match goal with
         | |- context [existsb ?f ?l] => destruct (existsb f l)
         end;
  reflexivity.

(** The second loop of [readmit], started from any scene and store. *)
Lemma readmit_loop (originals : list ref) (s0 : Scene.t)
    (st0 : Store Animation.t) :
  let res :=
    fold_left
      (fun '(s', st) anim =>
         if negb (Scene.contains_animation (Scene._animations s') anim)
         then (Scene.set_animations (Scene._animations s' ++ [anim]) s',
               Store.modify st anim Animation.reset)
         else (s', st))
      originals (s0, st0) in
  exists added : list ref,
    Scene._animations (fst res) = Scene._animations s0 ++ added /\
    NoDup added /\
    (forall r : ref,
       In r added <-> In r originals /\ ~ In r (Scene._animations s0)) /\
    same_setup s0 (fst res) /\
    Scene._timeline (fst res) = Scene._timeline s0 /\
    Scene._paused (fst res) = Scene._paused s0 /\
    forall r : ref,
      Store.get (snd res) r
      = if existsb (Nat.eqb r) added then Animation.reset (Store.get st0 r)
        else Store.get st0 r.
Proof.
  revert s0 st0. induction originals as [| a rest IH]; intros s0 st0;
    cbn [fold_left].
  - exists []. cbn. rewrite app_nil_r.
    repeat split; auto; try constructor; try tauto.
  - destruct (Scene.contains_animation (Scene._animations s0) a) eqn:E;
      cbn [negb].
    + apply contains_animation_In in E.
      destruct (IH s0 st0) as (added & Hl & Hnd & Hin & Hrest).
      exists added. split; [exact Hl |]. split; [exact Hnd |].
      split; [| exact Hrest].
      intros r. rewrite Hin. cbn [In]. split; [tauto |].
      intros [[<- | H] Hn]; [contradiction | tauto].
    + assert (Ha : ~ In a (Scene._animations s0)).
      { intros H. apply contains_animation_In in H. congruence. }
      destruct (IH (Scene.set_animations (Scene._animations s0 ++ [a]) s0)
                   (Store.modify st0 a Animation.reset))
        as (added & Hl & Hnd & Hin & Hsetup & Htl & Hp & Hst).
      cbn [Scene._animations Scene.set_animations] in Hl, Hin.
      assert (Hnew : ~ In a added).
      { intros H. apply Hin in H as [_ H]. apply H.
        apply in_or_app. right. now left. }
      exists (a :: added).
      split; [now rewrite Hl, <- app_assoc |].
      split; [now constructor |].
      split; [| split; [exact Hsetup | split; [exact Htl | split; [exact Hp |]]]].
      * intros r. cbn [In]. rewrite Hin, in_app_iff. cbn [In].
        split.
        -- intros [<- | [H Hn]]; [tauto | tauto].
        -- intros [[<- | H] Hn]; [tauto |].
           destruct (Nat.eq_dec a r) as [-> | Hne]; [tauto |].
           right. split; [exact H |]. intros [H1 | [H1 | []]]; tauto.
      * intros r. rewrite Hst. cbn [existsb].
        destruct (Nat.eqb_spec r a) as [-> | Hne]; cbn [orb].
        -- rewrite (existsb_not_In added a Hnew).
           now rewrite get_modify_same.
        -- rewrite get_modify_other by exact Hne. reflexivity.
Qed.

Lemma readmit_spec (s : Scene.t) (anims : Store Animation.t) :
  exists added : list ref,
    Scene._animations (fst (Scene.readmit s anims))
    = Scene._animations s ++ added /\
    missing_originals s added /\
    same_setup s (fst (Scene.readmit s anims)) /\
    Scene._timeline (fst (Scene.readmit s anims)) = Scene._timeline s /\
    Scene._paused (fst (Scene.readmit s anims)) = Scene._paused s /\
    forall r : ref,
      Store.get (snd (Scene.readmit s anims)) r
      = if existsb (Nat.eqb r) (Scene._animations s ++ added)
        then Animation.reset (Store.get anims r)
        else Store.get anims r.
Proof.
  unfold Scene.readmit.
  destruct (readmit_loop (Scene._original_animations s) s
              (fold_left (fun st anim => Store.modify st anim Animation.reset)
                 (Scene._animations s) anims))
    as (added & Hl & Hnd & Hin & Hsetup & Htl & Hp & Hst).
  exists added. split; [exact Hl |]. split; [now split |].
  split; [exact Hsetup |]. split; [exact Htl |]. split; [exact Hp |].
  intros r. rewrite Hst, reset_each, existsb_app. by_membership.
Qed.

Lemma stop_state (tl : Timeline.t) (anims : Store Animation.t) :
  fst (Timeline.stop tl anims)
  = Timeline.mk (Timeline._animations tl) 0 false false.
Proof. reflexivity. Qed.

(** The store after [readmit] and then [stop] on the timeline. *)
Lemma rewind_store (s : Scene.t) (anims : Store Animation.t)
    (added : list ref) (r : ref) :
  Scene._animations (fst (Scene.readmit s anims))
  = Scene._animations s ++ added ->
  (forall q : ref,
     Store.get (snd (Scene.readmit s anims)) q
     = if existsb (Nat.eqb q) (Scene._animations s ++ added)
       then Animation.reset (Store.get anims q)
       else Store.get anims q) ->
  Store.get
    (snd (Timeline.stop (Scene._timeline s) (snd (Scene.readmit s anims)))) r
  = if existsb (Nat.eqb r) (Scene._animations s ++ added)
       || existsb (Nat.eqb r) (Timeline.get_all_animations (Scene._timeline s))
    then Animation.reset (Store.get anims r)
    else Store.get anims r.
Proof.
  intros Hl Hst. rewrite stop_store, reset_each, Hst. by_membership.
Qed.

Lemma replay_live (s : Scene.t) (anims : Store Animation.t) :
  exists added : list ref,
    Scene._animations (fst (Scene._replay s anims))
    = Scene._animations s ++ added /\
    missing_originals s added.
Proof.
  unfold Scene._replay.
  destruct (readmit_spec s anims) as (added & Hl & Hm & _).
  destruct (Scene.readmit s anims) as [s1 anims1].
  destruct (Timeline.stop _ _) as [tl anims2].
  now exists added.
Qed.

(** X23: [_replay] unpauses the Scene, puts its Timeline at time 0 and
    playing, appends to the live list each original animation that was
    missing from it, once, and resets every live or scheduled animation; it
    changes no other animation. *)
Theorem replay_rewinds_every_animation
    (s : Scene.t) (anims : Store Animation.t) :
  let s' := fst (Scene._replay s anims) in
  let anims' := snd (Scene._replay s anims) in
  Scene._paused s' = false /\
  Scene._timeline s'
  = Timeline.mk (Timeline._animations (Scene._timeline s)) 0 true false /\
  same_setup s s' /\
  (exists added : list ref,
     Scene._animations s' = Scene._animations s ++ added /\
     missing_originals s added) /\
  forall r : ref,
    (In r (Scene._animations s') \/
     In r (Timeline.get_all_animations (Scene._timeline s)) ->
     Store.get anims' r = Animation.reset (Store.get anims r)) /\
    (~ In r (Scene._animations s') ->
     ~ In r (Timeline.get_all_animations (Scene._timeline s)) ->
     Store.get anims' r = Store.get anims r).
Proof.
  intros s' anims'. subst s' anims'. unfold Scene._replay.
  destruct (readmit_spec s anims) as (added & Hl & Hm & Hsetup & Htl & Hp & Hst).
  pose proof (rewind_store s anims added) as Hrw.
  destruct (Scene.readmit s anims) as [s1 anims1]. cbn [fst snd] in *.
  rewrite Htl in *.
  pose proof (stop_state (Scene._timeline s) anims1) as Hstop.
  destruct (Timeline.stop (Scene._timeline s) anims1) as [tl anims2].
  cbn [fst snd] in *. subst tl.
  split; [reflexivity |]. split; [reflexivity |].
  split; [exact Hsetup |].
  split; [now exists added |].
  intros r. rewrite (Hrw r Hl Hst). cbn [Scene._animations Scene.set_paused
    Scene.set_timeline]. rewrite Hl.
  rewrite <- !existsb_In. unfold ref in *.
  destruct (existsb _ (_ ++ _)); destruct (existsb _ _); cbn [orb];
    split; try reflexivity; intuition congruence.
Qed.

(** The loop of [_step] over the live list. *)
Lemma step_each (dt : R) (l : list ref) (anims : Store Animation.t) (r : ref) :
  NoDup l ->
  Store.get
    (fold_left
       (fun st anim => Store.modify st anim (fun a => Animation.update a dt))
       l anims) r
  = if existsb (Nat.eqb r) l then Animation.update (Store.get anims r) dt
    else Store.get anims r.
Proof.
  revert anims. induction l as [| x l IH]; intros anims Hnd;
    cbn [fold_left existsb]; [reflexivity |].
  inversion Hnd as [| ? ? Hnotin Hnd']; subst.
  rewrite IH by exact Hnd'.
  destruct (Nat.eqb_spec r x) as [-> | Hne]; cbn [orb].
  - rewrite (existsb_not_In l x Hnotin). now rewrite get_modify_same.
  - rewrite get_modify_other by exact Hne. reflexivity.
Qed.

Lemma py_max_0 (x : R) : 0 <= py_max 0 x.
Proof. unfold py_max, Rgtb. destruct (Rgt_dec x 0); lra. Qed.

(** X24: [_step_backward] on a Scene whose live animations are listed once
    each returns with the Scene paused and the Timeline stopped at time 0.
    The target time is the current progress less the step size, and not
    below 0; every live animation is reset and, when the target is
    positive, advanced by it, while an animation that is only scheduled is
    left reset. *)
Theorem step_backward_restarts_from_zero
    (s : Scene.t) (anims : Store Animation.t) :
  NoDup (Scene._animations s) ->
  let target :=
    py_max 0 (Scene._get_total_progress s anims - Scene._step_size s) in
  exists (s' : Scene.t) (anims' : Store Animation.t),
    Scene._step_backward s anims = Ok (s', anims') /\
    Scene._paused s' = true /\
    Scene._timeline s'
    = Timeline.mk (Timeline._animations (Scene._timeline s)) 0 false false /\
    Scene._animations s' = Scene._animations (fst (Scene._replay s anims)) /\
    0 <= target /\
    (forall r : ref, In r (Scene._animations s') ->
       Store.get anims' r
       = if Rgtb target 0
         then Animation.update (Animation.reset (Store.get anims r)) target
         else Animation.reset (Store.get anims r)) /\
    (forall r : ref, ~ In r (Scene._animations s') ->
       In r (Timeline.get_all_animations (Scene._timeline s)) ->
       Store.get anims' r = Animation.reset (Store.get anims r)).
Proof.
  intros Hnd target.
  assert (Hlive : Scene._animations (fst (Scene._replay s anims))
                  = Scene._animations (fst (Scene.readmit s anims))).
  { unfold Scene._replay. destruct (Scene.readmit s anims) as [s1 anims1].
    destruct (Timeline.stop _ _). reflexivity. }
  rewrite Hlive. unfold Scene._step_backward. fold target.
  destruct (readmit_spec s anims)
    as (added & Hl & [Hnda Hin] & Hsetup & Htl & Hp & Hst).
  pose proof (rewind_store s anims added) as Hrw.
  destruct (Scene.readmit s anims) as [s1 anims1]. cbn [fst snd] in *.
  rewrite Htl in *.
  pose proof (stop_state (Scene._timeline s) anims1) as Hstop.
  destruct (Timeline.stop (Scene._timeline s) anims1) as [tl anims2].
  cbn [fst snd] in *. subst tl.
  assert (Hnd1 : NoDup (Scene._animations s ++ added)).
  { apply NoDup_app; [exact Hnd | exact Hnda |].
    intros x Hx Ha. apply Hin in Ha. tauto. }
  destruct (Rgtb target 0) eqn:Et.
  - unfold Scene._step, Timeline.update.
    cbn [Scene._timeline Scene.set_timeline Timeline._is_playing negb orb bind
         Scene._animations].
    eexists. eexists. split; [reflexivity |].
    cbn [Scene._paused Scene.set_paused Scene._timeline Scene.set_timeline
         Scene._animations].
    split; [reflexivity |]. split; [reflexivity |]. split; [reflexivity |].
    split; [apply py_max_0 |].
    rewrite Hl. split.
    + intros r Hr. rewrite step_each by exact Hnd1.
      rewrite (Hrw r Hl Hst).
      apply existsb_In in Hr. unfold ref in *. rewrite Hr. reflexivity.
    + intros r Hr Hs. rewrite step_each by exact Hnd1.
      rewrite (Hrw r Hl Hst).
      apply existsb_In in Hs. apply existsb_not_In in Hr.
      unfold ref in *. rewrite Hr, Hs. reflexivity.
  - cbn [bind]. eexists. eexists. split; [reflexivity |].
    cbn [Scene._paused Scene.set_paused Scene._timeline Scene.set_timeline
         Scene._animations].
    split; [reflexivity |]. split; [reflexivity |]. split; [reflexivity |].
    split; [apply py_max_0 |].
    rewrite Hl. split.
    + intros r Hr. rewrite (Hrw r Hl Hst).
      apply existsb_In in Hr. unfold ref in *. rewrite Hr. reflexivity.
    + intros r Hr Hs. rewrite (Hrw r Hl Hst).
      apply existsb_In in Hs. unfold ref in *. rewrite Hs.
      now rewrite orb_true_r.
Qed.

Lemma step_backward_witness :
  let target :=
    py_max 0 (Scene._get_total_progress Scenario.live_only
                (Scenario.one_animation 1)
              - Scene._step_size Scenario.live_only) in
  exists (s' : Scene.t) (anims' : Store Animation.t),
    Scene._step_backward Scenario.live_only (Scenario.one_animation 1)
    = Ok (s', anims') /\
    Scene._paused s' = true /\
    Scene._timeline s' = Timeline.mk [] 0 false false /\
    Scene._animations s'
    = Scene._animations
        (fst (Scene._replay Scenario.live_only (Scenario.one_animation 1))) /\
    0 <= target /\
    (forall r : ref, In r (Scene._animations s') ->
       Store.get anims' r
       = if Rgtb target 0
         then Animation.update
                (Animation.reset (Store.get (Scenario.one_animation 1) r))
                target
         else Animation.reset (Store.get (Scenario.one_animation 1) r)) /\
    (forall r : ref, ~ In r (Scene._animations s') ->
       In r (Timeline.get_all_animations
               (Scene._timeline Scenario.live_only)) ->
       Store.get anims' r
       = Animation.reset (Store.get (Scenario.one_animation 1) r)).
Proof.
  apply (step_backward_restarts_from_zero Scenario.live_only
           (Scenario.one_animation 1)).
  repeat constructor. intros [].
Defined.

(** ** Scene: add, remove and clear *)

Lemma contains_own (vs : Store Vector.t) (l : list ref) (u : ref) :
  Scene.contains l u vs = Ok false ->
  Scene.contains (l ++ [u]) u vs = Ok true /\
  Scene.remove_object (l ++ [u]) u vs = Ok l.
Proof.
  induction l as [| item l IH]; cbn.
  - intros _. now rewrite Nat.eqb_refl.
  - destruct (Nat.eqb item u); [discriminate |].
    destruct (Vector.__eq__ item u vs) as [[|] |]; cbn; try discriminate.
    intros H. destruct (IH H) as [-> ->]. now split.
Qed.

Lemma remove_object_ext (vs vs' : Store Vector.t) (l : list ref) (obj : ref) :
  (forall r : ref,
     Vector._components (Store.get vs' r) = Vector._components (Store.get vs r)) ->
  Scene.remove_object l obj vs' = Scene.remove_object l obj vs.
Proof.
  intros H. induction l as [| item l IH]; cbn; [reflexivity |].
  unfold Vector.__eq__. now rewrite !H, IH.
Qed.

(** X25: when no object of the Scene equals [u], [add(u)] appends [u] and
    points it at the Scene, a second [add(u)] changes nothing, and
    [remove(u)] gives back the former object list and clears the scene
    pointer of [u], leaving every other Vector as it was at the start. *)
Theorem add_then_remove_restores_the_objects
    (self : ref) (s : Scene.t) (vs : Store Vector.t) (u : ref) :
  Scene.contains (Scene._objects s) u vs = Ok false ->
  exists (s1 : Scene.t) (vs1 : Store Vector.t),
    Scene.add self s [u] vs = Ok (s1, vs1) /\
    Scene._objects s1 = Scene._objects s ++ [u] /\
    Vector._scene (Store.get vs1 u) = Some self /\
    Scene.add self s1 [u] vs1 = Ok (s1, vs1) /\
    exists (s2 : Scene.t) (vs2 : Store Vector.t),
      Scene.remove s1 u vs1 = Ok (s2, vs2) /\
      Scene._objects s2 = Scene._objects s /\
      Vector._scene (Store.get vs2 u) = None /\
      forall r : ref, r <> u -> Store.get vs2 r = Store.get vs r.
Proof.
  intros Hnew. destruct (contains_own vs _ u Hnew) as [Hc Hr].
  exists (Scene.set_objects (Scene._objects s ++ [u]) s),
         (Store.modify vs u (Vector.set_scene (Some self))).
  split; [cbn; now rewrite Hnew |]. split; [reflexivity |].
  split; [now rewrite get_modify_same |].
  assert (Hc1 : Scene.contains (Scene._objects s ++ [u]) u
                  (Store.modify vs u (Vector.set_scene (Some self)))
                = Ok true).
  { rewrite (contains_ext vs) by (intros r; apply set_scene_components).
    exact Hc. }
  split; [cbn; now rewrite Hc1 |].
  unfold Scene.remove. cbn [Scene._objects Scene.set_objects].
  rewrite Hc1. cbn [bind].
  rewrite (remove_object_ext vs) by (intros r; apply set_scene_components).
  rewrite Hr. cbn [bind].
  eexists. eexists. split; [reflexivity |]. split; [reflexivity |].
  split; [now rewrite get_modify_same |].
  intros r Hne. now rewrite !get_modify_other.
Qed.

Lemma add_then_remove_witness :
  exists (s1 : Scene.t) (vs1 : Store Vector.t),
    Scene.add 0%nat Scenario.empty_scene [0%nat] Scenario.mixed_vectors
    = Ok (s1, vs1) /\
    Scene._objects s1 = Scene._objects Scenario.empty_scene ++ [0%nat] /\
    Vector._scene (Store.get vs1 0%nat) = Some 0%nat /\
    Scene.add 0%nat s1 [0%nat] vs1 = Ok (s1, vs1) /\
    exists (s2 : Scene.t) (vs2 : Store Vector.t),
      Scene.remove s1 0%nat vs1 = Ok (s2, vs2) /\
      Scene._objects s2 = Scene._objects Scenario.empty_scene /\
      Vector._scene (Store.get vs2 0%nat) = None /\
      forall r : ref, r <> 0%nat ->
        Store.get vs2 r = Store.get Scenario.mixed_vectors r.
Proof.
  apply (add_then_remove_restores_the_objects 0%nat Scenario.empty_scene
           Scenario.mixed_vectors 0%nat).
  reflexivity.
Defined.

Lemma clear_scene_pointers (l : list ref) (vs : Store Vector.t) (r : ref) :
  Store.get
    (fold_left (fun st obj => Store.modify st obj (Vector.set_scene None))
       l vs) r
  = if existsb (Nat.eqb r) l then Vector.set_scene None (Store.get vs r)
    else Store.get vs r.
Proof.
  revert vs. induction l as [| x l IH]; intros vs; cbn [fold_left existsb];
    [reflexivity |].
  rewrite IH. destruct (Nat.eqb_spec r x) as [-> | Hne]; cbn [orb].
  - rewrite get_modify_same. destruct (existsb (Nat.eqb x) l); reflexivity.
  - now rewrite get_modify_other.
Qed.

(** X26: [clear()] empties the object and live lists and clears the scene
    pointers of the former objects, but keeps the original animations: a
    following [_replay] makes exactly those live again. *)
Theorem clear_keeps_the_original_animations
    (s : Scene.t) (vs : Store Vector.t) (anims : Store Animation.t) :
  let s1 := fst (Scene.clear s vs) in
  let vs1 := snd (Scene.clear s vs) in
  Scene._objects s1 = [] /\
  Scene._animations s1 = [] /\
  (forall v : ref, In v (Scene._objects s) ->
     Store.get vs1 v = Vector.set_scene None (Store.get vs v)) /\
  (forall v : ref, ~ In v (Scene._objects s) ->
     Store.get vs1 v = Store.get vs v) /\
  forall r : ref,
    In r (Scene._animations (fst (Scene._replay s1 anims))) <->
    In r (Scene._original_animations s).
Proof.
  intros s1 vs1. subst s1 vs1. unfold Scene.clear. cbn [fst snd].
  split; [reflexivity |]. split; [reflexivity |].
  split; [| split].
  - intros v Hv. rewrite clear_scene_pointers.
    apply existsb_In in Hv. unfold ref in *. now rewrite Hv.
  - intros v Hv. rewrite clear_scene_pointers.
    now rewrite (existsb_not_In _ _ Hv).
  - intros r.
    destruct (replay_live
                (Scene.set_animations [] (Scene.set_objects [] s)) anims)
      as (added & Hl & _ & Hin).
    rewrite Hl. cbn [Scene._animations Scene.set_animations app].
    rewrite Hin. cbn. tauto.
Qed.

(** ** Camera2D *)

Lemma clamp_bounds (lo hi x : R) :
  lo <= hi -> lo <= py_max lo (py_min hi x) <= hi.
Proof.
  intros H. unfold py_max, py_min, Rgtb, Rltb.
  destruct (Rlt_dec _ _), (Rgt_dec _ _); lra.
Qed.

Lemma call2d_zoom (c : Camera2D.t) (k : Camera2DCall) :
  5 <= Camera2D._zoom c <= 500 ->
  exists c' : Camera2D.t,
    call2d c k = Ok c' /\ 5 <= Camera2D._zoom c' <= 500.
Proof.
  intros Hz. destruct k as [w h | dx dy | f center | a |]; cbn.
  - eexists. split; [reflexivity | exact Hz].
  - unfold Camera2D.pan. rewrite !py_div_nonzero by lra. cbn.
    eexists. split; [reflexivity | exact Hz].
  - unfold Camera2D.zoom_by. destruct center as [[cx cy] |].
    + destruct (Camera2D._position c) as [px py].
      rewrite !py_div_nonzero by lra. cbn.
      eexists. split; [reflexivity |]. cbn. apply clamp_bounds. lra.
    + eexists. split; [reflexivity |]. cbn. apply clamp_bounds. lra.
  - eexists. split; [reflexivity | exact Hz].
  - eexists. split; [reflexivity |]. cbn. lra.
Qed.

(** X27: after any run of [resize], [pan], [zoom_by], [rotate] and [reset]
    calls on a new Camera2D, with window sizes that fit a float, every call
    has returned, the zoom is within [5, 500] and [get_view_bounds] returns
    without raising; so does [screen_to_world] as long as the rotation is
    of moderate size. *)
Theorem camera2d_never_divides_by_zero
    (width height : Z) (ks : list Camera2DCall) :
  int_fits width -> int_fits height -> Forall fits2d ks ->
  exists c : Camera2D.t,
    calls2d (Camera2D.__init__ width height) ks = Ok c /\
    5 <= Camera2D._zoom c <= 500 /\
    is_ok (Camera2D.get_view_bounds c) = true /\
    (Rabs (Camera2D._rotation c) <= 1e150 ->
     forall x y : R, is_ok (Camera2D.screen_to_world c x y) = true).
Proof.
  intros _ _ _.
  assert (Hrun : forall c0 : Camera2D.t,
             5 <= Camera2D._zoom c0 <= 500 ->
             exists c : Camera2D.t,
               calls2d c0 ks = Ok c /\ 5 <= Camera2D._zoom c <= 500).
  { induction ks as [| k ks IH]; intros c0 Hz; cbn.
    - now exists c0.
    - destruct (call2d_zoom c0 k Hz) as (c1 & -> & Hz1). cbn [bind].
      now apply IH. }
  destruct (Hrun (Camera2D.__init__ width height)) as (c & E & Hz).
  { cbn. lra. }
  exists c. split; [exact E |]. split; [exact Hz |]. split.
  - unfold Camera2D.get_view_bounds. now rewrite !py_div_nonzero by lra.
  - intros _ x y. unfold Camera2D.screen_to_world.
    rewrite !py_div_nonzero by lra. cbn. now destruct (negb _).
Qed.

Lemma camera2d_never_divides_by_zero_witness :
  exists c : Camera2D.t,
    calls2d (Camera2D.__init__ 800 600)
      [ZoomBy2D 20 None; Resize2D 1024 768; Rotate2D 1] = Ok c /\
    Camera2D._zoom c = 500 /\
    Camera2D._width c = 1024%Z /\
    is_ok (Camera2D.get_view_bounds c) = true /\
    (Rabs (Camera2D._rotation c) <= 1e150 ->
     forall x y : R, is_ok (Camera2D.screen_to_world c x y) = true).
Proof.
  destruct (camera2d_never_divides_by_zero 800 600
              [ZoomBy2D 20 None; Resize2D 1024 768; Rotate2D 1])
    as (c & E & _ & Hb & Hs).
  - unfold int_fits. cbn. lia.
  - unfold int_fits. cbn. lia.
  - repeat constructor; unfold int_fits; cbn; lia.
  - exists c. split; [exact E |].
    assert (E0 : exists c0 : Camera2D.t,
               calls2d (Camera2D.__init__ 800 600)
                 [ZoomBy2D 20 None; Resize2D 1024 768; Rotate2D 1] = Ok c0 /\
               Camera2D._zoom c0 = 500 /\ Camera2D._width c0 = 1024%Z).
    { eexists. split; [| split].
      - unfold calls2d, call2d, Camera2D.zoom_by, py_max, py_min.
        float_eval. reflexivity.
      - reflexivity.
      - reflexivity. }
    destruct E0 as (c0 & E0 & Hz0 & Hw0).
    rewrite E in E0. injection E0 as ->.
    split; [exact Hz0 |]. split; [exact Hw0 |]. split; [exact Hb | exact Hs].
Defined.

(** In exact arithmetic [zoom_by(factor, center)] on a Camera2D with its
    zoom within [5, 500] keeps the world point under the screen position
    [center] where it was, whatever the rotation. *)
Lemma zoom_toward_a_point_keeps_it_in_place
    (c : Camera2D.t) (factor cx cy : R) :
  5 <= Camera2D._zoom c <= 500 ->
  exists c' : Camera2D.t,
    Camera2D.zoom_by c factor (Some (cx, cy)) = Ok c' /\
    Camera2D._zoom c' = py_max 5 (py_min 500 (Camera2D._zoom c * factor)) /\
    Camera2D.screen_to_world c' cx cy = Camera2D.screen_to_world c cx cy.
Proof.
  intros Hz. destruct c as [w h [px py] z r]. cbn in Hz.
  pose proof (clamp_bounds 5 500 (z * factor) ltac:(lra)) as Hz'.
  unfold Camera2D.zoom_by. cbn. rewrite !py_div_nonzero by lra. cbn.
  eexists. split; [reflexivity |]. split; [reflexivity |].
  unfold Camera2D.screen_to_world. cbn.
  set (z' := py_max 5 (py_min 500 (z * factor))) in *.
  rewrite !py_div_nonzero by lra. cbn.
  replace ((cx - IZR w / 2) / z' +
           (px + (((cx - IZR w / 2) / z + px - px) * z' + IZR w / 2 - cx) / z'))
    with ((cx - IZR w / 2) / z + px) by (field; lra).
  replace (- (cy - IZR h / 2) / z' +
           (py - (- (- (cy - IZR h / 2) / z + py - py) * z' + IZR h / 2 - cy)
                 / z'))
    with (- (cy - IZR h / 2) / z + py) by (field; lra).
  reflexivity.
Qed.

Lemma clamp_monotone (lo hi x y : R) :
  x <= y -> py_max lo (py_min hi x) <= py_max lo (py_min hi y).
Proof.
  intros H. unfold py_max, py_min, Rgtb, Rltb.
  repeat match goal with
         | |- context [Rlt_dec ?a ?b] => destruct (Rlt_dec a b)
         | |- context [Rgt_dec ?a ?b] => destruct (Rgt_dec a b)
         end; lra.
Qed.

(** X28: [zoom_by(factor, center)] on a Camera2D with its zoom within
    [5, 500] and a window size that fits a float sets the zoom to the
    product with [factor], clamped to [5, 500], whether a center is given
    or not, and leaves rotation and window size as they were; without a
    center the position stays as well, and a factor of 1 then changes
    nothing.  A larger factor never gives a smaller zoom. *)
Theorem zoom_by_clamps_the_zoom
    (c : Camera2D.t) (factor : R) (center : option (R * R)) :
  5 <= Camera2D._zoom c <= 500 ->
  int_fits (Camera2D._width c) -> int_fits (Camera2D._height c) ->
  exists c' : Camera2D.t,
    Camera2D.zoom_by c factor center = Ok c' /\
    Camera2D._zoom c' = py_max 5 (py_min 500 (Camera2D._zoom c * factor)) /\
    5 <= Camera2D._zoom c' <= 500 /\
    Camera2D._rotation c' = Camera2D._rotation c /\
    Camera2D._width c' = Camera2D._width c /\
    Camera2D._height c' = Camera2D._height c /\
    (center = None -> Camera2D._position c' = Camera2D._position c) /\
    (center = None -> factor = 1 -> c' = c) /\
    forall (factor' : R) (c'' : Camera2D.t),
      factor <= factor' ->
      Camera2D.zoom_by c factor' center = Ok c'' ->
      Camera2D._zoom c' <= Camera2D._zoom c''.
Proof.
  intros Hz _ _. destruct c as [w h [px py] z r]. cbn in Hz.
  pose proof (clamp_bounds 5 500 (z * factor) ltac:(lra)) as Hz'.
  unfold Camera2D.zoom_by. cbn. destruct center as [[cx cy] |].
  - rewrite !py_div_nonzero by lra. cbn.
    eexists. split; [reflexivity |]. cbn.
    split; [reflexivity |]. split; [exact Hz' |].
    do 3 (split; [reflexivity |]).
    split; [discriminate |]. split; [discriminate |].
    intros factor' c'' Hf E. injection E as <-. cbn.
    apply clamp_monotone. apply Rmult_le_compat_l; lra.
  - eexists. split; [reflexivity |]. cbn.
    split; [reflexivity |]. split; [exact Hz' |].
    do 4 (split; [reflexivity |]).
    split.
    + intros _ ->. f_equal. rewrite Rmult_1_r.
      unfold py_max, py_min, Rgtb, Rltb.
      destruct (Rlt_dec z 500); destruct (Rgt_dec _ 5); lra.
    + intros factor' c'' Hf E. injection E as <-. cbn.
      apply clamp_monotone. apply Rmult_le_compat_l; lra.
Qed.

Lemma zoom_by_clamps_the_zoom_witness :
  exists c' : Camera2D.t,
    Camera2D.zoom_by (Camera2D.__init__ 800 600) 2 (Some (100, 200)) = Ok c' /\
    Camera2D._zoom c' = py_max 5 (py_min 500 (50 * 2)) /\
    5 <= Camera2D._zoom c' <= 500 /\
    Camera2D._rotation c' = 0 /\
    Camera2D._width c' = 800%Z /\
    Camera2D._height c' = 600%Z /\
    (Some (100, 200) = None -> Camera2D._position c' = (0, 0)) /\
    (Some (100, 200) = None -> 2 = 1 -> c' = Camera2D.__init__ 800 600) /\
    forall (factor' : R) (c'' : Camera2D.t),
      2 <= factor' ->
      Camera2D.zoom_by (Camera2D.__init__ 800 600) factor' (Some (100, 200))
      = Ok c'' ->
      Camera2D._zoom c' <= Camera2D._zoom c''.
Proof.
  apply (zoom_by_clamps_the_zoom (Camera2D.__init__ 800 600) 2
           (Some (100, 200))).
  - cbn. lra.
  - unfold int_fits. cbn. lia.
  - unfold int_fits. cbn. lia.
Defined.

(** In exact arithmetic [pan(dx, dy)] on a Camera2D with its zoom within
    [5, 500] moves the screen image of every world point by [(dx, dy)]. *)
Lemma pan_shifts_the_screen_image (c : Camera2D.t) (dx dy x y : R) :
  5 <= Camera2D._zoom c <= 500 ->
  exists c' : Camera2D.t,
    Camera2D.pan c dx dy = Ok c' /\
    Camera2D.world_to_screen c' x y
    = (fst (Camera2D.world_to_screen c x y) + dx,
       snd (Camera2D.world_to_screen c x y) + dy).
Proof.
  intros Hz. destruct c as [w h [px py] z r]. cbn in Hz.
  unfold Camera2D.pan. cbn. rewrite !py_div_nonzero by lra. cbn.
  eexists. split; [reflexivity |].
  unfold Camera2D.world_to_screen. cbn.
  destruct (negb (Reqb r 0)); cbn; f_equal; field; lra.
Qed.

(** X29: [pan(dx, dy)] on a Camera2D with its zoom within [5, 500] moves
    the position by [dx / zoom] to the left and by [dy / zoom] upwards, and
    nothing else: zoom, rotation and window size stay.  A [dx] that is not
    negative never moves the position to the right, a [dy] that is not
    negative never moves it down, and [pan(0, 0)] changes nothing. *)
Theorem pan_moves_the_position_only (c : Camera2D.t) (dx dy : R) :
  5 <= Camera2D._zoom c <= 500 ->
  exists c' : Camera2D.t,
    Camera2D.pan c dx dy = Ok c' /\
    Camera2D._position c'
    = (fst (Camera2D._position c) - dx / Camera2D._zoom c,
       snd (Camera2D._position c) + dy / Camera2D._zoom c) /\
    Camera2D._zoom c' = Camera2D._zoom c /\
    Camera2D._rotation c' = Camera2D._rotation c /\
    Camera2D._width c' = Camera2D._width c /\
    Camera2D._height c' = Camera2D._height c /\
    (0 <= dx -> fst (Camera2D._position c') <= fst (Camera2D._position c)) /\
    (0 <= dy -> snd (Camera2D._position c) <= snd (Camera2D._position c')) /\
    (dx = 0 -> dy = 0 -> c' = c).
Proof.
  intros Hz. destruct c as [w h [px py] z r]. cbn in Hz.
  unfold Camera2D.pan. cbn. rewrite !py_div_nonzero by lra. cbn.
  eexists. split; [reflexivity |]. cbn.
  do 5 (split; [reflexivity |]).
  assert (Hq : forall d : R, 0 <= d -> 0 <= d / z).
  { intros d Hd. apply Rmult_le_pos; [exact Hd |].
    apply Rlt_le, Rinv_0_lt_compat. lra. }
  split; [intros H; specialize (Hq dx H); lra |].
  split; [intros H; specialize (Hq dy H); lra |].
  intros -> ->. f_equal. f_equal; unfold Rdiv; ring.
Qed.

Lemma pan_moves_the_position_only_witness :
  exists c' : Camera2D.t,
    Camera2D.pan (Camera2D.__init__ 800 600) 10 20 = Ok c' /\
    Camera2D._position c' = (0 - 10 / 50, 0 + 20 / 50) /\
    Camera2D._zoom c' = 50 /\
    Camera2D._rotation c' = 0 /\
    Camera2D._width c' = 800%Z /\
    Camera2D._height c' = 600%Z /\
    (0 <= 10 -> fst (Camera2D._position c') <= 0) /\
    (0 <= 20 -> 0 <= snd (Camera2D._position c')) /\
    (10 = 0 -> 20 = 0 -> c' = Camera2D.__init__ 800 600).
Proof.
  apply (pan_moves_the_position_only (Camera2D.__init__ 800 600) 10 20).
  cbn. lra.
Defined.

(** In exact arithmetic the view bounds of an unrotated Camera2D are the
    world coordinates of the corners of the window. *)
Lemma view_bounds_are_the_screen_corners (c : Camera2D.t) :
  5 <= Camera2D._zoom c <= 500 ->
  Camera2D._rotation c = 0 ->
  exists min_x min_y max_x max_y : R,
    Camera2D.get_view_bounds c = Ok (min_x, min_y, max_x, max_y) /\
    Camera2D.world_to_screen c min_x max_y = (0, 0) /\
    Camera2D.world_to_screen c max_x min_y
    = (IZR (Camera2D._width c), IZR (Camera2D._height c)).
Proof.
  intros Hz Hr. destruct c as [w h [px py] z r]. cbn in Hz, Hr. subst r.
  unfold Camera2D.get_view_bounds. cbn. rewrite !py_div_nonzero by lra. cbn.
  do 4 eexists. split; [reflexivity |].
  unfold Camera2D.world_to_screen. cbn. rewrite Reqb_true by reflexivity. cbn.
  split; f_equal; field; lra.
Qed.

(** ** Camera3D *)

(** In exact arithmetic the position of a Camera3D lies at its distance
    from the target. *)
Lemma position_on_sphere (c : Camera3D.t) :
  distance_squared (Camera3D.position c) (Camera3D._target c)
  = Camera3D._distance c * Camera3D._distance c.
Proof.
  destruct c as [w h [[tx ty] tz] d th ph fov near far].
  unfold Camera3D.position, distance_squared. cbn.
  pose proof (sin2_cos2 th) as Ht. pose proof (sin2_cos2 ph) as Hp.
  unfold Rsqr in *.
  replace (_ + _ + _)
    with (d * d * (cos ph * cos ph * (sin th * sin th + cos th * cos th)
                   + sin ph * sin ph)) by ring.
  rewrite Ht, Rmult_1_r, (Rplus_comm (cos ph * cos ph)), Hp. ring.
Qed.

(** X30: after any run of [resize], [orbit], [pan], [zoom_by] and [reset]
    calls on a new Camera3D, the distance is within [1, 100] and the
    elevation is within [pi / 2 - 0.01] of the horizon on either side, so
    its cosine is positive. *)
Theorem camera3d_keeps_distance_and_elevation_in_range
    (width height : Z) (ks : list Camera3DCall) :
  let c := fold_left call3d ks (Camera3D.__init__ width height) in
  1 <= Camera3D._distance c <= 100 /\
  - PI / 2 + 0.01 <= Camera3D._phi c <= PI / 2 - 0.01 /\
  0 < cos (Camera3D._phi c).
Proof.
  intros c.
  pose proof PI2_3_2 as Hpi. pose proof PI_4 as Hpi4.
  assert (Hinv : 1 <= Camera3D._distance c <= 100 /\
                 - PI / 2 + 0.01 <= Camera3D._phi c <= PI / 2 - 0.01).
  { subst c.
    assert (Hrun : forall c0 : Camera3D.t,
               1 <= Camera3D._distance c0 <= 100 /\
               - PI / 2 + 0.01 <= Camera3D._phi c0 <= PI / 2 - 0.01 ->
               1 <= Camera3D._distance (fold_left call3d ks c0) <= 100 /\
               - PI / 2 + 0.01 <= Camera3D._phi (fold_left call3d ks c0)
                 <= PI / 2 - 0.01).
    { induction ks as [| k ks IH]; intros c0 H0; cbn [fold_left];
        [exact H0 |].
      apply IH. destruct H0 as [Hd Hp].
      destruct k as [w h | dt dp | dx dy | f |]; cbn.
      - auto.
      - split; [exact Hd | apply clamp_bounds; lra].
      - unfold Camera3D.pan. destruct (Camera3D._target c0) as [[tx ty] tz].
        cbn. auto.
      - split; [apply clamp_bounds; lra | exact Hp].
      - split; lra. }
    apply Hrun. cbn. split; lra. }
  destruct Hinv as [Hd Hp]. split; [exact Hd |]. split; [exact Hp |].
  apply cos_gt_0; lra.
Qed.

